(** * himotoki-split: a shallow embedding of the tokenizer core

    The development follows the Python sources module by module:
    [dictionary.py] (lexicon interface), [characters.py] (character
    classes), [counters.py] (number parsing and readings), [splits.py]
    (split score adjustments), [tokenizer.py] (lattice, path selection,
    merge passes), [suffix_splitting.py] (split / substitution / merge
    patterns) and the facade of [__init__.py].

    Conventions.
    - A Python [str] is the list of its code points ([str := list N]);
      [len], slices and [endswith] are the list operations below.  String
      literals of the sources are written [u "..."], which decodes the
      UTF-8 bytes of the Rocq literal.
    - Python [int] is [Z] for record fields and [nat] for offsets and
      lengths, which never go below zero.
    - Python [float] scores are idealised as exact rationals ([Q]).
    - A [dict] whose iteration order matters is an association list in
      insertion order.
    - An exception is a value of [py A]. *)

From Stdlib Require Import String Ascii.
From Stdlib Require Import List NArith ZArith QArith Bool Lia.
From Stdlib Require Import Sorting.Sorted.
From Stdlib Require Floats.
Import ListNotations.
Open Scope string_scope.
Open Scope list_scope.
Open Scope nat_scope.

(** ** Python strings *)

Definition char := N.
Definition str := list char.

Fixpoint bytes_of (s : string) : list N :=
  match s with
  | EmptyString => []
  | String a r => N_of_ascii a :: bytes_of r
  end.

(** UTF-8 decoding of a literal: [need] continuation bytes are still
    expected for the code point accumulated in [acc]. *)
Fixpoint utf8 (bs : list N) (need : nat) (acc : N) : str :=
  match bs with
  | [] => []
  | b :: r =>
      match need with
      | O => if (b <? 128)%N then b :: utf8 r 0 0%N
             else if (b <? 224)%N then utf8 r 1 (b - 192)%N
             else if (b <? 240)%N then utf8 r 2 (b - 224)%N
             else utf8 r 3 (b - 240)%N
      | S O => (acc * 64 + (b - 128))%N :: utf8 r 0 0%N
      | S k => utf8 r k (acc * 64 + (b - 128))%N
      end
  end.

Definition u (s : string) : str := utf8 (bytes_of s) 0 0%N.

(** The single character of a one-character literal. *)
Definition ch (s : string) : char := hd 0%N (u s).

Fixpoint str_eqb (a b : str) : bool :=
  match a, b with
  | [], [] => true
  | x :: a', y :: b' => N.eqb x y && str_eqb a' b'
  | _, _ => false
  end.

Fixpoint strs_eqb (a b : list str) : bool :=
  match a, b with
  | [], [] => true
  | x :: a', y :: b' => str_eqb x y && strs_eqb a' b'
  | _, _ => false
  end.

(** [s in SET] for a set or list of strings, [c in SET] for characters. *)
Definition str_in (s : str) (l : list str) : bool := existsb (str_eqb s) l.
Definition char_in (c : char) (l : list char) : bool := existsb (N.eqb c) l.
Definition nat_in (n : nat) (l : list nat) : bool := existsb (Nat.eqb n) l.
Definition Z_in (n : Z) (l : list Z) : bool := existsb (Z.eqb n) l.

(** [text[a:b]] for [0 <= a], [0 <= b]. *)
Definition slice (text : str) (a b : nat) : str := firstn (b - a) (skipn a text).

(** [s.startswith(p)] and [s.endswith(p)]. *)
Fixpoint startswith (s p : str) : bool :=
  match p, s with
  | [], _ => true
  | y :: p', x :: s' => N.eqb x y && startswith s' p'
  | _ :: _, [] => false
  end.

Definition endswith (s p : str) : bool :=
  (length p <=? length s) && str_eqb (skipn (length s - length p) s) p.

(** [s.endswith((p1, p2, ...))]. *)
Definition endswith_any (s : str) (ps : list str) : bool := existsb (endswith s) ps.

(** [s[:-n]] for [n >= 1]. *)
Definition drop_last (n : nat) (s : str) : str := firstn (length s - n) s.

(** [''.join(parts)]. *)
Definition join (parts : list str) : str := concat parts.

(** ** Exceptions *)

Inductive exn : Type :=
| ValueError (msg : string).

Inductive py (A : Type) : Type :=
| Ok (a : A)
| Raise (e : exn).
Arguments Ok {A} a.
Arguments Raise {A} e.

Definition raises {A : Type} (r : py A) : bool :=
  match r with Ok _ => false | Raise _ => true end.

(** ** dictionary.py: the lexicon *)

Record WordEntry : Type := mkWordEntry {
  we_surface : str;
  seq : Z;
  cost : Z;
  pos_id : Z;
  conj_type : Z;
  base_seq : Z
}.

Definition is_root (e : WordEntry) : bool :=
  (base_seq e =? 0)%Z || (base_seq e =? seq e)%Z.

Definition entry_base_form_id (e : WordEntry) : Z :=
  if negb (base_seq e =? 0)%Z then base_seq e else seq e.

Definition POS_ID_MAP : list (string * Z) :=
  [ ("n", 1); ("n-adv", 2); ("n-pref", 3); ("n-suf", 4); ("n-t", 5);
    ("v1", 10); ("v1-s", 11); ("v5aru", 12); ("v5b", 13); ("v5g", 14);
    ("v5k", 15); ("v5k-s", 16); ("v5m", 17); ("v5n", 18); ("v5r", 19);
    ("v5r-i", 20); ("v5s", 21); ("v5t", 22); ("v5u", 23); ("v5u-s", 24);
    ("v5uru", 25); ("vk", 26); ("vs", 27); ("vs-i", 28); ("vs-s", 29); ("vz", 30);
    ("adj-i", 40); ("adj-ix", 41); ("adj-na", 42); ("adj-no", 43);
    ("adj-pn", 44); ("adj-t", 45); ("adj-f", 46);
    ("adv", 50); ("adv-to", 51);
    ("aux", 60); ("aux-v", 61); ("aux-adj", 62);
    ("conj", 70); ("cop", 71); ("ctr", 72); ("exp", 73); ("int", 74);
    ("pn", 80); ("pref", 81); ("prt", 82); ("suf", 83); ("unc", 84) ]%Z.

Fixpoint get_pos_name_in (m : list (string * Z)) (pid : Z) : string :=
  match m with
  | [] => "unk"
  | (name, k) :: r => if (k =? pid)%Z then name else get_pos_name_in r pid
  end.

Definition get_pos_name (pid : Z) : string := get_pos_name_in POS_ID_MAP pid.

(** The loaded record trie, seen through the three queries the core
    makes.  [lookup] copies the queried surface into every entry it
    returns; a missing key gives the empty list. *)
Record Lexicon : Type := mkLexicon {
  lookup : str -> list WordEntry;
  has_prefix : str -> bool;
  contains : str -> bool
}.

(** A lexicon given by its keys and 12-byte records
    [(seq, cost, pos_id, conj_type, base_seq)], as the record trie
    stores them. *)
Definition record := (Z * Z * Z * Z * Z)%type.

Definition entry_of (surface : str) (r : record) : WordEntry :=
  let '(s, c, p, ct, b) := r in mkWordEntry surface s c p ct b.

Fixpoint trie_get (keys : list (str * list record)) (surface : str) : option (list record) :=
  match keys with
  | [] => None
  | (k, rs) :: rest => if str_eqb k surface then Some rs else trie_get rest surface
  end.

Definition trie_lexicon (keys : list (str * list record)) : Lexicon :=
  {| lookup := fun surface =>
       match trie_get keys surface with
       | Some rs => map (entry_of surface) rs
       | None => []
       end;
     has_prefix := fun prefix => existsb (fun kv => startswith (fst kv) prefix) keys;
     contains := fun surface =>
       match trie_get keys surface with Some _ => true | None => false end |}.

(** ** characters.py: the character classifier

    The tokenizer imports this module; the core uses the operations
    below and nothing else of it. *)
Record Characters : Type := mkCharacters {
  get_char_class : char -> string;
  is_kana : str -> bool;
  is_katakana : str -> bool;
  is_hiragana : str -> bool;
  has_kanji : str -> bool;
  as_hiragana : str -> str;
  (** [None] stands for a raised exception, which the scorer catches. *)
  mora_length : str -> option nat
}.

(** Modelled from the spec: [characters.py] is missing; section 4.1 of
    the specification names the classes and the derived predicates.
    Small-kana modifiers are the nine characters listed there, the sokuon
    is [っ] or [ッ], the long-vowel sign is [ー]; hiragana, katakana and
    kanji are the Unicode blocks of those names.  A mora is counted for
    every character that is neither a small kana nor the long-vowel
    sign. *)
Definition small_kana_classes : list (char * string) :=
  [ (ch "ぁ", "+a"); (ch "ぃ", "+i"); (ch "ぅ", "+u"); (ch "ぇ", "+e");
    (ch "ぉ", "+o"); (ch "ゃ", "+ya"); (ch "ゅ", "+yu"); (ch "ょ", "+yo");
    (ch "ゎ", "+wa") ].

(** Modelled from the spec: the classes [hiragana], [katakana] and
    [kanji] of the missing classifier, as the Unicode blocks U+3040-309F,
    U+30A0-30FF and U+4E00-9FFF. *)
Definition hiragana_char (c : char) : bool := ((12352 <=? c) && (c <=? 12447))%N.
Definition katakana_char (c : char) : bool := ((12448 <=? c) && (c <=? 12543))%N.
Definition kanji_char (c : char) : bool := ((19968 <=? c) && (c <=? 40959))%N.

(** Modelled from the spec: the class of a small-kana modifier, read
    from the table above. *)
Fixpoint small_kana_class (m : list (char * string)) (c : char) : option string :=
  match m with
  | [] => None
  | (k, name) :: r => if N.eqb k c then Some name else small_kana_class r c
  end.

(** Modelled from the spec: [get_char_class] of the missing classifier;
    the names of the modifier classes and of [sokuon] and [long_vowel]
    are those the tokenizer tests for. *)
Definition spec_get_char_class (c : char) : string :=
  match small_kana_class small_kana_classes c with
  | Some name => name
  | None =>
      if N.eqb c (ch "ー") then "long_vowel"
      else if N.eqb c (ch "っ") || N.eqb c (ch "ッ") then "sokuon"
      else if hiragana_char c then "hiragana"
      else if katakana_char c then "katakana"
      else if kanji_char c then "kanji"
      else "other"
  end.

(** Modelled from the spec: a string predicate such as [is_kana] holds
    when the string is not empty and all its characters are in the
    class. *)
Definition nonempty_all (p : char -> bool) (s : str) : bool :=
  match s with [] => false | _ => forallb p s end.

(** Modelled from the spec: [as_hiragana] of the missing classifier
    maps the katakana U+30A1-30F6 to the hiragana 96 code points below. *)
Definition spec_as_hiragana (s : str) : str :=
  map (fun c => if ((12449 <=? c) && (c <=? 12534))%N then (c - 96)%N else c) s.

(** Modelled from the spec: [mora_length] of the missing classifier;
    small kana and the long-vowel sign attach to the previous mora. *)
Definition spec_mora_length (s : str) : option nat :=
  Some (length (filter (fun c =>
          match small_kana_class small_kana_classes c with
          | Some _ => false
          | None => negb (N.eqb c (ch "ー"))
          end) s)).

(** Modelled from the spec: the missing module [characters.py] as a
    whole. *)
Definition spec_chars : Characters :=
  {| get_char_class := spec_get_char_class;
     is_kana := nonempty_all (fun c => hiragana_char c || katakana_char c);
     is_katakana := nonempty_all katakana_char;
     is_hiragana := nonempty_all hiragana_char;
     has_kanji := existsb kanji_char;
     as_hiragana := spec_as_hiragana;
     mora_length := spec_mora_length |}.

(** ** counters.py: numbers *)

Definition KANJI_NUMBERS : list (char * Z) :=
  [
    (ch "零", 0); (ch "〇", 0); (ch "一", 1); (ch "壱", 1); (ch "二", 2);
    (ch "弐", 2); (ch "三", 3); (ch "参", 3); (ch "四", 4); (ch "五", 5);
    (ch "六", 6); (ch "七", 7); (ch "八", 8); (ch "九", 9); (ch "十", 10);
    (ch "百", 100); (ch "千", 1000); (ch "万", 10000); (ch "億", 100000000) ]%Z.

Definition DIGIT_VALUES : list (char * Z) :=
  [
    (ch "0", 0); (ch "０", 0); (ch "1", 1); (ch "１", 1); (ch "2", 2);
    (ch "２", 2); (ch "3", 3); (ch "３", 3); (ch "4", 4); (ch "４", 4);
    (ch "5", 5); (ch "５", 5); (ch "6", 6); (ch "６", 6); (ch "7", 7);
    (ch "７", 7); (ch "8", 8); (ch "８", 8); (ch "9", 9); (ch "９", 9) ]%Z.

Definition DIGIT_TO_KANA : list (Z * str) :=
  [
    (0%Z, u "ゼロ"); (1%Z, u "いち"); (2%Z, u "に"); (3%Z, u "さん");
    (4%Z, u "よん"); (5%Z, u "ご"); (6%Z, u "ろく"); (7%Z, u "なな");
    (8%Z, u "はち"); (9%Z, u "きゅう") ].

Fixpoint char_get (d : list (char * Z)) (c : char) : option Z :=
  match d with
  | [] => None
  | (k, v) :: r => if N.eqb k c then Some v else char_get r c
  end.

(** [DIGIT_TO_KANA.get(n, '')]. *)
Fixpoint kana_get (d : list (Z * str)) (n : Z) : str :=
  match d with
  | [] => []
  | (k, v) :: r => if (k =? n)%Z then v else kana_get r n
  end.

(** [str(d)] for a digit value [0 <= d <= 9]. *)
Definition digit_char (d : Z) : char := (48 + Z.to_N d)%N.

Section Counters.

(** Python's Unicode database for a character outside [DIGIT_VALUES]:
    [None] when [c.isdigit()] is false, [Some None] when it is true
    but [int] rejects the character, [Some (Some v)] for a decimal
    digit of value [v]. *)
Variable unicode_digit : char -> option (option Z).

(** The first loop of [parse_number]: the digits read before the first
    character that is not a digit. *)
Fixpoint arabic_prefix (text : str) : str :=
  match text with
  | [] => []
  | c :: rest =>
      match char_get DIGIT_VALUES c with
      | Some v => digit_char v :: arabic_prefix rest
      | None =>
          match unicode_digit c with
          | Some _ => c :: arabic_prefix rest
          | None => []
          end
      end
  end.

(** [int(s)] for a string of digit characters, left to right. *)
Fixpoint py_int_from (acc : Z) (s : str) : py Z :=
  match s with
  | [] => Ok acc
  | c :: rest =>
      if ((48 <=? c) && (c <=? 57))%N
      then py_int_from (acc * 10 + Z.of_N (c - 48)) rest
      else match unicode_digit c with
           | Some (Some v) => py_int_from (acc * 10 + v) rest
           | _ => Raise (ValueError "invalid literal for int()")
           end
  end.

Definition py_int (s : str) : py Z := py_int_from 0 s.

(** The loop of [parse_kanji_number] over the characters of [text];
    [None] is the early [return None]. *)
Fixpoint parse_kanji_loop (text : str) (result current : Z) : option (Z * Z) :=
  match text with
  | [] => Some (result, current)
  | c :: rest =>
      match char_get KANJI_NUMBERS c with
      | None => None
      | Some value =>
          if (10 <=? value)%Z then
            let current := if (current =? 0)%Z then 1%Z else current in
            if (10000 <=? value)%Z
            then parse_kanji_loop rest (result + current * value)%Z 0%Z
            else
              let current := (current * value)%Z in
              parse_kanji_loop rest (result + current)%Z 0%Z
          else
            let result := if (0 <? current)%Z then (result + current)%Z else result in
            parse_kanji_loop rest result value
      end
  end.

Definition parse_kanji_number (text : str) : option Z :=
  match text with
  | [] => None
  | _ =>
      match parse_kanji_loop text 0%Z 0%Z with
      | None => None
      | Some (result, current) =>
          let result := (result + current)%Z in
          if (0 <? result)%Z || str_in text [u "零"; u "〇"]
          then Some result else None
      end
  end.

Definition parse_number (text : str) : py (option Z) :=
  match text with
  | [] => Ok None
  | _ =>
      let arabic_str := arabic_prefix text in
      if negb (length arabic_str =? 0) && (length arabic_str =? length text)
      then match py_int arabic_str with
           | Ok n => Ok (Some n)
           | Raise e => Raise e
           end
      else Ok (parse_kanji_number text)
  end.

End Counters.

(** [number_to_kana]; the recursive call is on [n // 10000], so [fuel]
    bounds the depth of the recursion. *)
Fixpoint number_to_kana_rec (fuel : nat) (n : Z) : str :=
  match fuel with
  | O => []
  | S fuel' =>
      if (n =? 0)%Z then u "ゼロ" else
      let parts : list str := [] in
      let '(parts, n) :=
        if (10000 <=? n)%Z then
          let man := (n / 10000)%Z in
          let parts := if (1 <? man)%Z
                       then parts ++ [number_to_kana_rec fuel' man] else parts in
          (parts ++ [u "まん"], (n mod 10000)%Z)
        else (parts, n) in
      let '(parts, n) :=
        if (1000 <=? n)%Z then
          let sen := (n / 1000)%Z in
          let parts :=
            if (sen =? 3)%Z then parts ++ [u "さんぜん"]
            else if (sen =? 8)%Z then parts ++ [u "はっせん"]
            else if (1 <? sen)%Z
                 then (parts ++ [kana_get DIGIT_TO_KANA sen]) ++ [u "せん"]
                 else parts ++ [u "せん"] in
          (parts, (n mod 1000)%Z)
        else (parts, n) in
      let '(parts, n) :=
        if (100 <=? n)%Z then
          let hyaku := (n / 100)%Z in
          let parts :=
            if (hyaku =? 3)%Z then parts ++ [u "さんびゃく"]
            else if (hyaku =? 6)%Z then parts ++ [u "ろっぴゃく"]
            else if (hyaku =? 8)%Z then parts ++ [u "はっぴゃく"]
            else if (1 <? hyaku)%Z
                 then (parts ++ [kana_get DIGIT_TO_KANA hyaku]) ++ [u "ひゃく"]
                 else parts ++ [u "ひゃく"] in
          (parts, (n mod 100)%Z)
        else (parts, n) in
      let '(parts, n) :=
        if (10 <=? n)%Z then
          let juu := (n / 10)%Z in
          let parts := if (1 <? juu)%Z
                       then parts ++ [kana_get DIGIT_TO_KANA juu] else parts in
          (parts ++ [u "じゅう"], (n mod 10)%Z)
        else (parts, n) in
      let parts := if (0 <? n)%Z then parts ++ [kana_get DIGIT_TO_KANA n] else parts in
      join parts
  end.

(** Each recursive call divides by [10000 > 2^13], so the binary length
    of [n] is enough fuel. *)
Definition number_to_kana (n : Z) : str :=
  number_to_kana_rec (S (Z.to_nat (Z.log2 n))) n.

(** The decimal numeral of [n >= 0], as [str(n)] writes it. *)
Fixpoint decimal_rec (fuel : nat) (n : Z) (acc : str) : str :=
  match fuel with
  | O => acc
  | S fuel' =>
      let acc := digit_char (n mod 10) :: acc in
      if (n <? 10)%Z then acc else decimal_rec fuel' (n / 10)%Z acc
  end.

Definition decimal (n : Z) : str := decimal_rec (S (Z.to_nat (Z.log2 n))) n [].

(** ** splits.py: split score adjustments *)

(** [DE_SPLITS]: compound seq to its score (the last component of the
    source tuple; the part seqs are not used by the scorer). *)
Definition DE_SPLITS : list (Z * Z) :=
  [
    (1163700, 20); (1611020, 20); (1004800, 20); (2810720, 20);
    (1006840, 20); (1530610, 20); (1245390, 20); (2719270, 20);
    (1189420, 20); (1272220, 20); (1311360, 20); (1368500, 20);
    (1395670, 20); (1417790, 20); (1454270, 20); (1479100, 20);
    (1510140, 20); (1518550, 20); (1531420, 20); (1597400, 20);
    (1679990, 20); (1682060, 20); (1736650, 20); (1865020, 20);
    (1878880, 20); (2126220, 20); (2136520, 20); (2513590, 20);
    (2771850, 20); (2810800, 20); (1343110, 20); (1270210, 20) ]%Z.

(** [TOORI_SPLITS]: compound seq to its score (the last component of the
    source tuple; the part seqs are not used by the scorer). *)
Definition TOORI_SPLITS : list (Z * Z) :=
  [
    (1260990, 50); (1414570, 50); (1424950, 50); (1424960, 50);
    (1820790, 50); (1489800, 50); (1523010, 50); (1808080, 50);
    (1368820, 50); (1550490, 50); (1619440, 50); (1164910, 50); (1462720, 50) ]%Z.

(** [DO_SPLITS]: compound seq to its score (the last component of the
    source tuple; the part seqs are not used by the scorer). *)
Definition DO_SPLITS : list (Z * Z) :=
  [
    (2142710, 30); (2803190, 30); (2142680, 30); (2523480, 30) ]%Z.

(** [SHI_SPLITS]: compound seq to its score (the last component of the
    source tuple; the part seqs are not used by the scorer). *)
Definition SHI_SPLITS : list (Z * Z) :=
  [
    (1005700, 30); (1005830, 30); (1157200, 30); (1157220, 30);
    (1157230, 30); (1157280, 30); (1157310, 30); (1304890, 30);
    (1304960, 30); (1305110, 30); (1305280, 30); (1305290, 30);
    (1594300, 30); (1594310, 30); (1594460, 30); (1594580, 30);
    (2518250, 30); (1157240, 30); (1304820, 30); (2858937, 30) ]%Z.

(** [COMPLEX_SPLITS]: compound seq to its score (the last component of the
    source tuple; the part seqs are not used by the scorer). *)
Definition COMPLEX_SPLITS : list (Z * Z) :=
  [
    (1529550, 30); (1922760, 20); (2755350, 10); (1009470, 1);
    (1591050, 100); (1221750, 100) ]%Z.

(** [SEGMENT_SPLITS]: compound seq to its score (the last component of the
    source tuple; the part seqs are not used by the scorer). *)
Definition SEGMENT_SPLITS : list (Z * Z) :=
  [
    (1008570, (-10)); (2028950, (-5)); (1008450, (-5)); (1007310, (-5));
    (1289400, (-30)) ]%Z.

Definition DE_SUFFIX_WORDS : list str := map u
  [
    "一人で"; "何で"; "これで"; "その上で"; "無断で"; "空で"; "土足で";
    "何用で"; "交代で"; "私費で"; "人前で"; "全体で"; "単独で"; "道理で";
    "半眼で"; "別封で"; "無しで"; "名義で"; "力尽くで"; "抜き足で";
    "金ずくで"; "水入らずで"; "陰で"; "差しで"; "もう少しで"; "今までで";
    "ところで"; "お陰で" ].

Definition TOORI_SUFFIX_WORDS : list str := map u
  [
    "元通り"; "大通り"; "中通り"; "型通り"; "表通り"; "本通り"; "目通り";
    "人通り"; "裏通り"; "素通り"; "一通り"; "二通り" ].

Definition DO_PREFIX_WORDS : list str := map u
  [
    "ど下手"; "どすけべ"; "ど根性"; "ど田舎" ].

Definition SHI_PREFIX_WORDS : list str := map u
  [
    "し易い"; "しやすい"; "し吹く"; "し難い"; "しにくい"; "し過ぎる";
    "しすぎる"; "し合う"; "しあう"; "し尽す"; "し続ける"; "しつづける";
    "し兼ねる"; "しかねる"; "し始める"; "しはじめる"; "し出す"; "しだす";
    "し直す"; "しなおす"; "し慣れる"; "しなれる"; "し損なう"; "しそこなう";
    "し損じる"; "しそんじる"; "し遂げる"; "しとげる"; "し向ける"; "しむける";
    "し終える"; "しおえる"; "し残す"; "しのこす"; "し掛ける"; "しかける";
    "し損ねる"; "しそこねる" ].

Definition COMPLEX_PATTERN_WORDS : list (str * (list str * Z)) :=
  [ (u "なくなる", (map u ["なく"; "なる"], 30%Z));
    (u "無くなる", (map u ["無く"; "なる"], 30%Z));
    (u "という", (map u ["と"; "いう"], 20%Z));
    (u "といった", (map u ["と"; "いった"], 20%Z));
    (u "といって", (map u ["と"; "いって"], 20%Z));
    (u "といえば", (map u ["と"; "いえば"], 20%Z));
    (u "じゃない", (map u ["じゃ"; "ない"], 10%Z));
    (u "じゃなかった", (map u ["じゃ"; "なかった"], 10%Z));
    (u "なら", (map u ["なら"], 1%Z));
    (u "気がつく", (map u ["気"; "が"; "つく"], 100%Z));
    (u "気がついた", (map u ["気"; "が"; "ついた"], 100%Z));
    (u "気がつかない", (map u ["気"; "が"; "つかない"], 100%Z));
    (u "気のせい", (map u ["気"; "の"; "せい"], 100%Z)) ].

Definition ALL_SPLIT_SEQS : list Z :=
  map fst DE_SPLITS ++ map fst TOORI_SPLITS ++ map fst DO_SPLITS ++
  map fst SHI_SPLITS ++ map fst COMPLEX_SPLITS ++ map fst SEGMENT_SPLITS.

Fixpoint seq_get (d : list (Z * Z)) (k : Z) : option Z :=
  match d with
  | [] => None
  | (k', v) :: r => if (k' =? k)%Z then Some v else seq_get r k
  end.

Fixpoint word_get {V : Type} (d : list (str * V)) (k : str) : option V :=
  match d with
  | [] => None
  | (k', v) :: r => if str_eqb k' k then Some v else word_get r k
  end.

Definition word_mem {V : Type} (d : list (str * V)) (k : str) : bool :=
  match word_get d k with Some _ => true | None => false end.

Definition should_split (surface : str) (sq : Z) : bool :=
  if Z_in sq ALL_SPLIT_SEQS then true
  else if str_in surface DE_SUFFIX_WORDS then true
  else if str_in surface TOORI_SUFFIX_WORDS then true
  else if str_in surface DO_PREFIX_WORDS then true
  else if str_in surface SHI_PREFIX_WORDS then true
  else if word_mem COMPLEX_PATTERN_WORDS surface then true
  else false.

Definition get_split_score_bonus (surface : str) (sq : Z) : Z :=
  match seq_get DE_SPLITS sq with Some v => v | None =>
  match seq_get TOORI_SPLITS sq with Some v => v | None =>
  match seq_get DO_SPLITS sq with Some v => v | None =>
  match seq_get SHI_SPLITS sq with Some v => v | None =>
  match seq_get COMPLEX_SPLITS sq with Some v => v | None =>
  match seq_get SEGMENT_SPLITS sq with Some v => v | None =>
  match word_get COMPLEX_PATTERN_WORDS surface with Some (_, v) => v | None =>
  if str_in surface DE_SUFFIX_WORDS then 20
  else if str_in surface TOORI_SUFFIX_WORDS then 50
  else if str_in surface DO_PREFIX_WORDS then 30
  else if str_in surface SHI_PREFIX_WORDS then 30
  else 0
  end end end end end end end%Z.

Definition calculate_split_score_adjustment (surface : str) (sq : Z) : Z :=
  if negb (should_split surface sq) then 0%Z
  else (- get_split_score_bonus surface sq)%Z.

(** ** tokenizer.py: constants and data structures *)

Definition MAX_WORD_LENGTH : nat := 30.

Definition MODIFIER_CLASSES : list string :=
  ["+a"; "+i"; "+u"; "+e"; "+o"; "+ya"; "+yu"; "+yo"; "+wa"; "long_vowel"].

Definition PARTICLES : list str := map u
  [
    "は"; "が"; "を"; "に"; "で"; "と"; "へ"; "も"; "や"; "から"; "まで";
    "より"; "など"; "って"; "か"; "よ"; "ね"; "な" ].

Definition SINGLE_CHAR_PARTICLES : list str := map u
  [
    "は"; "が"; "を"; "に"; "で"; "と"; "へ"; "も"; "か"; "よ"; "ね" ].

Definition VALID_COMPOUND_WORDS : list str := map u
  [
    "こんにちは"; "こんばんは"; "では"; "には"; "とは"; "この"; "その";
    "あの"; "どの"; "これ"; "それ"; "あれ"; "どれ"; "ここ"; "そこ"; "あそこ";
    "どこ"; "ところ"; "もの"; "こと"; "とき"; "どう"; "こう"; "そう"; "ああ";
    "なんか"; "なにか"; "だれか"; "もう"; "まだ"; "また"; "なんで";
    "どうして"; "もう少し"; "もうすぐ"; "どのくらい"; "どうやって";
    "このあたり"; "いつから"; "今にも"; "とても"; "いくら"; "そんなに";
    "どんなに"; "まずい"; "でしょうか"; "静かに"; "確かに"; "特に"; "本当に";
    "別に"; "すぐに"; "ついに"; "急に"; "単に"; "順に"; "丁寧に"; "特別に";
    "元気に"; "一応"; "実際に"; "現に"; "稀に"; "たまに"; "絶対に";
    "ぜったいに"; "ために"; "そこまで"; "どこまで"; "今まで"; "ここから";
    "そこから"; "どこから"; "みたい"; "みたいです"; "みたいだ"; "かどうか";
    "お勧めします"; "お願いします"; "仮に"; "かりに"; "としても"; "からには";
    "失敗した"; "何でも"; "なんでも"; "一緒に"; "いっしょに"; "さえあれば";
    "いかが"; "てか"; "あの人"; "この人"; "その人"; "どの人"; "これだけ";
    "それだけ"; "あれだけ"; "どれだけ"; "薄暗く"; "薄暗い"; "どこか";
    "さすが"; "とのこと"; "十二号"; "十号"; "一号"; "二号"; "三号";
    "いてくれて"; "いてくれた"; "いてくれる"; "分かってくれない";
    "分かってくれた"; "見せてくれない"; "見せてくれた"; "見せてくれる";
    "言ってる"; "言ってた"; "見たい"; "会いたい"; "食べたい"; "行きたい";
    "守りたい"; "なんて"; "何と"; "やばい"; "からといって"; "からといった";
    "わけにはいかない"; "わけにはいきません"; "かもしれない";
    "かもしれません"; "かもしれなかった"; "ならない"; "なりません";
    "分からなくなる"; "わからなくなる"; "待ってください";
    "待ってくださいませ"; "信じてくれない"; "信じてくれる"; "信じてくれた";
    "暴いてみせる"; "見せてみせる"; "期待されている"; "期待されていた";
    "言われてみれば"; "恐れ入りますが"; "恐れ入ります"; "経済政策"; "調査中";
    "いい天気"; "科学技術"; "電話してもいい"; "電話してもいいですか";
    "分かってもらえなかった"; "分かってもらえる"; "分かってもらえない";
    "おります"; "おりました"; "負けない"; "負けません" ].

Definition PARTICLE_POS_IDS : list Z := [82%Z].
Definition PRONOUN_POS_IDS : list Z := [80%Z; 44%Z].

Definition LENGTH_COEFF_SEQUENCES : list (string * list Z) :=
  [ ("strong", [0; 1; 8; 24; 40; 60; 84; 112; 144; 180]);
    ("weak", [0; 1; 4; 9; 16; 25; 36; 49; 64; 81]);
    ("tail", [0; 4; 9; 16; 24; 34; 46; 60]);
    ("ltail", [0; 4; 12; 18; 24; 32; 42; 54]) ]%Z.

Definition LENGTH_COEFFS : list Z :=
  [0; 1; 8; 24; 40; 60; 84; 112; 144; 180]%Z.

Definition UNKNOWN_CHAR_PENALTY : Q := (- (50 # 1))%Q.

Definition TE_FORM_MERGE_PATTERNS : list str := map u
  [
    "いる"; "いた"; "います"; "いました"; "いて"; "いない"; "いません";
    "しまう"; "しまった"; "しまいます"; "しまいました"; "ください";
    "くださる"; "くださった"; "くださいます"; "おく"; "おいた"; "おきます";
    "おきました"; "くる"; "きた"; "きます"; "きました"; "いく"; "いった";
    "いきます"; "いきました"; "あげる"; "あげた"; "もらう"; "もらった";
    "みせる"; "みせた"; "みせます"; "みせました"; "くれる"; "くれた";
    "くれない"; "くれません"; "もらえる"; "もらえた"; "もらえない";
    "もらえなかった"; "もらえません"; "みれば" ].

Definition PASSIVE_MERGE_PATTERNS : list str := map u
  [
    "ている"; "ていた"; "ています"; "ていました"; "ていない"; "ていません" ].

Definition PASSIVE_STEM_ENDINGS : list str := map u
  [
    "され"; "られ"; "かれ"; "まれ"; "たれ"; "なれ"; "ばれ"; "がれ"; "ぜれ" ].

Definition SURU_CONTINUATION_PATTERNS : list str := map u
  [
    "しています"; "していた"; "していて"; "していない"; "していません";
    "しておいた"; "しておく"; "しておきます"; "しておいて"; "し続けている";
    "し続けて"; "し続ける"; "し続けた"; "し始める"; "し始めた"; "し始めて";
    "してもいい"; "してもいいですか"; "してもいいです" ].

Definition MULTI_TOKEN_MERGES : list (list str * str) :=
  [ (map u ["くだ"; "さい"], u "ください");
    (map u ["とい"; "って"], u "といって");
    (map u ["から"; "といって"], u "からといって");
    (map u ["わけ"; "には"; "いかない"], u "わけにはいかない");
    (map u ["分"; "から"; "なく"; "なる"], u "分からなくなる");
    (map u ["分"; "から"; "なくなる"], u "分からなくなる");
    (map u ["かも"; "しれ"; "ない"], u "かもしれない");
    (map u ["かも"; "しれない"], u "かもしれない");
    (map u ["なら"; "ない"], u "ならない");
    (map u ["恐れ"; "入ります"; "が"], u "恐れ入りますが");
    (map u ["恐れ"; "入りますが"], u "恐れ入りますが");
    (map u ["くれ"; "ない"], u "くれない");
    (map u ["も"; "ら"; "えなかった"], u "もらえなかった");
    (map u ["期待"; "され"; "ている"], u "期待されている");
    (map u ["され"; "ている"], u "されている");
    (map u ["み"; "せる"], u "みせる");
    (map u ["待って"; "ください"], u "待ってください");
    (map u ["電話"; "して"; "も"; "いい"], u "電話してもいい") ].

Definition PUNCTUATION_SEPARATORS : list str := map u
  [
    "、"; "。"; "！"; "？"; "，"; "．"; "…"; "・" ].

Record Segment : Type := mkSegment {
  seg_surface : str;
  seg_start : nat;
  seg_end : nat;
  entry : WordEntry;
  score : Q
}.

Record Token : Type := mkToken {
  surface : str;
  reading : str;
  pos : string;
  base_form : str;
  base_form_id : Z;
  start : nat;
  end_ : nat
}.

(** [sorted(l, key=key)]: a stable sort, ascending in the key. *)
Fixpoint insert_by_key {A : Type} (key : A -> Q) (x : A) (l : list A) : list A :=
  match l with
  | [] => [x]
  | y :: r => if Qle_bool (key x) (key y) then x :: y :: r
              else y :: insert_by_key key x r
  end.

Definition sorted {A : Type} (key : A -> Q) (l : list A) : list A :=
  fold_right (insert_by_key key) [] l.

Definition string_in (s : string) (l : list string) : bool := existsb (String.eqb s) l.

Fixpoint coeffs_get (d : list (string * list Z)) (k : string) (default : list Z) : list Z :=
  match d with
  | [] => default
  | (k', v) :: r => if String.eqb k' k then v else coeffs_get r k default
  end.

Definition get_length_coeff (mora_len : nat) (coeff_type : string) : Z :=
  let coeffs := coeffs_get LENGTH_COEFF_SEQUENCES coeff_type LENGTH_COEFFS in
  if mora_len <? length coeffs then nth mora_len coeffs 0%Z
  else (Z.of_nat mora_len * Z.of_nat mora_len * 3)%Z.

(** ** tokenizer.py: scoring, lattice and path selection *)

Section Core.

Variable chars : Characters.
Variable lex : Lexicon.

(** [unicodedata.normalize('NFC', text)] of the Python library. *)
Variable normalize_NFC : str -> str.

(** Properties of [Segment]. *)
Definition seg_reading (s : Segment) : str :=
  if is_kana chars (seg_surface s) then as_hiragana chars (seg_surface s)
  else seg_surface s.

Definition seg_pos (s : Segment) : string := get_pos_name (pos_id (entry s)).

Definition seg_base_form (s : Segment) : str :=
  if is_root (entry s) then seg_surface s else seg_surface s.

Definition seg_base_form_id (s : Segment) : Z := entry_base_form_id (entry s).

(** [calculate_segment_score], in the order of the source.  The local
    variables [base_score], [m_len], [coeff_type] and [length_score] are
    definitions of their own. *)
Definition score_base (surface : str) (e : WordEntry) : Q :=
  let base_score := (5 # 1)%Q in
  let base_score := if has_kanji chars surface then (base_score + (5 # 1))%Q else base_score in
  let base_score :=
    if (cost e <=? 10)%Z then (base_score + (15 # 1))%Q
    else if (cost e <=? 30)%Z then (base_score + (10 # 1))%Q
    else if (cost e <=? 50)%Z then (base_score + (5 # 1))%Q
    else (base_score + (2 # 1))%Q in
  let base_score :=
    if (cost e <? 20)%Z then (base_score + (8 # 1))%Q
    else if (cost e <? 40)%Z then (base_score + (4 # 1))%Q
    else base_score in
  let base_score :=
    if Z_in (pos_id e) PARTICLE_POS_IDS then (base_score + (3 # 1))%Q else base_score in
  let base_score :=
    if Z_in (pos_id e) PRONOUN_POS_IDS then (base_score + (5 # 1))%Q else base_score in
  base_score.

Definition score_m_len (surface : str) : nat :=
  match mora_length chars surface with
  | Some m => m
  | None => length surface
  end.

Definition score_coeff_type (surface : str) (e : WordEntry) : string :=
  if has_kanji chars surface || is_katakana chars surface then "strong"
  else if is_hiragana chars surface then
    if Z_in (pos_id e) PARTICLE_POS_IDS || (0 <? conj_type e)%Z then "tail" else "weak"
  else "strong".

(** The value of [length_score] when the special cases are reached. *)
Definition score_length_score (surface : str) (e : WordEntry) : Q :=
  let length_mult := get_length_coeff (score_m_len surface) (score_coeff_type surface e) in
  let length_score := (score_base surface e * (1 + inject_Z length_mult * (1 # 10)))%Q in
  let length_score :=
    if (0 <? conj_type e)%Z then
      let length_score := (length_score + (15 # 1))%Q in
      if (conj_type e =? 4)%Z && endswith surface (u "ば")
      then (length_score + (40 # 1))%Q else length_score
    else length_score in
  let length_score :=
    if (cost e =? 5)%Z && (3 <=? length surface)
    then (length_score + (25 # 1))%Q else length_score in
  let length_score :=
    if str_in surface VALID_COMPOUND_WORDS then (length_score + (40 # 1))%Q else length_score in
  let split_adj := calculate_split_score_adjustment surface (seq e) in
  (length_score + inject_Z split_adj)%Q.

Definition calculate_segment_score (surface : str) (e : WordEntry) : Q :=
  let length_score := score_length_score surface e in
  if Z_in (pos_id e) PARTICLE_POS_IDS then
    let particle_score := ((15 # 1) - inject_Z (cost e) * (1 # 10))%Q in
    if 1 <? length surface
    then (particle_score + inject_Z (Z.of_nat (length surface * length surface * 5)))%Q
    else particle_score
  else if (length surface =? 1) && str_in surface SINGLE_CHAR_PARTICLES then
    ((12 # 1) - inject_Z (cost e) * (1 # 10))%Q
  else
    let length_score :=
      if (length surface =? 1) && negb (Z_in (pos_id e) PARTICLE_POS_IDS)
      then (length_score - (30 # 1))%Q else length_score in
    let length_score :=
      if (2 <? length surface) && negb (str_in surface VALID_COMPOUND_WORDS) then
        let last_char := skipn (length surface - 1) surface in
        if str_in last_char SINGLE_CHAR_PARTICLES then
          let base_word := drop_last 1 surface in
          if contains lex base_word then (length_score - (30 # 1))%Q else length_score
        else length_score
      else length_score in
    length_score.

(** [find_sticky_positions]: [i] is the index of the first character of
    [rest] in the text. *)
Fixpoint sticky_from (i text_len : nat) (rest : str) : list nat :=
  match rest with
  | [] => []
  | c :: rest' =>
      let char_class := get_char_class chars c in
      (if string_in char_class MODIFIER_CLASSES then [i] else []) ++
      (if String.eqb char_class "sokuon" && (i <? text_len - 1) then [i + 1] else []) ++
      sticky_from (S i) text_len rest'
  end.

Definition find_sticky_positions (text : str) : list nat :=
  sticky_from 0 (length text) text.

(** The lattice: the dict from spans to segments, in insertion order. *)
Definition span := (nat * nat)%type.
Definition matches_t := list (span * list Segment).

Definition span_eqb (a b : span) : bool :=
  (fst a =? fst b) && (snd a =? snd b).

(** [if key not in matches: matches[key] = []] followed by
    [matches[key].append(seg)]. *)
Fixpoint matches_append (key : span) (seg : Segment) (matches : matches_t) : matches_t :=
  match matches with
  | [] => [(key, [seg])]
  | (k, segs) :: r =>
      if span_eqb k key then (k, segs ++ [seg]) :: r
      else (k, segs) :: matches_append key seg r
  end.

Definition add_entries (text : str) (st en : nat) (matches : matches_t) : matches_t :=
  let substring := slice text st en in
  fold_left
    (fun matches e =>
       matches_append (st, en)
         (mkSegment substring st en e (calculate_segment_score substring e)) matches)
    (lookup lex substring) matches.

(** The inner loop over [end]: [continue] on a sticky end, [break] on a
    slice that is no prefix of a key. *)
Fixpoint grow (text : str) (sticky : list nat) (st : nat) (ends : list nat)
  (matches : matches_t) : matches_t :=
  match ends with
  | [] => matches
  | en :: rest =>
      if nat_in en sticky then grow text sticky st rest matches
      else if negb (has_prefix lex (slice text st en)) then matches
      else grow text sticky st rest (add_entries text st en matches)
  end.

(** [range(a, b)]. *)
Definition range (a b : nat) : list nat := List.seq a (b - a).

Definition find_all_matches (text : str) : matches_t :=
  let sticky := find_sticky_positions text in
  let text_len := length text in
  fold_left
    (fun matches st =>
       if nat_in st sticky then matches
       else grow text sticky st
              (range (st + 1) (Nat.min (st + MAX_WORD_LENGTH + 1) (text_len + 1)))
              matches)
    (range 0 text_len) [].

(** The table of the dynamic program: position to candidate entries
    [(score, prev_end, segment)]. *)
Definition dp_entry := (Q * option nat * option Segment)%type.
Definition dp_t := list (nat * list dp_entry).

Definition entry_score (e : dp_entry) : Q := fst (fst e).

Fixpoint dp_get (dp : dp_t) (p : nat) : option (list dp_entry) :=
  match dp with
  | [] => None
  | (k, v) :: r => if k =? p then Some v else dp_get r p
  end.

Definition dp_mem (dp : dp_t) (p : nat) : bool :=
  match dp_get dp p with Some _ => true | None => false end.

Definition dp_get_or_nil (dp : dp_t) (p : nat) : list dp_entry :=
  match dp_get dp p with Some v => v | None => [] end.

Fixpoint dp_set (dp : dp_t) (p : nat) (v : list dp_entry) : dp_t :=
  match dp with
  | [] => [(p, v)]
  | (k, v') :: r => if k =? p then (k, v) :: r else (k, v') :: dp_set r p v
  end.

(** [if p not in dp: dp[p] = []] followed by [dp[p].append(e)]. *)
Definition dp_append (dp : dp_t) (p : nat) (e : dp_entry) : dp_t :=
  dp_set dp p (dp_get_or_nil dp p ++ [e]).

(** [for prev_pos in range(p - 1, -1, -1): if prev_pos in dp: ... break]. *)
Fixpoint nearest_reachable (dp : dp_t) (p : nat) : option nat :=
  match p with
  | O => None
  | S q => if dp_mem dp q then Some q else nearest_reachable dp q
  end.

Definition add_gap (dp : dp_t) (p : nat) : dp_t :=
  match nearest_reachable dp p with
  | None => dp
  | Some prev_pos =>
      fold_left
        (fun dp e =>
           let gap_penalty := (UNKNOWN_CHAR_PENALTY * inject_Z (Z.of_nat (p - prev_pos)))%Q in
           let new_score := (entry_score e + gap_penalty)%Q in
           dp_append dp p (new_score, Some prev_pos, None))
        (dp_get_or_nil dp prev_pos) dp
  end.

(** [max(segments, key=lambda s: s.score)]: the first segment of maximal
    score; [max] of an empty list raises. *)
Fixpoint max_from (best : Segment) (l : list Segment) : Segment :=
  match l with
  | [] => best
  | s :: r => if Qle_bool (score s) (score best) then max_from best r else max_from s r
  end.

Definition max_by_score (segments : list Segment) : py Segment :=
  match segments with
  | [] => Raise (ValueError "max() arg is an empty sequence")
  | s :: r => Ok (max_from s r)
  end.

(** One item of [matches.items()] at position [p]. *)
Definition relax_span (limit p : nat) (dp : dp_t) (item : span * list Segment) : py dp_t :=
  let '((st, en), segments) := item in
  if negb (st =? p) then Ok dp
  else
    match max_by_score segments with
    | Raise e => Raise e
    | Ok best_seg =>
        Ok (fold_left
              (fun dp e =>
                 let new_score := (entry_score e + score best_seg)%Q in
                 let l := dp_get_or_nil dp en ++ [(new_score, Some p, Some best_seg)] in
                 dp_set dp en (firstn (limit * 2) (sorted (fun x => (- entry_score x)%Q) l)))
              (dp_get_or_nil dp p) dp)
    end.

Fixpoint relax_all (limit p : nat) (items : matches_t) (dp : dp_t) : py dp_t :=
  match items with
  | [] => Ok dp
  | item :: r =>
      match relax_span limit p dp item with
      | Raise e => Raise e
      | Ok dp' => relax_all limit p r dp'
      end
  end.

(** The loop [for pos in range(text_length + 1)]. *)
Fixpoint forward (limit : nat) (allow_gaps : bool) (matches : matches_t)
  (positions : list nat) (dp : dp_t) : py dp_t :=
  match positions with
  | [] => Ok dp
  | p :: r =>
      let dp := if negb (dp_mem dp p) && allow_gaps then add_gap dp p else dp in
      if negb (dp_mem dp p) then forward limit allow_gaps matches r dp
      else
        match relax_all limit p matches dp with
        | Raise e => Raise e
        | Ok dp' => forward limit allow_gaps matches r dp'
        end
  end.

(** The [while True] loop that reconstructs one path; every step moves to
    a smaller position, so [fuel] bounds the number of steps. *)
Fixpoint backtrack (fuel : nat) (dp : dp_t) (current_pos : nat) (current_entry : dp_entry)
  (path : list Segment) (gaps : list span) : list Segment * list span :=
  match fuel with
  | O => (path, gaps)
  | S fuel' =>
      let '(_, prev, sg) := current_entry in
      let '(path, gaps) :=
        match sg with
        | Some s => (path ++ [s], gaps)
        | None =>
            match prev with
            | Some pr => if pr <? current_pos then (path, gaps ++ [(pr, current_pos)])
                         else (path, gaps)
            | None => (path, gaps)
            end
        end in
      match prev with
      | None => (path, gaps)
      | Some pr =>
          if pr =? 0 then (path, gaps)
          else
            match dp_get_or_nil dp pr with
            | [] => (path, gaps)
            | e :: _ => backtrack fuel' dp pr e path gaps
            end
      end
  end.

Definition path_result := (list Segment * Q * list span)%type.

Definition reconstruct (dp : dp_t) (text_length : nat) (e : dp_entry) : list path_result :=
  let '(path, gaps) := backtrack (S text_length) dp text_length e [] [] in
  let path := rev path in
  let gaps := rev gaps in
  match path, gaps with
  | [], [] => []
  | _, _ => [(path, entry_score e, gaps)]
  end.

Definition find_best_path (matches : matches_t) (text_length limit : nat)
  (allow_gaps : bool) : py (list (list Segment * Q)) :=
  match matches with
  | [] => Ok []
  | _ =>
      let dp : dp_t := [(0, [((0 # 1)%Q, None, None)])] in
      match forward limit allow_gaps matches (range 0 (text_length + 1)) dp with
      | Raise e => Raise e
      | Ok dp =>
          let dp := if negb (dp_mem dp text_length) && allow_gaps
                    then add_gap dp text_length else dp in
          if negb (dp_mem dp text_length) then Ok []
          else
            let results := flat_map (reconstruct dp text_length) (dp_get_or_nil dp text_length) in
            let results := sorted (fun r : path_result => (- snd (fst r))%Q) results in
            Ok (map (fun r : path_result => (fst (fst r), snd (fst r))) (firstn limit results))
      end
  end.

(** ** tokenizer.py: merge passes *)

(** The token built by each of the three merge patterns of
    [merge_compound_verbs]. *)
Definition merge_pair (current next_token : Token) : Token :=
  {| surface := surface current ++ surface next_token;
     reading := reading current ++ reading next_token;
     pos := pos current;
     base_form := base_form current;
     base_form_id := base_form_id current;
     start := start current;
     end_ := end_ next_token |}.

(** Pattern 1: te-form followed by an auxiliary. *)
Definition te_form_merge (current next_token : Token) : bool :=
  endswith_any (surface current) [u "て"; u "で"] &&
  str_in (surface next_token) TE_FORM_MERGE_PATTERNS.

(** Pattern 2: a suru continuation, whatever stands before it. *)
Definition suru_merge (current next_token : Token) : bool :=
  str_in (surface next_token) SURU_CONTINUATION_PATTERNS.

(** Pattern 3: passive or potential stem followed by [ている]. *)
Definition passive_merge (current next_token : Token) : bool :=
  endswith_any (surface current) PASSIVE_STEM_ENDINGS &&
  str_in (surface next_token) PASSIVE_MERGE_PATTERNS.

Definition compound_verb_pair (current next_token : Token) : bool :=
  if te_form_merge current next_token then true
  else if suru_merge current next_token then true
  else passive_merge current next_token.

(** The [while i < len(tokens)] loop, on the tokens from index [i] on. *)
Fixpoint merge_compound_verbs_loop (tokens : list Token) : list Token :=
  match tokens with
  | [] => []
  | current :: rest =>
      match rest with
      | next_token :: rest' =>
          if compound_verb_pair current next_token
          then merge_pair current next_token :: merge_compound_verbs_loop rest'
          else current :: merge_compound_verbs_loop rest
      | [] => [current]
      end
  end.

Definition merge_compound_verbs (tokens : list Token) : list Token :=
  if length tokens <? 2 then tokens else merge_compound_verbs_loop tokens.

(** [sorted(MULTI_TOKEN_MERGES, key=lambda x: -len(x[0]))]. *)
Definition sorted_patterns : list (list str * str) :=
  sorted (fun x : list str * str => (- inject_Z (Z.of_nat (length (fst x))))%Q)
         MULTI_TOKEN_MERGES.

(** The first pattern that matches the surfaces at the head of [tokens]. *)
Fixpoint find_pattern {R : Type} (patterns : list (list str * R)) (tokens : list Token)
  : option (list str * R) :=
  match patterns with
  | [] => None
  | (pattern_tokens, r) :: rest =>
      let pattern_len := length pattern_tokens in
      if (pattern_len <=? length tokens) &&
         strs_eqb (map surface (firstn pattern_len tokens)) pattern_tokens
      then Some (pattern_tokens, r)
      else find_pattern rest tokens
  end.

Definition multi_merge_token (first_token : Token) (group : list Token) (merged_text : str)
  : Token :=
  {| surface := merged_text;
     reading := join (map reading group);
     pos := pos first_token;
     base_form := merged_text;
     base_form_id := base_form_id first_token;
     start := start first_token;
     end_ := end_ (last group first_token) |}.

(** The loop of [apply_multi_token_merges] on the tokens from index [i]
    on; a match moves [i] by the length of the pattern, so the number of
    remaining tokens bounds the number of steps. *)
Fixpoint multi_merge_loop (fuel : nat) (tokens : list Token) : list Token :=
  match fuel with
  | O => []
  | S fuel' =>
      match tokens with
      | [] => []
      | first_token :: rest =>
          match find_pattern sorted_patterns tokens with
          | Some (pattern_tokens, merged_text) =>
              let pattern_len := length pattern_tokens in
              multi_merge_token first_token (firstn pattern_len tokens) merged_text
              :: multi_merge_loop fuel' (skipn pattern_len tokens)
          | None => first_token :: multi_merge_loop fuel' rest
          end
      end
  end.

Definition apply_multi_token_merges (tokens : list Token) : list Token :=
  if length tokens <? 2 then tokens else multi_merge_loop (length tokens) tokens.

(** [prev_len = -1; while len(tokens) != prev_len: ...]: a pass is
    repeated until the number of tokens stops changing. *)
Fixpoint until_stable (pass : list Token -> list Token) (fuel : nat) (prev_len : Z)
  (tokens : list Token) : list Token :=
  match fuel with
  | O => tokens
  | S fuel' =>
      if (Z.of_nat (length tokens) =? prev_len)%Z then tokens
      else until_stable pass fuel' (Z.of_nat (length tokens)) (pass tokens)
  end.

Definition repeat_pass (pass : list Token -> list Token) (tokens : list Token) : list Token :=
  until_stable pass (length tokens + 2) (-1)%Z tokens.

(** ** suffix_splitting.py *)

Definition SPLIT_PARTICLES : list str := map u
  [
    "を"; "に"; "へ" ].

Definition NO_SPLIT_COMPOUNDS : list str := map u
  [
    "には"; "では"; "とは"; "にも"; "でも"; "ても"; "まで"; "から"; "より";
    "のに"; "ので"; "のか"; "のを"; "ための"; "ために"; "からには";
    "ではない"; "について"; "に対して"; "にとって"; "において"; "における";
    "として"; "とともに"; "によって"; "により"; "による"; "すぐに"; "ついに";
    "ほかに"; "ひさしぶりに"; "久しぶりに"; "げんに"; "現に"; "まれに";
    "稀に"; "たまに"; "ほんとうに"; "本当に"; "たしかに"; "確かに";
    "いちおうに"; "一応に"; "じっさいに"; "実際に"; "べつに"; "別に";
    "とくに"; "特に"; "たんに"; "単に"; "じゅんに"; "順に"; "しだいに";
    "次第に"; "てきに"; "的に"; "ていねいに"; "丁寧に"; "とくべつに";
    "特別に"; "しずかに"; "静かに"; "げんきに"; "元気に"; "ぜったいに";
    "絶対に"; "かりに"; "仮に"; "一緒に"; "いっしょに"; "そんなに";
    "こんなに"; "あんなに"; "どんなに"; "ように"; "ような"; "何で"; "何と";
    "何か"; "誰か"; "どこへ"; "なにか"; "だれか"; "どうに"; "なんか";
    "なんで"; "なんと"; "我が"; "わが"; "てか"; "としても"; "だけど";
    "だよね"; "だから"; "だって" ].

Definition NO_SPLIT_DA_WORDS : list str := map u
  [
    "そうだ"; "ほんとうだ"; "本当だ"; "だいじょうぶだ"; "大丈夫だ"; "はだ";
    "肌" ].

Definition N_SPLIT_BASE_ENDINGS : list str := map u
  [
    "い"; "る"; "た"; "て"; "だ" ].

Definition NO_SPLIT_N_WORDS : list str := map u
  [
    "さん"; "くん"; "ちゃん"; "はん"; "みんな"; "ぜんぶ"; "全部"; "ほんと";
    "ほんとう"; "本当"; "うん"; "ふん"; "へん"; "変"; "ぶん"; "分"; "にん";
    "人"; "じん"; "えん"; "円"; "けん"; "件"; "せん"; "千"; "てん"; "点";
    "ねん"; "年"; "べん"; "めん"; "面"; "げん"; "限"; "なん"; "何"; "こん";
    "そん"; "あん"; "どん" ].

Definition MERGED_PARTICLE_COMPOUNDS : list str := map u
  [
    "につき"; "にて"; "にも"; "には"; "にと"; "にの"; "にか"; "にな"; "にさ";
    "への"; "とか"; "とも"; "とを"; "とが"; "をも"; "もの"; "での"; "でも";
    "から"; "まで"; "より"; "ほど"; "など"; "だけ"; "しか"; "ばかり";
    "くらい"; "ぐらい"; "ように" ].

Definition PREFIX_SPLIT_PATTERNS : list str := map u
  [
    "につきまして"; "につき"; "となって"; "になった"; "になる"; "になります";
    "になりました"; "であった"; "であろう"; "である"; "ではない"; "ではなく";
    "んです"; "んだ"; "んだけど"; "んだよね" ].

Definition COMPOUND_VERB_SPLITS : list (str * list str) :=
  [ (u "お願い申し上げます", map u ["お願い"; "申し上げます"]);
    (u "教えてあげた", map u ["教えて"; "あげた"]);
    (u "教えてあげる", map u ["教えて"; "あげる"]);
    (u "と言われている", map u ["と"; "言われている"]) ].

Definition INTERNAL_SPLIT_PARTICLES : list str := [].

Definition NO_INTERNAL_SPLIT_COMPOUNDS : list str := map u
  [
    "無理をしなければ"; "無理をする"; "無理をして"; "方針を固めた";
    "電源を切って" ].

Definition MERGE_PATTERNS : list (list str * str) :=
  [ (map u ["では"; "ない"], u "ではない");
    (map u ["では"; "なく"], u "ではなく");
    (map u ["お勧め"; "します"], u "お勧めします");
    (map u ["だ"; "けど"], u "だけど");
    (map u ["だ"; "よね"], u "だよね");
    (map u ["知って"; "いたら"], u "知っていたら");
    (map u ["起きて"; "いたら"], u "起きていたら");
    (map u ["に"; "は"], u "には");
    (map u ["で"; "は"], u "では");
    (map u ["と"; "は"], u "とは");
    (map u ["食べて"; "もらえなかった"], u "食べてもらえなかった");
    (map u ["食べて"; "もらった"], u "食べてもらった");
    (map u ["食べて"; "もらう"], u "食べてもらう");
    (map u ["食べて"; "もらえる"], u "食べてもらえる") ].

Definition TE_FORM_EXTENSIONS : list str := map u
  [
    "いれば"; "いたら"; "おります"; "おりました"; "おいてください" ].

(** The items of the dict, in insertion order; a key written twice in
    the source keeps its first position and its last value. *)
Definition TOKEN_SUBSTITUTIONS : list (list str * list str) :=
  [ (map u ["今日は"], map u ["今日"; "は"]);
    (map u ["のせ"; "いだ"], map u ["の"; "せい"; "だ"]);
    (map u ["彼の"], map u ["彼"; "の"]);
    (map u ["彼女の"], map u ["彼女"; "の"]);
    (map u ["山の頂"; "上"], map u ["山"; "の"; "頂上"]);
    (map u ["あげ"; "たい"], map u ["あげたい"]);
    (map u ["もらえ"; "なかった"], map u ["もらえなかった"]);
    (map u ["そうかもしれない"], map u ["そう"; "かもしれない"]);
    (map u ["顔"; "をしていた"], map u ["顔"; "を"; "していた"]);
    (map u ["薄"; "暗"; "く"], map u ["薄暗く"]);
    (map u ["薄"; "暗く"], map u ["薄暗く"]);
    (map u ["薄"; "暗い"], map u ["薄暗い"]);
    (map u ["考え"; "てん"], map u ["考えて"; "ん"]);
    (map u ["言"; "わ"; "ずに"], map u ["言わず"; "に"]);
    (map u ["体を壊さなかった"], map u ["体"; "を"; "壊さなかった"]);
    (map u ["できるようになった"], map u ["できる"; "ようになった"]);
    (map u ["出"; "られなかった"], map u ["出られなかった"]);
    (map u ["すればするほど"], map u ["すれば"; "する"; "ほど"]);
    (map u ["食べ"; "さ"; "せられた"], map u ["食べさせられた"]);
    (map u ["のか"; "な"], map u ["の"; "かな"]);
    (map u ["なんとかなる"], map u ["なんとか"; "なる"]);
    (map u ["考え"; "なければならない"], map u ["考えなければ"; "ならない"]);
    (map u ["判"; "断を下す"], map u ["判断"; "を"; "下す"]);
    (map u ["よう"; "に"], map u ["ように"]);
    (map u ["心配をかけさせて"; "しまって"], map u ["心配をかけさせてしまって"]);
    (map u ["宿"; "駅に止まります"], map u ["宿駅"; "に"; "止まります"]);
    (map u ["盗"; "ま"; "れた"], map u ["盗まれた"]);
    (map u ["待"; "た"; "された"], map u ["待たされた"]);
    (map u ["最近"; "どうして"; "る"], map u ["最近どう"; "してる"]);
    (map u ["俺"; "たち"], map u ["俺たち"]);
    (map u ["守り"; "たい"], map u ["守りたい"]);
    (map u ["もの"; "が"; "ある"], map u ["ものがある"]);
    (map u ["強"; "く"; "なれる"], map u ["強くなれる"]);
    (map u ["諦めるな"], map u ["諦める"; "な"]);
    (map u ["して"; "ない"], map u ["してない"]);
    (map u ["サボ"; "っちゃった"], map u ["サボっちゃった"]);
    (map u ["怒"; "られた"], map u ["怒られた"]);
    (map u ["見せて"; "くれない"], map u ["見せてくれない"]);
    (map u ["忘れ"; "物した"], map u ["忘れ物"; "した"]);
    (map u ["回復アイテム"], map u ["回復"; "アイテム"]);
    (map u ["から"; "には"], map u ["からには"]);
    (map u ["約束"; "した"], map u ["約束した"]);
    (map u ["会え"; "たね"], map u ["会えた"; "ね"]);
    (map u ["さす"; "が"], map u ["さすが"]);
    (map u ["思った"; "とおり"], map u ["思った"; "と"; "おり"]);
    (map u ["となりました"], map u ["と"; "なりました"]);
    (map u ["となっている"], map u ["と"; "なっている"]);
    (map u ["十二"; "号"], map u ["十二号"]);
    (map u ["と"; "の"; "こと"], map u ["とのこと"]);
    (map u ["確認"; "されました"], map u ["確認されました"]);
    (map u ["議論"; "されている"], map u ["議論されている"]);
    (map u ["懸念"; "されている"], map u ["懸念されている"]);
    (map u ["再開"; "されました"], map u ["再開されました"]);
    (map u ["強化"; "されている"], map u ["強化されている"]);
    (map u ["実施"; "されている"], map u ["実施されている"]);
    (map u ["開始"; "されました"], map u ["開始されました"]);
    (map u ["施行"; "されました"], map u ["施行されました"]);
    (map u ["適用"; "される"], map u ["適用される"]);
    (map u ["検討"; "されている"], map u ["検討されている"]);
    (map u ["合意"; "された"], map u ["合意された"]);
    (map u ["期待"; "されている"], map u ["期待されている"]);
    (map u ["開始"; "された"], map u ["開始された"]);
    (map u ["後押し"; "している"], map u ["後押ししている"]);
    (map u ["難航"; "している"], map u ["難航している"]);
    (map u ["本格化"; "している"], map u ["本格化している"]);
    (map u ["重要"; "視されている"], map u ["重要視されている"]);
    (map u ["探索"; "する"], map u ["探索する"]);
    (map u ["攻略"; "しよう"], map u ["攻略しよう"]);
    (map u ["見た"; "い"], map u ["見たい"]);
    (map u ["それ"; "は"; "ない"], map u ["それはない"]);
    (map u ["言って"; "る"], map u ["言ってる"]);
    (map u ["いて"; "くれて"], map u ["いてくれて"]);
    (map u ["いて"; "くれた"], map u ["いてくれた"]);
    (map u ["分かって"; "くれない"], map u ["分かってくれない"]);
    (map u ["信じて"; "くれない"], map u ["信じてくれない"]);
    (map u ["許して"; "もらえます"], map u ["許してもらえます"]);
    (map u ["謝って"; "も"], map u ["謝っても"]);
    (map u ["もう"; "一度"], map u ["もう一度"]);
    (map u ["必要"; "な"; "の"], map u ["必要"; "なの"]);
    (map u ["距離を置きましょう"], map u ["距離"; "を"; "置きましょう"]);
    (map u ["十"; "二号"], map u ["十二号"]);
    (map u ["本"; "当の"], map u ["本当"; "の"]);
    (map u ["再生可能エネルギー"], map u ["再生可能"; "エネルギー"]);
    (map u ["プラスチックごみ"], map u ["プラスチック"; "ごみ"]);
    (map u ["提出"; "してください"], map u ["提出してください"]);
    (map u ["徹底"; "してください"], map u ["徹底してください"]);
    (map u ["連絡"; "してください"], map u ["連絡してください"]);
    (map u ["処方"; "します"], map u ["処方します"]);
    (map u ["請求"; "します"], map u ["請求します"]);
    (map u ["逮捕"; "します"], map u ["逮捕します"]);
    (map u ["行使"; "します"], map u ["行使します"]);
    (map u ["出所"; "しました"], map u ["出所しました"]);
    (map u ["検討"; "します"], map u ["検討します"]);
    (map u ["自首"; "する"], map u ["自首する"]);
    (map u ["反対"; "する"], map u ["反対する"]);
    (map u ["賛成"; "しよう"], map u ["賛成しよう"]);
    (map u ["サイン"; "して"], map u ["サインして"]);
    (map u ["更生"; "して"], map u ["更生して"]);
    (map u ["別れ"; "たくない"], map u ["別れたくない"]);
    (map u ["戻り"; "たい"], map u ["戻りたい"]);
    (map u ["辞めた"; "い"], map u ["辞めたい"]);
    (map u ["会社を辞めた"; "い"; "ん"; "です"], map u ["会社を辞めたい"; "ん"; "です"]);
    (map u ["謝罪"; "したい"], map u ["謝罪したい"]);
    (map u ["行き"; "たくない"], map u ["行きたくない"]);
    (map u ["キャンセル"; "したい"], map u ["キャンセルしたい"]);
    (map u ["後悔"; "して"; "も"], map u ["後悔しても"]);
    (map u ["説明"; "して"; "も"], map u ["説明しても"]);
    (map u ["頑張って"; "も"], map u ["頑張っても"]);
    (map u ["失敗"; "して"; "も"], map u ["失敗しても"]);
    (map u ["あって"; "も"], map u ["あっても"]);
    (map u ["謝った"; "ところ"; "で"], map u ["謝った"; "ところで"]);
    (map u ["泣いた"; "ところ"; "で"], map u ["泣いた"; "ところで"]);
    (map u ["した"; "ところ"; "で"], map u ["した"; "ところで"]);
    (map u ["ことがあって"; "も"], map u ["ことがあっても"]);
    (map u ["超えてしまいました"], map u ["超えて"; "しまいました"]);
    (map u ["達"; "成しました"], map u ["達成しました"]);
    (map u ["早"; "急"], map u ["早急"]);
    (map u ["めどが立ちました"], map u ["めど"; "が"; "立ちました"]);
    (map u ["帰らせて"; "もらいます"], map u ["帰らせてもらいます"]);
    (map u ["はき"; "ちん"; "と"], map u ["は"; "きちんと"]);
    (map u ["左遷"; "されました"], map u ["左遷されました"]);
    (map u ["どう"; "ですか"], map u ["どうですか"]);
    (map u ["暑く"; "なりました"; "ね"], map u ["暑くなりましたね"]);
    (map u ["寒く"; "なりました"; "ね"], map u ["寒くなりましたね"]);
    (map u ["遅"; "く"; "なって"], map u ["遅くなって"]);
    (map u ["かかり"; "そうです"], map u ["かかりそうです"]);
    (map u ["悪く"; "なりました"], map u ["悪くなりました"]);
    (map u ["いり"; "ません"], map u ["いりません"]);
    (map u ["お"; "持ち"; "ですか"], map u ["お持ちですか"]);
    (map u ["譲り"; "ましょうか"], map u ["譲りましょうか"]);
    (map u ["置いて"; "も"; "いいですか"], map u ["置いても"; "いいですか"]);
    (map u ["開けて"; "も"; "いいですか"], map u ["開けても"; "いいですか"]);
    (map u ["撮って"; "もらえますか"], map u ["撮ってもらえますか"]);
    (map u ["して"; "も"; "いいですか"], map u ["しても"; "いいですか"]);
    (map u ["おかわり"; "できますか"], map u ["おかわりできますか"]);
    (map u ["別々"; "に"; "払います"], map u ["別々に"; "払います"]);
    (map u ["お邪魔"; "しました"], map u ["お邪魔しました"]);
    (map u ["また"; "お"; "会いましょう"], map u ["また"; "お会いしましょう"]);
    (map u ["ご"; "対応"; "いただけますか"], map u ["ご"; "対応いただけますか"]);
    (map u ["ご"; "案内"; "いたします"], map u ["ご"; "案内いたします"]);
    (map u ["ご"; "連絡"; "いたします"], map u ["ご"; "連絡いたします"]);
    (map u ["ご"; "提案"; "させていただきます"], map u ["ご"; "提案させていただきます"]);
    (map u ["ご"; "決裁"; "を"; "いただきたく"; "存じます"], map u ["ご"; "決裁"; "を"; "いただきたく存じます"]);
    (map u ["お"; "受け取り"; "ください"], map u ["お"; "受け取りください"]);
    (map u ["ご"; "挨拶"; "が"; "遅れまして"], map u ["ご挨拶"; "が"; "遅れまして"]);
    (map u ["ご"; "連絡"; "失礼"; "いたします"], map u ["ご連絡"; "失礼いたします"]);
    (map u ["お"; "時間"; "を"; "頂戴"; "できますでしょうか"], map u ["お時間"; "を"; "頂戴できます"; "でしょうか"]);
    (map u ["ご"; "多用"; "の"; "ところ"; "恐縮"; "です"; "が"], map u ["ご"; "多用"; "の"; "ところ"; "恐縮"; "ですが"]);
    (map u ["お"; "付き合い"], map u ["お"; "付き合い"]);
    (map u ["ガチ"; "で"], map u ["ガチで"]);
    (map u ["おつ"; "か"; "れー"], map u ["お"; "つかれ"; "ー"]);
    (map u ["やば"; "すぎ"], map u ["やばすぎ"]);
    (map u ["何"; "それ"], map u ["何それ"]);
    (map u ["暑"; "すぎ"], map u ["暑すぎ"]);
    (map u ["寒"; "すぎ"], map u ["寒すぎ"]);
    (map u ["もう"; "無理"], map u ["もう無理"]);
    (map u ["か"; "わい"; "すぎて"], map u ["かわいすぎて"]);
    (map u ["よ"; "すぎ"], map u ["よすぎ"]);
    (map u ["いい"; "ね"], map u ["いいね"]);
    (map u ["分かって"; "もらえなかった"], map u ["分かってもらえなかった"]);
    (map u ["言って"; "くれれば"], map u ["言ってくれれば"]);
    (map u ["分"; "から"; "なくなる"], map u ["分からなくなる"]);
    (map u ["自分"; "で"], map u ["自分で"]);
    (map u ["に"; "して"; "も"], map u ["にしても"]);
    (map u ["言い訳"; "を"; "した"; "ところ"; "で"], map u ["言い訳"; "を"; "した"; "ところで"]);
    (map u ["許して"; "もらえない"], map u ["許してもらえない"]);
    (map u ["来"; "ないことには"], map u ["来ない"; "こと"; "には"]);
    (map u ["解決"; "しない"], map u ["解決しない"]);
    (map u ["やってみて"], map u ["やって"; "みて"]);
    (map u ["やってみなければ"], map u ["やって"; "みなければ"]);
    (map u ["大切"; "さ"], map u ["大切さ"]);
    (map u ["よ"; "さ"], map u ["よさ"]);
    (map u ["さえ"; "すれば"], map u ["さえすれば"]);
    (map u ["くれ"; "さえ"], map u ["くれ"; "さえ"]);
    (map u ["いて"; "くれ"], map u ["いてくれ"]);
    (map u ["ようにして"; "おこう"], map u ["ようにしておこう"]);
    (map u ["お金"; "が"; "ないことには"], map u ["お"; "金がない"; "こと"; "には"]);
    (map u ["いて"; "くれ"; "さえ"], map u ["いてくれ"; "さえ"]);
    (map u ["養育費"; "きちんと"], map u ["養育費"; "は"; "きちんと"]);
    (map u ["最近"; "どう"], map u ["最近どう"]);
    (map u ["暑"; "く"], map u ["暑く"]);
    (map u ["寒"; "く"], map u ["寒く"]);
    (map u ["お先に失礼します"], map u ["お先に"; "失礼します"]);
    (map u ["また"; "明日"], map u ["また明日"]);
    (map u ["電話"; "し"; "てもいいです"; "か"], map u ["電話してもいい"; "です"; "か"]);
    (map u ["遅く"; "なって"], map u ["遅くなって"]);
    (map u ["時間がかかり"; "そう"], map u ["時間がかかりそう"]);
    (map u ["都合"; "が"; "悪くなりました"], map u ["都合が悪く"; "なりました"]);
    (map u ["キャンセルしたい"; "のです"; "が"], map u ["キャンセルしたい"; "の"; "ですが"]);
    (map u ["おつり"; "はいりません"], map u ["お"; "つり"; "は"; "いりません"]);
    (map u ["袋"; "はいりません"], map u ["袋"; "は"; "いりません"]);
    (map u ["ポイントカード"], map u ["ポイント"; "カード"]);
    (map u ["席を譲りましょう"; "か"], map u ["席"; "を"; "譲りましょう"; "か"]);
    (map u ["置いて"; "も"; "いいです"; "か"], map u ["置いても"; "いいです"; "か"]);
    (map u ["開け"; "てもいいです"; "か"], map u ["開けても"; "いいです"; "か"]);
    (map u ["写真を撮って"; "もらえます"; "か"], map u ["写真を撮ってもらえます"; "か"]);
    (map u ["おかわり"; "できます"; "か"], map u ["おかわりできます"; "か"]);
    (map u ["また"; "お"; "会"; "いしましょう"], map u ["また"; "お"; "会い"; "しましょう"]);
    (map u ["いつ"; "も"], map u ["いつも"]);
    (map u ["別途"; "ご案内"; "いたします"], map u ["別途"; "ご"; "案内いたします"]);
    (map u ["改めて"; "ご連絡"; "いたします"], map u ["改めて"; "ご連絡いたします"]);
    (map u ["ご提案させていただきます"], map u ["ご"; "提案させていただきます"]);
    (map u ["いただき"; "たく"], map u ["いただきたく"]);
    (map u ["で"; "すがお"], map u ["ですが"; "お"]);
    (map u ["心ばかり"; "で"; "すがお"; "受け取り"; "ください"], map u ["心ばかり"; "ですが"; "お"; "受け取り"; "ください"]);
    (map u ["失礼"; "いたしました"], map u ["失礼いたしました"]);
    (map u ["失礼"; "いたします"], map u ["失礼いたします"]);
    (map u ["頂戴"; "できます"], map u ["頂戴できます"]);
    (map u ["ご多用のところ恐縮ですが"], map u ["ご"; "多用"; "の"; "ところ"; "恐縮"; "ですが"]);
    (map u ["お付き合い"], map u ["お"; "付き合い"]);
    (map u ["ないこと"; "には"], map u ["ないことには"]);
    (map u ["のです"; "が"], map u ["の"; "ですが"]);
    (map u ["提案"; "させていただきます"], map u ["提案させていただきます"]);
    (map u ["ご"; "多用"], map u ["ご"; "多用"]);
    (map u ["仕事"; "はし"], map u ["仕事"; "は"; "し"]);
    (map u ["下りない"; "こと"; "には"], map u ["下り"; "ないことには"]);
    (map u ["やば"; "いな"], map u ["やばい"; "な"]) ].

Definition SURU_COMPOUND_NOUNS : list str := map u
  [
    "変更"; "開始"; "終了"; "確認"; "入力"; "出力"; "設定"; "削除"; "旅行";
    "勉強"; "練習"; "運動"; "仕事"; "通勤"; "出勤"; "退勤"; "失敗"; "成功";
    "達成"; "完成"; "完了"; "決定"; "予定"; "計画"; "準備"; "対応"; "対策";
    "説明"; "報告"; "連絡"; "相談"; "質問"; "回答"; "解答"; "回復"; "修復";
    "修正"; "更新"; "変換"; "送信"; "受信"; "送付"; "受付"; "発表"; "発売";
    "発送"; "受注"; "発注"; "実現"; "実行"; "実施"; "導入"; "活用"; "利用";
    "使用"; "採用"; "認識"; "認証"; "証明"; "確定"; "承認"; "許可"; "拒否";
    "同意"; "遅刻"; "早退"; "欠席"; "出席"; "参加"; "参照"; "検索"; "検討";
    "心配"; "注意"; "観察"; "監視"; "調査"; "調整"; "整理"; "分析"; "結婚";
    "離婚"; "入学"; "卒業"; "入社"; "退社"; "就職"; "転職"; "引越";
    "引っ越し"; "移動"; "移転"; "輸入"; "輸出"; "運送"; "配送"; "食事";
    "掃除"; "洗濯"; "料理"; "散歩"; "買物"; "買い物"; "登録"; "解除"; "停止";
    "開放"; "解放"; "結合"; "分離"; "短縮"; "ダウンロード"; "探索"; "攻略";
    "クリア"; "レベルアップ"; "発生"; "下落"; "接近"; "否認"; "上昇"; "圧迫";
    "再開"; "改革"; "議論"; "増加"; "懸念"; "普及"; "強化"; "重視"; "拡大";
    "削減"; "推進"; "約束"; "施行"; "後押し"; "適用"; "見直し"; "難航";
    "合意"; "期待"; "本格化"; "重要視"; "管理" ].

Definition SURU_FORMS : list str := map u
  [
    "する"; "します"; "した"; "しました"; "して"; "しない"; "しません";
    "しよう"; "しましょう"; "すれば"; "したい"; "したくない"; "できる";
    "できます"; "できない"; "できません"; "したら"; "したとき"; "してる";
    "している"; "していた"; "していました"; "してから"; "してしまう";
    "してしまった"; "してしまいました"; "しましたら"; "すべき"; "していれば";
    "していたら"; "しておく"; "しておいて"; "しておいてください";
    "しております"; "しておりました"; "いたします"; "いたしました"; "いたす";
    "いたしまして"; "いたしません"; "させてください"; "させていただく";
    "させていただきます"; "させます"; "させる"; "される"; "されます";
    "された"; "されました"; "されている"; "されていた"; "されていました";
    "されていない"; "されていなかった" ].

Definition word_exists_in_dict (word : str) : bool :=
  0 <? length (lookup lex word).

Definition should_split_particle (word particle : str) : bool :=
  if length word <=? length particle then false
  else if str_in word NO_SPLIT_COMPOUNDS then false
  else if str_in word MERGED_PARTICLE_COMPOUNDS then false
  else
    let base := drop_last (length particle) word in
    if (length base =? 1) && negb (has_kanji chars base) then false
    else if negb (word_exists_in_dict base) then false
    else true.

Definition should_split_copula (word : str) : bool * str :=
  if str_eqb word (u "ようだ") then (true, u "だ")
  else if str_eqb word (u "はずだ") then (true, u "だ")
  else if str_eqb word (u "からだ") then (true, u "だ")
  else if endswith word (u "ようだ") && (3 <? length word) &&
          negb (str_in word NO_SPLIT_DA_WORDS)
  then (true, u "だ")
  else (false, []).

Definition should_split_conditional (word : str) : bool := false.

Definition should_split_explanatory_n (word : str) : bool :=
  if negb (endswith word (u "ん")) then false
  else if str_in word NO_SPLIT_N_WORDS then false
  else if length word <? 2 then false
  else
    let base := drop_last 1 word in
    if (0 <? length base) &&
       str_in (skipn (length base - 1) base) N_SPLIT_BASE_ENDINGS
    then word_exists_in_dict base
    else false.

Definition split_prefix (word prefix : str) : option (list str) :=
  if startswith word prefix && (1 <? length word) then
    let rest := skipn 1 word in
    if word_exists_in_dict rest then Some [prefix; rest] else None
  else None.

Definition should_split_prefix_particle (word : str) : option (list str) :=
  if negb (str_in word PREFIX_SPLIT_PATTERNS) then None
  else
    match split_prefix word (u "に") with Some r => Some r | None =>
    match split_prefix word (u "と") with Some r => Some r | None =>
    match split_prefix word (u "で") with Some r => Some r | None =>
    split_prefix word (u "ん")
    end end end.

(** The first [Some] of [f] over [l], as a loop that returns from its
    body. *)
Fixpoint first_some {A B : Type} (f : A -> option B) (l : list A) : option B :=
  match l with
  | [] => None
  | x :: r => match f x with Some y => Some y | None => first_some f r end
  end.

(** [split_internal_particles]; [split_token] is the function it calls
    back on both sides of an internal particle. *)
Definition split_internal_particles (split_token : str -> list str) (word : str)
  : option (list str) :=
  if length word <? 4 then None
  else if str_in word NO_INTERNAL_SPLIT_COMPOUNDS then None
  else
    first_some
      (fun particle =>
         first_some
           (fun i =>
              if str_eqb (slice word i (i + length particle)) particle then
                let before := slice word 0 i in
                let after := skipn (i + length particle) word in
                if (1 <=? length before) && (2 <=? length after) &&
                   word_exists_in_dict before && word_exists_in_dict after
                then Some (split_token before ++ [particle] ++ split_token after)
                else None
              else None)
           (range 1 (length word - 1)))
      INTERNAL_SPLIT_PARTICLES.

(** The first particle of [SPLIT_PARTICLES] that is split off. *)
Definition split_particle_of (remaining : str) : option str :=
  first_some
    (fun particle =>
       if endswith remaining particle && (length particle <? length remaining) &&
          should_split_particle remaining particle
       then Some particle else None)
    SPLIT_PARTICLES.

(** [split_token]: every recursive call is on a shorter string, so the
    length of the surface is enough fuel. *)
Fixpoint split_token_rec (fuel : nat) (surface : str) : list str :=
  match fuel with
  | O => [surface]
  | S fuel' =>
      if length surface <? 2 then [surface]
      else
        let remaining := surface in
        match word_get COMPOUND_VERB_SPLITS remaining with
        | Some parts => parts
        | None =>
        match should_split_prefix_particle remaining with
        | Some (p :: ps) => p :: ps
        | _ =>
        match split_internal_particles (split_token_rec fuel') remaining with
        | Some (p :: ps) => p :: ps
        | _ =>
        match split_particle_of remaining with
        | Some particle =>
            split_token_rec fuel' (drop_last (length particle) remaining) ++ [particle]
        | None =>
            let '(should, copula) := should_split_copula remaining in
            if should
            then split_token_rec fuel' (drop_last (length copula) remaining) ++ [copula]
            else if should_split_conditional remaining
            then split_token_rec fuel' (drop_last 1 remaining) ++ [u "ば"]
            else if should_split_explanatory_n remaining
            then split_token_rec fuel' (drop_last 1 remaining) ++ [u "ん"]
            else [remaining]
        end end end end
  end.

Definition split_token (surface : str) : list str :=
  split_token_rec (length surface) surface.

(** The token made for a part after a lexicon lookup.  [WordEntry] has no
    attribute [pos_name], so [hasattr(entry, 'pos_name')] is false and the
    POS is the default of the call site; [hasattr(entry, 'seq')] is
    true. *)
Definition looked_up_token (part : str) (reading_ : str) (default_pos : string)
  (start_pos end_pos : nat) : Token :=
  match lookup lex part with
  | e :: _ => mkToken part reading_ default_pos part (seq e) start_pos end_pos
  | [] => mkToken part reading_ default_pos part 0%Z start_pos end_pos
  end.

(** New tokens for the parts of a split or of a substitution, from
    [current_pos] on. *)
Fixpoint part_tokens (parts : list str) (current_pos : nat) : list Token :=
  match parts with
  | [] => []
  | part :: rest =>
      looked_up_token part part "unk" current_pos (current_pos + length part)
      :: part_tokens rest (current_pos + length part)
  end.

(** The first loop of [post_process_splits]. *)
Definition split_tokens (tokens : list Token) : list Token :=
  flat_map
    (fun token =>
       let parts := split_token (surface token) in
       if length parts =? 1 then [token]
       else part_tokens parts (start token))
    tokens.

(** The loop of [apply_token_substitutions] on the tokens from index [i]
    on. *)
Fixpoint substitution_loop (fuel : nat) (tokens : list Token) : list Token :=
  match fuel with
  | O => []
  | S fuel' =>
      match tokens with
      | [] => []
      | first_token :: rest =>
          match find_pattern TOKEN_SUBSTITUTIONS tokens with
          | Some (pattern, replacement) =>
              part_tokens replacement (start first_token)
              ++ substitution_loop fuel' (skipn (length pattern) tokens)
          | None => first_token :: substitution_loop fuel' rest
          end
      end
  end.

Definition apply_token_substitutions (tokens : list Token) : list Token :=
  if length tokens =? 0 then tokens else substitution_loop (length tokens) tokens.

(** The search for a continuative verb entry in [apply_merge_patterns]:
    the first entry with [conj_type = 13] and a POS name that starts with
    [v] gives [(base_seq, verb_pos)]. *)
Definition starts_with_v (name : string) : bool :=
  match name with
  | String c _ => Ascii.eqb c "v"%char
  | EmptyString => false
  end.

Definition seq_or_base (e : WordEntry) : Z :=
  if negb (base_seq e =? 0)%Z then base_seq e else seq e.

Definition verb_stem (entries : list WordEntry) : option (Z * string) :=
  first_some
    (fun e =>
       if (conj_type e =? 13)%Z && starts_with_v (get_pos_name (pos_id e))
       then Some (seq_or_base e, get_pos_name (pos_id e)) else None)
    entries.

(** The second search of the [たい] branch: the first entry with
    [conj_type = 13], whatever its POS. *)
Definition continuative_base (entries : list WordEntry) (default : Z) : Z :=
  match first_some (fun e => if (conj_type e =? 13)%Z then Some (seq_or_base e) else None)
          entries with
  | Some b => b
  | None => default
  end.

Definition tai_token (current next_token : Token) (suffix : str) (verb_pos : string)
  (base_id : Z) : Token :=
  {| surface := surface current ++ suffix;
     reading := reading current ++ suffix;
     pos := verb_pos;
     base_form := surface current ++ suffix;
     base_form_id := base_id;
     start := start current;
     end_ := end_ next_token |}.

(** The three [verb stem + たい / たかった / たくない] branches for the
    pair at the head. *)
Definition tai_merge (current next_token : Token) : option Token :=
  let entries := lookup lex (surface current) in
  let try_tai :=
    if str_eqb (surface next_token) (u "たい") then
      match verb_stem entries with
      | Some (bs, verb_pos) =>
          Some (tai_token current next_token (u "たい") verb_pos (continuative_base entries bs))
      | None => None
      end
    else None in
  let try_takatta :=
    if str_eqb (surface next_token) (u "たかった") then
      match verb_stem entries with
      | Some (bs, verb_pos) => Some (tai_token current next_token (u "たかった") verb_pos bs)
      | None => None
      end
    else None in
  let try_takunai :=
    if str_eqb (surface next_token) (u "たくない") then
      match verb_stem entries with
      | Some (bs, verb_pos) => Some (tai_token current next_token (u "たくない") verb_pos bs)
      | None => None
      end
    else None in
  match try_tai with
  | Some t => Some t
  | None => match try_takatta with Some t => Some t | None => try_takunai end
  end.

(** Noun of [SURU_COMPOUND_NOUNS] followed by a form of [する]. *)
Definition suru_compound_merge (current next_token : Token) : option Token :=
  if str_in (surface current) SURU_COMPOUND_NOUNS && str_in (surface next_token) SURU_FORMS
  then
    let merged_form := surface current ++ surface next_token in
    Some (looked_up_token merged_form merged_form "vs" (start current) (end_ next_token))
  else None.

(** Te-form of a suru compound followed by an extension. *)
Definition te_extension_merge (current next_token : Token) : option Token :=
  let current_surface := surface current in
  if endswith current_surface (u "て") && str_in (surface next_token) TE_FORM_EXTENSIONS
  then
    let is_suru_compound :=
      endswith current_surface (u "して") && (2 <? length current_surface) &&
      str_in (drop_last 2 current_surface) SURU_COMPOUND_NOUNS in
    if is_suru_compound then
      let merged_form := current_surface ++ surface next_token in
      Some (looked_up_token merged_form merged_form "v1" (start current) (end_ next_token))
    else None
  else None.

(** The pair merges tried, in order, when a next token exists. *)
Definition pair_merge (current next_token : Token) : option Token :=
  match tai_merge current next_token with
  | Some t => Some t
  | None =>
      match suru_compound_merge current next_token with
      | Some t => Some t
      | None => te_extension_merge current next_token
      end
  end.

(** The loop of [apply_merge_patterns] on the tokens from index [i] on. *)
Fixpoint merge_patterns_loop (fuel : nat) (tokens : list Token) : list Token :=
  match fuel with
  | O => []
  | S fuel' =>
      match tokens with
      | [] => []
      | current :: rest =>
          match match rest with
                | next_token :: _ => pair_merge current next_token
                | [] => None
                end with
          | Some t => t :: merge_patterns_loop fuel' (skipn 2 tokens)
          | None =>
              match find_pattern MERGE_PATTERNS tokens with
              | Some (pattern, merged_form) =>
                  looked_up_token merged_form merged_form "unk" (start current)
                    (end_ (last (firstn (length pattern) tokens) current))
                  :: merge_patterns_loop fuel' (skipn (length pattern) tokens)
              | None => current :: merge_patterns_loop fuel' rest
              end
          end
      end
  end.

Definition apply_merge_patterns (tokens : list Token) : list Token :=
  if length tokens <? 2 then tokens else merge_patterns_loop (length tokens) tokens.

Definition post_process_splits (tokens : list Token) : list Token :=
  let result := split_tokens tokens in
  let result := apply_token_substitutions result in
  repeat_pass apply_merge_patterns result.

(** ** tokenizer.py: public API *)

(** The loop of [tokenize_text] that cuts the text at punctuation
    separators; [i] is the index of the first character of [rest]. *)
Fixpoint segment_loop (text : str) (i current_start : nat) (rest : str)
  (segments : list (str * nat)) : list (str * nat) * nat :=
  match rest with
  | [] => (segments, current_start)
  | c :: rest' =>
      if str_in [c] PUNCTUATION_SEPARATORS then
        let segments :=
          if current_start <? i
          then segments ++ [(slice text current_start i, current_start)]
          else segments in
        segment_loop text (S i) (i + 1) rest' (segments ++ [([c], i)])
      else segment_loop text (S i) current_start rest' segments
  end.

Definition split_segments (text : str) : list (str * nat) :=
  let '(segments, current_start) := segment_loop text 0 0 text [] in
  if current_start <? length text
  then segments ++ [(skipn current_start text, current_start)]
  else segments.

Definition punctuation_token (seg_text : str) (seg_off : nat) : Token :=
  mkToken seg_text seg_text "punc" seg_text 0%Z seg_off (seg_off + 1).

Definition unknown_token (gap_text : str) (start_pos end_pos : nat) : Token :=
  mkToken gap_text
    (if is_kana chars gap_text then as_hiragana chars gap_text else gap_text)
    "unk" gap_text 0%Z start_pos end_pos.

Definition segment_token (sg : Segment) (seg_off : nat) : Token :=
  mkToken (seg_surface sg) (seg_reading sg) (seg_pos sg) (seg_base_form sg)
    (seg_base_form_id sg) (seg_off + seg_start sg) (seg_off + seg_end sg).

(** The loop over the best path, with the unknown tokens that fill the
    gaps before each segment; returns the tokens and [last_end]. *)
Fixpoint path_tokens (seg_text : str) (seg_off : nat) (path : list Segment)
  (last_end : nat) : list Token * nat :=
  match path with
  | [] => ([], last_end)
  | sg :: rest =>
      let gap :=
        if last_end <? seg_start sg
        then [unknown_token (slice seg_text last_end (seg_start sg))
                (seg_off + last_end) (seg_off + seg_start sg)]
        else [] in
      let '(toks, last_end') := path_tokens seg_text seg_off rest (seg_end sg) in
      (gap ++ segment_token sg seg_off :: toks, last_end')
  end.

(** The tokens of one run of the text, before the rewriter. *)
Definition segment_tokens (item : str * nat) : py (list Token) :=
  let '(seg_text, seg_off) := item in
  if str_in seg_text PUNCTUATION_SEPARATORS then
    Ok [punctuation_token seg_text seg_off]
  else
    let matches := find_all_matches seg_text in
    match find_best_path matches (length seg_text) 1 true with
    | Raise e => Raise e
    | Ok [] =>
        Ok [unknown_token seg_text seg_off (seg_off + length seg_text)]
    | Ok ((path, _) :: _) =>
        let '(toks, last_end) := path_tokens seg_text seg_off path 0 in
        if last_end <? length seg_text
        then Ok (toks ++ [unknown_token (skipn last_end seg_text)
                            (seg_off + last_end) (seg_off + length seg_text)])
        else Ok toks
    end.

Fixpoint all_segment_tokens (segments : list (str * nat)) (all_tokens : list Token)
  : py (list Token) :=
  match segments with
  | [] => Ok all_tokens
  | item :: rest =>
      match segment_tokens item with
      | Raise e => Raise e
      | Ok toks => all_segment_tokens rest (all_tokens ++ toks)
      end
  end.

(** The tokens handed to the rewriter: the path selector's cover of every
    run, with punctuation and unknown spans. *)
Definition selected_tokens (text : str) : py (list Token) :=
  all_segment_tokens (split_segments text) [].

(** The rewriter as [tokenize_text] runs it. *)
Definition rewrite_tokens (tokens : list Token) : list Token :=
  let tokens := repeat_pass merge_compound_verbs tokens in
  let tokens := repeat_pass apply_multi_token_merges tokens in
  post_process_splits tokens.

Definition tokenize_text (text : str) : py (list Token) :=
  match selected_tokens text with
  | Raise e => Raise e
  | Ok tokens => Ok (rewrite_tokens tokens)
  end.

Definition analyze_text (text : str) (limit : nat) : py (list (list Token * Q)) :=
  let matches := find_all_matches text in
  match find_best_path matches (length text) limit true with
  | Raise e => Raise e
  | Ok paths =>
      Ok (map (fun ps : list Segment * Q =>
                 (map (fun sg => segment_token sg 0) (fst ps), snd ps))
              paths)
  end.

(** ** __init__.py: the facade *)

(** The characters [str.strip()] removes: those for which
    [str.isspace()] holds. *)
Definition is_space (c : char) : bool :=
  (((9 <=? c) && (c <=? 13)) || ((28 <=? c) && (c <=? 32)) ||
   (c =? 133) || (c =? 160) || (c =? 5760) ||
   ((8192 <=? c) && (c <=? 8202)) || (c =? 8232) || (c =? 8233) ||
   (c =? 8239) || (c =? 8287) || (c =? 12288))%N.

Fixpoint lstrip (s : str) : str :=
  match s with
  | [] => []
  | c :: r => if is_space c then lstrip r else s
  end.

Definition strip (s : str) : str := rev (lstrip (rev (lstrip s))).

(** [not s] for a string. *)
Definition is_empty (s : str) : bool :=
  match s with [] => true | _ => false end.

Definition tokenize (text : str) : py (list Token) :=
  if is_empty text || is_empty (strip text)
  then Raise (ValueError "text must be non-empty and not whitespace-only")
  else
    let text := normalize_NFC text in
    tokenize_text text.

Definition analyze (text : str) (limit : Z) : py (list (list Token * Q)) :=
  if is_empty text || is_empty (strip text)
  then Raise (ValueError "text must be non-empty and not whitespace-only")
  else if (limit <? 1)%Z
  then Raise (ValueError "limit must be >= 1")
  else
    let text := normalize_NFC text in
    analyze_text text (Z.to_nat limit).

End Core.

(** * Vocabulary of the specification and concrete inputs *)

(** Text that is empty or consists of whitespace only. *)
Definition whitespace_only (text : str) : Prop :=
  Forall (fun c => is_space c = true) text.

(** A lexicon without keys, and text that is already in NFC. *)
Definition empty_lexicon : Lexicon := trie_lexicon [].
Definition already_NFC (text : str) : str := text.

(** No character outside [DIGIT_VALUES] counts as a digit; this is what
    Python answers for the kanji numerals. *)
Definition no_other_digits (c : char) : option (option Z) := None.

(** A lexicon with the noun [か] (records are
    [(seq, cost, pos_id, conj_type, base_seq)]). *)
Definition lexicon_ka : Lexicon :=
  trie_lexicon [(u "か", [(5, 10, 1, 0, 0)%Z])].

(** Entries: the noun [か], the particle [から] and the noun [木]. *)
Definition entry_ka : WordEntry := mkWordEntry (u "か") 5 10 1 0 0.
Definition entry_kara : WordEntry := mkWordEntry (u "から") 7 10 82 0 0.
Definition entry_ki : WordEntry := mkWordEntry (u "木") 8 10 1 0 0.

(** Every span of the lattice holds at least one segment. *)
Definition nonempty_spans (m : matches_t) : Prop :=
  Forall (fun kv : span * list Segment => snd kv <> []) m.

(** The components of the score, as the specification lists them. *)
Definition commonness (c : Z) : Q :=
  if (c <=? 10)%Z then 15 # 1
  else if (c <=? 30)%Z then 10 # 1
  else if (c <=? 50)%Z then 5 # 1
  else 2 # 1.

Definition primary_reading (c : Z) : Q :=
  if (c <? 20)%Z then 8 # 1 else if (c <? 40)%Z then 4 # 1 else 0 # 1.

Definition conjugation_bonus (surface : str) (e : WordEntry) : Q :=
  if (0 <? conj_type e)%Z then
    if (conj_type e =? 4)%Z && endswith surface (u "ば") then 55 # 1 else 15 # 1
  else 0 # 1.

Definition coefficients (coeff_type : string) : list Z :=
  coeffs_get LENGTH_COEFF_SEQUENCES coeff_type LENGTH_COEFFS.

(** What a merge pass may do with a group of consecutive tokens: pass a
    single token through unchanged, or replace two or more tokens by one
    token that spells the same text over the same span. *)
Definition passes_or_merges (group : list Token) (t : Token) : Prop :=
  group = [t] \/
  (2 <= length group /\
   surface t = concat (map surface group) /\
   start t = start (hd t group) /\
   end_ t = end_ (last group t)).

(** [out] is [tokens] with some groups of consecutive tokens merged. *)
Definition regrouped (step : list Token -> Token -> Prop) (tokens out : list Token) : Prop :=
  exists groups, concat groups = tokens /\ Forall2 step groups out.

(** The exact steps of the two merge passes of the tokenizer. *)
Definition compound_merge_step (group : list Token) (t : Token) : Prop :=
  group = [t] \/ exists a b, group = [a; b] /\ t = merge_pair a b.

Definition multi_merge_step (group : list Token) (t : Token) : Prop :=
  group = [t] \/
  exists first_token rest merged_text,
    group = first_token :: rest /\ rest <> [] /\
    concat (map surface group) = merged_text /\
    t = multi_merge_token first_token group merged_text.

(** A merged token as the code recomputes it: the span of the group, the
    POS of its first token, the readings of the group put together. *)
Definition merge_recomputed (group : list Token) (t : Token) : Prop :=
  group = [t] \/
  exists first_token rest,
    group = first_token :: rest /\ rest <> [] /\
    start t = start first_token /\
    end_ t = end_ (last rest first_token) /\
    pos t = pos first_token /\
    reading t = concat (map reading group).

(** Tokens laid out one after the other from offset [s], each as long as
    its surface. *)
Fixpoint laid_out (s : nat) (out : list Token) : Prop :=
  match out with
  | [] => True
  | p :: r => start p = s /\ end_ p = s + length (surface p) /\ laid_out (end_ p) r
  end.

(** The tokens the split pass makes of one token. *)
Definition split_recomputed (parts : list str) (t : Token) (out : list Token) : Prop :=
  (length parts = 1 /\ out = [t]) \/
  (length parts <> 1 /\
   map surface out = parts /\
   laid_out (start t) out /\
   Forall (fun p => reading p = surface p) out).

(** A lexicon whose keys are the four words of [暑くなりましたね] as the
    selector cuts it. *)
Definition lexicon_atsuku : Lexicon :=
  trie_lexicon [ (u "暑", [(11, 20, 40, 0, 0)%Z]);
                 (u "く", [(12, 20, 83, 0, 0)%Z]);
                 (u "なりました", [(13, 10, 19, 3, 1375610)%Z]);
                 (u "ね", [(14, 5, 82, 0, 0)%Z]) ].

(** The te-form [食べて], read [たべて], and the auxiliary [いる]. *)
Definition tabete : Token := mkToken (u "食べて") (u "たべて") "v1" (u "食べる") 1358280%Z 0 3.
Definition iru : Token := mkToken (u "いる") (u "いる") "v1" (u "いる") 1577980%Z 3 5.

(** The scores of a k-best list, best first. *)
Definition scores_non_increasing {A : Type} (rs : list (A * Q)) : Prop :=
  StronglySorted (fun a b => (snd b <= snd a)%Q) rs.

(** The tokens of the first candidate of [analyze]. *)
Definition best_tokens (r : py (list (list Token * Q))) : option (list Token) :=
  match r with
  | Ok ((toks, _) :: _) => Some toks
  | _ => None
  end.

(** A lexicon whose only key is the greeting [今日は]. *)
Definition lexicon_kyouwa : Lexicon :=
  trie_lexicon [(u "今日は", [(1289400, 10, 74, 0, 0)%Z])].

(** The nodes of the lattice. *)
Definition nodes (m : matches_t) : list Segment := flat_map snd m.

(** The node the builder makes of a record found for [text[st:en]]. *)
Definition node_of (chars : Characters) (lex : Lexicon) (text : str) (st en : nat)
  (e : WordEntry) : Segment :=
  mkSegment (slice text st en) st en e
    (calculate_segment_score chars lex (slice text st en) e).

(** Position [i] holds a small-kana modifier or the long-vowel sign. *)
Definition modifier_at (chars : Characters) (text : str) (i : nat) : Prop :=
  exists c, nth_error text i = Some c /\
            string_in (get_char_class chars c) MODIFIER_CLASSES = true.

(** Position [i] comes right after a sokuon that is not the last
    character of the text. *)
Definition after_sokuon (chars : Characters) (text : str) (i : nat) : Prop :=
  exists j c, i = j + 1 /\ nth_error text j = Some c /\
              get_char_class chars c = "sokuon" /\ j + 1 < length text.

(** The positions of the one sticky set of the builder. *)
Definition sticky_position (chars : Characters) (text : str) (i : nat) : Prop :=
  modifier_at chars text i \/ after_sokuon chars text i.

(** Text without punctuation separators. *)
Definition no_punctuation (text : str) : Prop :=
  Forall (fun c => str_in [c] PUNCTUATION_SEPARATORS = false) text.

(** The invariants of a token list over [text]: the spans follow each
    other from [from] to [upto], and every token spells its span. *)
Fixpoint adjacent_spans (from upto : nat) (tokens : list Token) : Prop :=
  match tokens with
  | [] => from = upto
  | t :: r => start t = from /\ start t < end_ t /\ adjacent_spans (end_ t) upto r
  end.

Definition covers (text : str) (tokens : list Token) : Prop :=
  adjacent_spans 0 (length text) tokens.

Definition surface_fidelity (text : str) (tokens : list Token) : Prop :=
  Forall (fun t => slice text (start t) (end_ t) = surface t) tokens.

(** A lexicon with the two nouns of [養育費きちんと]. *)
Definition lexicon_youikuhi : Lexicon :=
  trie_lexicon [ (u "養育費", [(1, 10, 1, 0, 1)%Z]);
                 (u "きちんと", [(2, 10, 50, 0, 2)%Z]) ].

(** Every entry of the table points to a smaller position, and every
    span of the lattice is non-empty. *)
Definition dp_backward (dp : dp_t) : Prop :=
  forall p l e q, dp_get dp p = Some l -> In e l -> snd (fst e) = Some q -> q < p.

Definition spans_forward (m : matches_t) : Prop :=
  Forall (fun kv : span * list Segment => fst (fst kv) < snd (fst kv)) m.

(** The ASCII digits and the value of a string of them. *)
Definition ascii_digit (c : char) : Prop := (48 <= c <= 57)%N.

Definition digits_value (acc : Z) (ds : str) : Z :=
  fold_left (fun a c => (a * 10 + Z.of_N (c - 48))%Z) ds acc.

(** * More of the code: vocabulary for the properties below *)

(** The runs the tokenizer cuts the text into: they follow each other
    from [from] to [upto], none is empty, and each is the slice of the
    text at its offset. *)
Fixpoint tiles (text : str) (from upto : nat) (segments : list (str * nat)) : Prop :=
  match segments with
  | [] => from = upto
  | (s, off) :: r =>
      off = from /\ s <> [] /\ slice text from (from + length s) = s /\
      tiles text (from + length s) upto r
  end.

(** A node of the lattice of [text]: a non-empty span inside the text
    whose surface is the slice of the text. *)
Definition node_ok (text : str) (g : Segment) : Prop :=
  seg_start g < seg_end g /\ seg_end g <= length text /\
  seg_surface g = slice text (seg_start g) (seg_end g).

(** Every segment stored under a span of the lattice carries that span. *)
Definition lattice_ok (text : str) (m : matches_t) : Prop :=
  Forall (fun kv : span * list Segment =>
            Forall (fun g => seg_start g = fst (fst kv) /\ seg_end g = snd (fst kv) /\
                             node_ok text g) (snd kv)) m.

(** A property of every entry of the table of the dynamic program. *)
Definition dp_all (P : nat -> dp_entry -> Prop) (dp : dp_t) : Prop :=
  forall p l e, dp_get dp p = Some l -> In e l -> P p e.

(** An entry at position [p]: it points to a smaller position, and its
    segment, if any, starts there and ends at [p]. *)
Definition entry_ok (text : str) (p : nat) (e : dp_entry) : Prop :=
  (forall q, snd (fst e) = Some q -> q < p) /\
  (forall g, snd e = Some g ->
             snd (fst e) = Some (seg_start g) /\ seg_end g = p /\ node_ok text g).

(** A path in text order: segments that do not overlap, between [from]
    and [upto]. *)
Fixpoint chain (text : str) (from upto : nat) (path : list Segment) : Prop :=
  match path with
  | [] => from <= upto
  | g :: r => from <= seg_start g /\ node_ok text g /\ chain text (seg_end g) upto r
  end.

(** The same path in the order the reconstruction finds it, last segment
    first. *)
Fixpoint rchain (text : str) (upto : nat) (path : list Segment) : Prop :=
  match path with
  | [] => True
  | g :: r => seg_end g <= upto /\ node_ok text g /\ rchain text (seg_start g) r
  end.

(** [needle in text]. *)
Definition contains_str (text needle : str) : bool :=
  existsb (fun a => str_eqb (slice text a (a + length needle)) needle)
          (range 0 (length text + 1)).

(** [parts] spell [s]: put together they give [s], and none is empty. *)
Definition spells (s : str) (parts : list str) : Prop :=
  concat parts = s /\ Forall (fun p => p <> []) parts.

(** * More of the code: embedding *)

(** ** dictionary.py: POS ids *)

(** [POS_ID_MAP.get(pos, 0)]. *)
Fixpoint get_pos_id_in (m : list (string * Z)) (pos : string) : Z :=
  match m with
  | [] => 0%Z
  | (name, k) :: r => if String.eqb name pos then k else get_pos_id_in r pos
  end.

Definition get_pos_id (pos : string) : Z := get_pos_id_in POS_ID_MAP pos.

(** ** counters.py: counter expressions *)

(** The value of a digit in [digit_opts]: a list of flags (['g'], ['r'],
    ['h']) or a string that replaces the reading of the digit. *)
Inductive digit_opt : Type :=
| Flags (opts : list string)
| Override (kana : str).

Definition COMMON_COUNTERS : list (str * (str * Z * option (list (Z * digit_opt)))) :=
  [ (u "匹", (u "ひき", 1424040, Some
       [ (1, Flags ["g"; "h"]); (3, Flags ["r"]); (6, Flags ["g"; "h"]);
         (8, Flags ["g"; "h"]); (10, Flags ["g"; "h"]);
         (100, Flags ["g"; "h"]) ]));
    (u "冊", (u "さつ", 1320180, Some
       [ (1, Flags ["g"]); (8, Flags ["g"]); (10, Flags ["g"]) ]));
    (u "杯", (u "はい", 1423860, Some
       [ (1, Flags ["g"; "h"]); (3, Flags ["r"]); (6, Flags ["g"; "h"]);
         (8, Flags ["g"; "h"]); (10, Flags ["g"; "h"]) ]));
    (u "本", (u "ほん", 1211960, Some
       [ (1, Flags ["g"; "h"]); (3, Flags ["r"]); (6, Flags ["g"; "h"]);
         (8, Flags ["g"; "h"]); (10, Flags ["g"; "h"]) ]));
    (u "階", (u "かい", 1204100, Some
       [ (3, Flags ["g"]) ]));
    (u "軒", (u "けん", 1247710, Some
       [ (3, Flags ["g"]) ]));
    (u "回", (u "かい", 1204040, None));
    (u "年", (u "ねん", 1194480, Some
       [ (4, Override (u "よ")) ]));
    (u "月", (u "がつ", 1255430, Some
       [ (4, Override (u "し")); (7, Override (u "しち"));
         (9, Override (u "く")) ]));
    (u "日", (u "にち", 2083100, None));
    (u "人", (u "にん", 2149890, None));
    (u "度", (u "ど", 1543410, None));
    (u "台", (u "だい", 1412350, None));
    (u "位", (u "い", 1166410, None));
    (u "枚", (u "まい", 1529580, None));
    (u "個", (u "こ", 1253170, Some
       [ (1, Flags ["g"]); (6, Flags ["g"]); (8, Flags ["g"]);
         (10, Flags ["g"]) ]));
    (u "つ", (u "つ", 2136920, None));
    (u "号", (u "ごう", 1260840, None));
    (u "週", (u "しゅう", 1333450, Some
       [ (1, Flags ["g"]) ]));
    (u "秒", (u "びょう", 1482960, None));
    (u "分", (u "ふん", 1582970, Some
       [ (1, Flags ["g"; "h"]); (3, Flags ["h"]); (4, Override (u "よん"));
         (6, Flags ["g"; "h"]); (8, Flags ["g"; "h"]);
         (10, Flags ["g"; "h"]) ]));
    (u "時", (u "じ", 1319440, Some
       [ (4, Override (u "よ")); (7, Override (u "しち"));
         (9, Override (u "く")) ]));
    (u "円", (u "えん", 1171810, None));
    (u "ページ", (u "ぺーじ", 1094420, None));
    (u "キロ", (u "きろ", 1063420, None));
    (u "グラム", (u "ぐらむ", 1063530, None));
    (u "センチ", (u "せんち", 1073330, None));
    (u "メートル", (u "めーとる", 1095200, None)) ]%Z.

Definition DAYS_KUN_READINGS : list (Z * str) :=
  [
    (1%Z, u "ついたち"); (2%Z, u "ふつか"); (3%Z, u "みっか");
    (4%Z, u "よっか"); (5%Z, u "いつか"); (6%Z, u "むいか");
    (7%Z, u "なのか"); (8%Z, u "ようか"); (9%Z, u "ここのか");
    (10%Z, u "とおか"); (14%Z, u "じゅうよっか"); (20%Z, u "はつか");
    (24%Z, u "にじゅうよっか"); (30%Z, u "みそか") ].

Definition PEOPLE_KUN_READINGS : list (Z * str) :=
  [
    (1%Z, u "ひとり"); (2%Z, u "ふたり") ].

Definition TSU_READINGS : list (Z * str) :=
  [
    (1%Z, u "ひとつ"); (2%Z, u "ふたつ"); (3%Z, u "みっつ");
    (4%Z, u "よっつ"); (5%Z, u "いつつ"); (6%Z, u "むっつ");
    (7%Z, u "ななつ"); (8%Z, u "やっつ"); (9%Z, u "ここのつ");
    (10%Z, u "とお") ].

Definition h_to_p : list (char * char) :=
  [
    (ch "は", ch "ぱ"); (ch "ひ", ch "ぴ"); (ch "ふ", ch "ぷ");
    (ch "へ", ch "ぺ"); (ch "ほ", ch "ぽ"); (ch "ハ", ch "パ");
    (ch "ヒ", ch "ピ"); (ch "フ", ch "プ"); (ch "ヘ", ch "ペ");
    (ch "ホ", ch "ポ") ].

Definition voicing : list (char * char) :=
  [
    (ch "か", ch "が"); (ch "き", ch "ぎ"); (ch "く", ch "ぐ");
    (ch "け", ch "げ"); (ch "こ", ch "ご"); (ch "さ", ch "ざ");
    (ch "し", ch "じ"); (ch "す", ch "ず"); (ch "せ", ch "ぜ");
    (ch "そ", ch "ぞ"); (ch "た", ch "だ"); (ch "ち", ch "ぢ");
    (ch "つ", ch "づ"); (ch "て", ch "で"); (ch "と", ch "ど");
    (ch "は", ch "ば"); (ch "ひ", ch "び"); (ch "ふ", ch "ぶ");
    (ch "へ", ch "べ"); (ch "ほ", ch "ぼ"); (ch "カ", ch "ガ");
    (ch "キ", ch "ギ"); (ch "ク", ch "グ"); (ch "ケ", ch "ゲ");
    (ch "コ", ch "ゴ"); (ch "サ", ch "ザ"); (ch "シ", ch "ジ");
    (ch "ス", ch "ズ"); (ch "セ", ch "ゼ"); (ch "ソ", ch "ゾ");
    (ch "タ", ch "ダ"); (ch "チ", ch "ヂ"); (ch "ツ", ch "ヅ");
    (ch "テ", ch "デ"); (ch "ト", ch "ド"); (ch "ハ", ch "バ");
    (ch "ヒ", ch "ビ"); (ch "フ", ch "ブ"); (ch "ヘ", ch "ベ");
    (ch "ホ", ch "ボ") ].

(** [d.get(k)] and [k in d] for a dict with integer keys. *)
Fixpoint opt_get {V : Type} (d : list (Z * V)) (k : Z) : option V :=
  match d with
  | [] => None
  | (k', v) :: r => if (k' =? k)%Z then Some v else opt_get r k
  end.

Fixpoint char_map_get (d : list (char * char)) (c : char) : option char :=
  match d with
  | [] => None
  | (k, v) :: r => if N.eqb k c then Some v else char_map_get r c
  end.

Definition geminate (kana : str) : str :=
  match kana with
  | [] => kana
  | _ => drop_last 1 kana ++ u "っ"
  end.

Definition rendaku (kana : str) (handakuten : bool) : str :=
  match kana with
  | [] => kana
  | first_char :: rest =>
      if handakuten then
        match char_map_get h_to_p first_char with
        | Some c => [c] ++ rest
        | None => kana
        end
      else
        match char_map_get voicing first_char with
        | Some c => [c] ++ rest
        | None => kana
        end
  end.

Record CounterExpression : Type := mkCounterExpression {
  ce_text : str;
  ce_reading : str;
  ce_number : Z;
  ce_counter : str;
  ce_counter_seq : Z;
  ce_start : nat;
  ce_end : nat
}.

(** The digit whose phonetic rule applies: the last digit, or for a
    number that ends in 0 the first of 10, 100, 1000, 10000 that divides
    it while its tenfold does not. *)
Definition relevant_digit (number : Z) : Z :=
  let digit := (number mod 10)%Z in
  if (digit =? 0)%Z then
    match find (fun power => (number mod power =? 0)%Z &&
                             negb (number mod (power * 10) =? 0)%Z)
               [10; 100; 1000; 10000]%Z with
    | Some power => power
    | None => digit
    end
  else digit.

(** The loop [for opt in opts]. *)
Definition apply_opts (opts : list string) (number_kana counter_kana : str) : str * str :=
  fold_left
    (fun (acc : str * str) opt =>
       let '(result_number, result_counter) := acc in
       if String.eqb opt "g" then (geminate result_number, result_counter)
       else if String.eqb opt "r" then (result_number, rendaku result_counter false)
       else if String.eqb opt "h" then (result_number, rendaku result_counter true)
       else (result_number, result_counter))
    opts (number_kana, counter_kana).

Definition generate_counter_reading (number : Z) (number_text counter_kana : str)
  (digit_opts : option (list (Z * digit_opt))) : str :=
  let number_kana := number_to_kana number in
  match digit_opts with
  | None => number_kana ++ counter_kana
  | Some digit_opts =>
      let digit := relevant_digit number in
      match opt_get digit_opts digit with
      | None => number_kana ++ counter_kana
      | Some (Override opts) =>
          let digit_kana := kana_get DIGIT_TO_KANA digit in
          let number_kana :=
            if negb (length digit_kana =? 0) && endswith number_kana digit_kana
            then drop_last (length digit_kana) number_kana ++ opts
            else opts in
          number_kana ++ counter_kana
      | Some (Flags opts) =>
          let '(result_number, result_counter) := apply_opts opts number_kana counter_kana in
          result_number ++ result_counter
      end
  end.

(** The readings of [日], [人] and [つ] that replace the generated one. *)
Definition special_reading (counter_text : str) (number_value : Z) (reading : str) : str :=
  let reading :=
    if str_eqb counter_text (u "日") then
      match opt_get DAYS_KUN_READINGS number_value with Some r => r | None => reading end
    else reading in
  let reading :=
    if str_eqb counter_text (u "人") then
      match opt_get PEOPLE_KUN_READINGS number_value with Some r => r | None => reading end
    else reading in
  let reading :=
    if str_eqb counter_text (u "つ") then
      match opt_get TSU_READINGS number_value with Some r => r | None => reading end
    else reading in
  reading.

Section CounterExpressions.

(** Python's Unicode database, as for [parse_number]. *)
Variable unicode_digit : char -> option (option Z).

Definition char_mem (d : list (char * Z)) (c : char) : bool :=
  match char_get d c with Some _ => true | None => false end.

(** [char in KANJI_NUMBERS or char in DIGIT_VALUES or char.isdigit()]. *)
Definition is_number_char (c : char) : bool :=
  char_mem KANJI_NUMBERS c || char_mem DIGIT_VALUES c ||
  match unicode_digit c with Some _ => true | None => false end.

(** The loop [while num_end < len(text)]; [rest] is [text[num_end:]]. *)
Fixpoint number_end (rest : str) (num_end : nat) : nat :=
  match rest with
  | [] => num_end
  | c :: rest' => if is_number_char c then number_end rest' (S num_end) else num_end
  end.

Definition find_counter_expression (text : str) (start_pos : nat)
  : py (option CounterExpression) :=
  if length text <=? start_pos then Ok None
  else
    let num_end := number_end (skipn start_pos text) start_pos in
    if num_end =? start_pos then Ok None
    else
      let number_text := slice text start_pos num_end in
      match parse_number unicode_digit number_text with
      | Raise e => Raise e
      | Ok None => Ok None
      | Ok (Some number_value) =>
          let remaining := skipn num_end text in
          match find (fun item : str * (str * Z * option (list (Z * digit_opt))) =>
                        startswith remaining (fst item)) COMMON_COUNTERS with
          | None => Ok None
          | Some (counter_text, (counter_kana, counter_seq, digit_opts)) =>
              let end_pos := num_end + length counter_text in
              let reading_ :=
                generate_counter_reading number_value number_text counter_kana digit_opts in
              let reading_ := special_reading counter_text number_value reading_ in
              Ok (Some (mkCounterExpression (slice text start_pos end_pos) reading_
                          number_value counter_text counter_seq start_pos end_pos))
          end
      end.

(** The loop of [find_all_counters]; every step moves [i] forward, so the
    length of the text is enough fuel. *)
Fixpoint find_all_counters_loop (fuel : nat) (text : str) (i : nat)
  (results : list CounterExpression) : py (list CounterExpression) :=
  match fuel with
  | O => Ok results
  | S fuel' =>
      if length text <=? i then Ok results
      else
        match find_counter_expression text i with
        | Raise e => Raise e
        | Ok (Some counter) =>
            find_all_counters_loop fuel' text (ce_end counter) (results ++ [counter])
        | Ok None => find_all_counters_loop fuel' text (i + 1) results
        end
  end.

Definition find_all_counters (text : str) : py (list CounterExpression) :=
  find_all_counters_loop (length text) text 0 [].

Definition is_counter_start (text : str) (pos_ : nat) : bool :=
  if length text <=? pos_ then false
  else match nth_error text pos_ with
       | Some c => is_number_char c
       | None => false
       end.

(** The counter expressions found in a text, one after the other from
    [from]: each is what [find_counter_expression] finds at its start. *)
Fixpoint counters_in_order (text : str) (from : nat) (rs : list CounterExpression) : Prop :=
  match rs with
  | [] => True
  | ce :: r =>
      from <= ce_start ce /\ ce_start ce < ce_end ce /\ ce_end ce <= length text /\
      find_counter_expression text (ce_start ce) = Ok (Some ce) /\
      counters_in_order text (ce_end ce) r
  end.

End CounterExpressions.

(** ** splits.py: splitting a compound word *)

Record SplitPart : Type := mkSplitPart {
  sp_text : str;
  sp_entry : option WordEntry
}.

Record SplitResult : Type := mkSplitResult {
  sr_parts : list SplitPart;
  sr_score_bonus : Z
}.

Definition seq_mem (d : list (Z * Z)) (k : Z) : bool :=
  match seq_get d k with Some _ => true | None => false end.

Section Splits.

Variable lex : Lexicon.

(** The two-part result of the first four branches, when both parts are
    in the lexicon. *)
Definition two_parts (first_text second_text surface : str) (sq : Z) : option SplitResult :=
  match lookup lex first_text, lookup lex second_text with
  | e1 :: _, e2 :: _ =>
      Some (mkSplitResult [mkSplitPart first_text (Some e1); mkSplitPart second_text (Some e2)]
              (get_split_score_bonus surface sq))
  | _, _ => None
  end.

(** The loop over the parts of a complex pattern; [None] is the early
    [return None]. *)
Fixpoint pattern_parts_loop (pattern_parts : list str) (parts : list SplitPart)
  : option (list SplitPart) :=
  match pattern_parts with
  | [] => Some parts
  | part_text :: rest =>
      match lookup lex part_text with
      | e :: _ => pattern_parts_loop rest (parts ++ [mkSplitPart part_text (Some e)])
      | [] => None
      end
  end.

(** The five attempts of [try_split_word], in the order of the source:
    a word in [で], a word in [通り], the prefix [ど], the prefix [し], a
    complex pattern. *)
Definition split_de (surface : str) (sq : Z) : option SplitResult :=
  if endswith surface (u "で") && (1 <? length surface) then
    if str_in surface DE_SUFFIX_WORDS || seq_mem DE_SPLITS sq
    then two_parts (drop_last 1 surface) (u "で") surface sq
    else None
  else None.

Definition split_toori (surface : str) (sq : Z) : option SplitResult :=
  if endswith surface (u "通り") && (2 <? length surface) then
    if str_in surface TOORI_SUFFIX_WORDS || seq_mem TOORI_SPLITS sq
    then two_parts (drop_last 2 surface) (u "通り") surface sq
    else None
  else None.

Definition split_do (surface : str) (sq : Z) : option SplitResult :=
  if startswith surface (u "ど") && (1 <? length surface) then
    if str_in surface DO_PREFIX_WORDS || seq_mem DO_SPLITS sq
    then two_parts (u "ど") (skipn 1 surface) surface sq
    else None
  else None.

Definition split_shi (surface : str) (sq : Z) : option SplitResult :=
  if startswith surface (u "し") && (1 <? length surface) then
    if str_in surface SHI_PREFIX_WORDS || seq_mem SHI_SPLITS sq
    then two_parts (u "し") (skipn 1 surface) surface sq
    else None
  else None.

Definition split_complex (surface : str) : option SplitResult :=
  match word_get COMPLEX_PATTERN_WORDS surface with
  | Some (pattern_parts, score_) =>
      match pattern_parts_loop pattern_parts [] with
      | None => None
      | Some [] => None
      | Some parts => Some (mkSplitResult parts score_)
      end
  | None => None
  end.

Definition try_split_word (surface : str) (sq : Z) : option SplitResult :=
  match split_de surface sq with Some r => Some r | None =>
  match split_toori surface sq with Some r => Some r | None =>
  match split_do surface sq with Some r => Some r | None =>
  match split_shi surface sq with Some r => Some r | None =>
  split_complex surface
  end end end end.

Definition get_split_parts (surface : str) (sq : Z) : option (list str) :=
  match try_split_word surface sq with
  | Some result => Some (map sp_text (sr_parts result))
  | None => None
  end.

End Splits.

(** ** segfilters.py *)

Definition PARTICLES_BLOCKING_N : list str := map u
  [
    "は"; "が"; "を"; "に"; "で"; "へ"; "も"; "の"; "と"; "や"; "か" ].

Definition BAD_ENDINGS : list str := map u
  [
    "ちゃい"; "いか"; "とか"; "とき"; "い" ].

Definition HONORIFICS : list str := map u
  [
    "君"; "くん"; "さん"; "ちゃん"; "様"; "さま"; "殿"; "どの" ].

Definition check_n_after_particle (left_surface right_surface : str) : bool :=
  if negb (str_in right_surface [u "ん"; u "んだ"; u "んです"]) then true
  else if str_in left_surface PARTICLES_BLOCKING_N then false
  else true.

Definition check_honorific_after_noun (left_pos_id : Z) (right_surface : str) : bool :=
  if negb (str_in right_surface HONORIFICS) then true else true.

Definition check_bad_ending (right_surface : str) (is_last_token : bool) : bool :=
  if negb is_last_token then true
  else if str_in right_surface BAD_ENDINGS then false
  else true.

Definition check_da_suru_combination (left_surface right_surface : str) : bool :=
  if negb (str_eqb left_surface (u "だ")) then true
  else if str_in right_surface
            [u "する"; u "して"; u "し"; u "した"; u "します"; u "しました"]
  then false
  else true.

Definition validate_token_pair (left_surface : str) (left_pos_id : Z)
  (right_surface : str) (right_pos_id : Z) (is_last_token : bool) : bool * option str :=
  if negb (check_n_after_particle left_surface right_surface)
  then (false, Some (u "ん should not follow particles directly"))
  else if negb (check_da_suru_combination left_surface right_surface)
  then (false, Some (u "だ + する is invalid (should be で + する)"))
  else if negb (check_bad_ending right_surface is_last_token)
  then (false, Some (u "'" ++ right_surface ++ u "' is a bad ending token"))
  else (true, None).

(** The inner loop of [filter_invalid_paths] over the pairs
    [tokens[i], tokens[i + 1]], with [break] at the first invalid pair.
    The tokens of a path are segments: they have a [surface] and an
    [entry]. *)
Fixpoint path_is_valid (tokens : list Segment) : bool :=
  match tokens with
  | left_token :: ((right_token :: rest) as tail) =>
      let is_last := match rest with [] => true | _ => false end in
      let '(valid, _) :=
        validate_token_pair (seg_surface left_token) (pos_id (entry left_token))
          (seg_surface right_token) (pos_id (entry right_token)) is_last in
      if negb valid then false else path_is_valid tail
  | _ => true
  end.

Definition filter_invalid_paths (paths : list (list Segment * Q)) : list (list Segment * Q) :=
  fold_left
    (fun valid_paths ps =>
       if path_is_valid (fst ps) then valid_paths ++ [ps] else valid_paths)
    paths [].

Definition should_block_token (left_tokens : list Segment) (candidate_surface : str)
  (candidate_pos_id : Z) : bool :=
  match left_tokens with
  | [] => false
  | t :: r =>
      let last_token := last r t in
      let '(valid, _) :=
        validate_token_pair (seg_surface last_token) (pos_id (entry last_token))
          candidate_surface candidate_pos_id false in
      negb valid
  end.

(** A pair of neighbours that the filter rejects, whatever their
    POS. *)
Definition blocked_pair (left_surface right_surface : str) (is_last : bool) : bool :=
  (str_in right_surface [u "ん"; u "んだ"; u "んです"] &&
   str_in left_surface PARTICLES_BLOCKING_N) ||
  (str_eqb left_surface (u "だ") &&
   str_in right_surface [u "する"; u "して"; u "し"; u "した"; u "します"; u "しました"]) ||
  (is_last && str_in right_surface BAD_ENDINGS).

(** Some pair of neighbours of the path is rejected. *)
Fixpoint has_blocked_pair (tokens : list Segment) : bool :=
  match tokens with
  | a :: ((b :: rest) as tail) =>
      blocked_pair (seg_surface a) (seg_surface b) (match rest with [] => true | _ => false end)
      || has_blocked_pair tail
  | _ => false
  end.

(** A lexicon with the two parts of [なくなる]. *)
Definition lexicon_nakunaru : Lexicon :=
  trie_lexicon [ (u "なく", [(21, 10, 50, 0, 0)%Z]);
                 (u "なる", [(22, 10, 19, 0, 0)%Z]) ].

(** ** Binary files: [struct], [bytes] and UTF-8

    A [bytes] object is the list of its bytes ([0 <= b < 256]); the
    exceptions of this part are not [ValueError]s of the package, so
    they have a type of their own. *)

Inductive io_exn : Type :=
| struct_error
| UnicodeEncodeError
| UnicodeDecodeError.

Inductive io (A : Type) : Type :=
| Done (a : A)
| Fail (e : io_exn).
Arguments Done {A} a.
Arguments Fail {A} e.

Definition io_bind {A B : Type} (m : io A) (k : A -> io B) : io B :=
  match m with
  | Done a => k a
  | Fail e => Fail e
  end.

Notation "x <- m ;; k" := (io_bind m (fun x => k))
  (at level 61, m at next level, right associativity).

(** Little-endian unsigned integers of [width] bytes: [struct.pack] with
    ['<I'] (4 bytes) and ['<H'] (2 bytes) raises [struct.error] outside
    the range, [struct.unpack] on a buffer of another size. *)
Fixpoint le_bytes (width : nat) (n : N) : list N :=
  match width with
  | O => []
  | S w => (n mod 256)%N :: le_bytes w (n / 256)%N
  end.

Definition le_value (bs : list N) : N :=
  fold_right (fun b acc => (b + 256 * acc)%N) 0%N bs.

Definition pack_uint (width : nat) (x : Z) : io (list N) :=
  if (0 <=? x)%Z && (x <? 256 ^ Z.of_nat width)%Z
  then Done (le_bytes width (Z.to_N x))
  else Fail struct_error.

Definition unpack_uint (width : nat) (bs : list N) : io N :=
  if length bs =? width then Done (le_value bs) else Fail struct_error.

(** [str.encode('utf-8')]: a surrogate cannot be encoded; a number from
    U+110000 on is no character of a Python string. *)
Definition utf8_encode_char (c : char) : io (list N) :=
  (if c <? 128 then Done [c]
   else if c <? 2048 then Done [192 + c / 64; 128 + c mod 64]
   else if c <? 65536 then
     if (55296 <=? c) && (c <=? 57343) then Fail UnicodeEncodeError
     else Done [224 + c / 4096; 128 + (c / 64) mod 64; 128 + c mod 64]
   else if c <? 1114112 then
     Done [240 + c / 262144; 128 + (c / 4096) mod 64; 128 + (c / 64) mod 64; 128 + c mod 64]
   else Fail UnicodeEncodeError)%N.

Fixpoint utf8_encode (s : str) : io (list N) :=
  match s with
  | [] => Done []
  | c :: r =>
      bs <- utf8_encode_char c ;;
      rest <- utf8_encode r ;;
      Done (bs ++ rest)
  end.

(** [bytes.decode('utf-8')], strict: continuation bytes are
    [0x80..0xBF]; overlong forms, surrogates and values above U+10FFFF
    are rejected through the range of the second byte. *)
Definition continuation (b : N) : bool := ((128 <=? b) && (b <=? 191))%N.

Definition second_of_three (b0 b1 : N) : bool :=
  (if b0 =? 224 then (160 <=? b1) && (b1 <=? 191)
   else if b0 =? 237 then (128 <=? b1) && (b1 <=? 159)
   else continuation b1)%N.

Definition second_of_four (b0 b1 : N) : bool :=
  (if b0 =? 240 then (144 <=? b1) && (b1 <=? 191)
   else if b0 =? 244 then (128 <=? b1) && (b1 <=? 143)
   else continuation b1)%N.

Fixpoint utf8_decode (bs : list N) : io str :=
  match bs with
  | [] => Done []
  | b0 :: r0 =>
      if (b0 <? 128)%N then
        rest <- utf8_decode r0 ;; Done (b0 :: rest)
      else if ((194 <=? b0) && (b0 <=? 223))%N then
        match r0 with
        | b1 :: r1 =>
            if continuation b1 then
              rest <- utf8_decode r1 ;;
              Done (((b0 - 192) * 64 + (b1 - 128))%N :: rest)
            else Fail UnicodeDecodeError
        | _ => Fail UnicodeDecodeError
        end
      else if ((224 <=? b0) && (b0 <=? 239))%N then
        match r0 with
        | b1 :: b2 :: r2 =>
            if second_of_three b0 b1 && continuation b2 then
              rest <- utf8_decode r2 ;;
              Done ((((b0 - 224) * 64 + (b1 - 128)) * 64 + (b2 - 128))%N :: rest)
            else Fail UnicodeDecodeError
        | _ => Fail UnicodeDecodeError
        end
      else if ((240 <=? b0) && (b0 <=? 244))%N then
        match r0 with
        | b1 :: b2 :: b3 :: r3 =>
            if second_of_four b0 b1 && continuation b2 && continuation b3 then
              rest <- utf8_decode r3 ;;
              Done (((((b0 - 240) * 64 + (b1 - 128)) * 64 + (b2 - 128)) * 64
                     + (b3 - 128))%N :: rest)
            else Fail UnicodeDecodeError
        | _ => Fail UnicodeDecodeError
        end
      else Fail UnicodeDecodeError
  end.

(** A dict from [seq] to text, as the association list of its items in
    insertion order; its keys are distinct. *)
Definition readings := list (Z * str).

Fixpoint dict_get (d : readings) (k : Z) : option str :=
  match d with
  | [] => None
  | (k', v) :: r => if (k' =? k)%Z then Some v else dict_get r k
  end.

(** [d[k] = v]. *)
Fixpoint dict_set (d : readings) (k : Z) (v : str) : readings :=
  match d with
  | [] => [(k, v)]
  | (k', v') :: r => if (k' =? k)%Z then (k', v) :: r else (k', v') :: dict_set r k v
  end.

(** The order of tuples [(seq, text)]: by [seq], then by the text,
    character by character. *)
Fixpoint str_ltb (a b : str) : bool :=
  match a, b with
  | _, [] => false
  | [], _ :: _ => true
  | x :: a', y :: b' => (x <? y)%N || ((x =? y)%N && str_ltb a' b')
  end.

Definition item_ltb (a b : Z * str) : bool :=
  (fst a <? fst b)%Z || ((fst a =? fst b)%Z && str_ltb (snd a) (snd b)).

(** [sorted(d.items())]: a stable sort, ascending. *)
Fixpoint insert_item (x : Z * str) (l : readings) : readings :=
  match l with
  | [] => [x]
  | y :: r => if item_ltb y x then y :: insert_item x r else x :: y :: r
  end.

Definition sorted_items (d : readings) : readings := fold_right insert_item [] d.

(** ** dictionary.py: the kana readings file *)

(** [f.read(n)] on the rest of the file: at most [n] bytes. *)
Definition read (n : nat) (f : list N) : list N * list N := (firstn n f, skipn n f).

(** The loop [for _ in range(count)] of [load_kana_readings] on the
    rest [f] of the file. *)
Fixpoint load_records (count : nat) (f : list N) (d : readings) : io readings :=
  match count with
  | O => Done d
  | S count' =>
      let '(b, f) := read 4 f in
      sq <- unpack_uint 4 b ;;
      let '(b, f) := read 2 f in
      text_len <- unpack_uint 2 b ;;
      let '(b, f) := read (N.to_nat text_len) f in
      text <- utf8_decode b ;;
      load_records count' f (dict_set d (Z.of_N sq) text)
  end.

(** [load_kana_readings] when the file exists and holds the bytes [f]. *)
Definition load_kana_readings (f : list N) : io readings :=
  let '(b, f) := read 4 f in
  count <- unpack_uint 4 b ;;
  load_records (N.to_nat count) f [].

(** [get_kana_reading] on the loaded dict. *)
Definition get_kana_reading (d : readings) (sq : Z) : option str := dict_get d sq.

(** ** scripts/build_dictionary.py *)

Module BuildDictionary.

Definition is_kana_char (c : char) : bool :=
  (((12352 <=? c) && (c <=? 12447)) || ((12448 <=? c) && (c <=? 12543)))%N.

(** The loop returns [False] at the first character that is no kana; the
    empty text is kana. *)
Fixpoint is_kana (text : str) : bool :=
  match text with
  | [] => true
  | c :: r => if negb (is_kana_char c) then false else is_kana r
  end.

(** The loop over [reversed(word)] with its [break]. *)
Fixpoint kana_run (reversed_word : str) (count : nat) : nat :=
  match reversed_word with
  | [] => count
  | c :: r => if is_kana_char c then kana_run r (count + 1) else count
  end.

Definition get_kana_suffix_length (word : str) : nat := kana_run (rev word) 0.

Record ConjugationRule : Type := mkConjugationRule {
  rule_pos_id : Z;
  rule_conj_type : Z;
  neg : bool;
  fml : bool;
  onum : Z;
  stem : Z;
  okuri : str;
  euphr : str;
  euphk : str
}.

Definition construct_conjugation (word : str) (rule : ConjugationRule) : str :=
  let is_kana_word := is_kana word in
  let kana_suffix_len := get_kana_suffix_length word in
  let use_kana :=
    is_kana_word ||
    ((0 <? kana_suffix_len) && (stem rule + 1 <=? Z.of_nat kana_suffix_len)%Z) in
  let stem_ := stem rule in
  let stem_ :=
    if use_kana && negb (length (euphr rule) =? 0) then (stem_ + 1)%Z
    else if negb use_kana && negb (length (euphk rule) =? 0) then (stem_ + 1)%Z
    else stem_ in
  let base := if (0 <? stem_)%Z then drop_last (Z.to_nat stem_) word else word in
  let euph := if use_kana then euphr rule else euphk rule in
  base ++ euph ++ okuri rule.

Definition calculate_cost (common : option Z) (ord_num : Z) : Z :=
  let base := 100%Z in
  let base :=
    match common with
    | Some common => if (common =? 0)%Z then 10%Z else (20 + common * 2)%Z
    | None => base
    end in
  let base := (base + ord_num * 5)%Z in
  Z.min base 255.

(** The records of [save_kana_readings] after the count: for each item
    [struct.pack('<IH', seq, len(text_bytes))] and the bytes of the
    text. *)
Fixpoint write_records (items : readings) : io (list N) :=
  match items with
  | [] => Done []
  | (sq, text) :: rest =>
      text_bytes <- utf8_encode text ;;
      sq_bytes <- pack_uint 4 sq ;;
      len_bytes <- pack_uint 2 (Z.of_nat (length text_bytes)) ;;
      more <- write_records rest ;;
      Done (sq_bytes ++ len_bytes ++ text_bytes ++ more)
  end.

(** The bytes [save_kana_readings] writes when nothing raises. *)
Definition save_kana_readings (kana_readings : readings) : io (list N) :=
  header <- pack_uint 4 (Z.of_nat (length kana_readings)) ;;
  records <- write_records (sorted_items kana_readings) ;;
  Done (header ++ records).

End BuildDictionary.

(** A text that [encode('utf-8')] accepts and whose encoding fits the
    two-byte length field of a record. *)
Definition fits_record (text : str) : Prop :=
  exists bs, utf8_encode text = Done bs /\ (Z.of_nat (length bs) <= 65535)%Z.

(** Two readings for the round trip through the file. *)
Definition two_readings : readings :=
  [ (1358280%Z, u "たべる"); (1000%Z, u "あa") ].

(** ** synergies.py: the POS classes *)

Module Synergies.

Definition NOUN_POS_IDS : list Z := [1; 2; 3; 4; 5]%Z.
Definition PARTICLE_POS_IDS : list Z := [82]%Z.
Definition NA_ADJ_POS_IDS : list Z := [42]%Z.
Definition NO_ADJ_POS_IDS : list Z := [43]%Z.
Definition ADV_POS_IDS : list Z := [50; 51]%Z.
Definition COUNTER_POS_IDS : list Z := [72]%Z.
Definition VS_POS_IDS : list Z := [27; 28; 29]%Z.

Definition is_noun (pos_id : Z) : bool := Z_in pos_id NOUN_POS_IDS.
Definition is_particle (pos_id : Z) : bool := Z_in pos_id PARTICLE_POS_IDS.
Definition is_na_adj (pos_id : Z) : bool := Z_in pos_id NA_ADJ_POS_IDS.
Definition is_counter (pos_id : Z) : bool := Z_in pos_id COUNTER_POS_IDS.

End Synergies.

(** ** tokenizer.py: the score as the binary64 number Python computes

    [calculate_segment_score] once more, with the arithmetic of Python's
    [float]: IEEE 754 binary64, every operation rounded to nearest, ties
    to even.  The path selector above works with the exact rationals;
    this module fixes what the scorer itself returns. *)

Module Float64.

Import Floats.
#[local] Set Warnings "-inexact-float".

(** The conversion of an [int] operand in mixed arithmetic: the nearest
    binary64 number.  (Python raises [OverflowError] where the nearest
    number would be infinite, from about [1.8e308] on; costs are 16-bit
    record fields and lengths are lengths of strings.) *)
Definition float_of_Z (z : Z) : float :=
  SF2Prim match z with
          | Z0 => S754_zero false
          | Zpos p => binary_round prec emax false p 0
          | Zneg p => binary_round prec emax true p 0
          end.

Section Scores.

Variable chars : Characters.
Variable lex : Lexicon.

Definition score_base (surface : str) (e : WordEntry) : float :=
  let base_score := 5.0%float in
  let base_score :=
    if has_kanji chars surface then (base_score + 5.0)%float else base_score in
  let base_score :=
    if (cost e <=? 10)%Z then (base_score + 15.0)%float
    else if (cost e <=? 30)%Z then (base_score + 10.0)%float
    else if (cost e <=? 50)%Z then (base_score + 5.0)%float
    else (base_score + 2.0)%float in
  let base_score :=
    if (cost e <? 20)%Z then (base_score + 8.0)%float
    else if (cost e <? 40)%Z then (base_score + 4.0)%float
    else base_score in
  let base_score :=
    if Z_in (pos_id e) PARTICLE_POS_IDS then (base_score + 3.0)%float else base_score in
  let base_score :=
    if Z_in (pos_id e) PRONOUN_POS_IDS then (base_score + 5.0)%float else base_score in
  base_score.

(** The value of [length_score] when the special cases are reached. *)
Definition score_length_score (surface : str) (e : WordEntry) : float :=
  let length_mult :=
    get_length_coeff (score_m_len chars surface) (score_coeff_type chars surface e) in
  let length_score :=
    (score_base surface e * (float_of_Z 1 + float_of_Z length_mult * 0.1))%float in
  let length_score :=
    if (0 <? conj_type e)%Z then
      let length_score := (length_score + 15.0)%float in
      if (conj_type e =? 4)%Z && endswith surface (u "ば")
      then (length_score + 40.0)%float else length_score
    else length_score in
  let length_score :=
    if (cost e =? 5)%Z && (3 <=? length surface)
    then (length_score + 25.0)%float else length_score in
  let length_score :=
    if str_in surface VALID_COMPOUND_WORDS
    then (length_score + 40.0)%float else length_score in
  let split_adj := calculate_split_score_adjustment surface (seq e) in
  (length_score + float_of_Z split_adj)%float.

Definition calculate_segment_score (surface : str) (e : WordEntry) : float :=
  let length_score := score_length_score surface e in
  if Z_in (pos_id e) PARTICLE_POS_IDS then
    let particle_score := (15.0 - float_of_Z (cost e) * 0.1)%float in
    if 1 <? length surface
    then (particle_score
          + float_of_Z (Z.of_nat (length surface * length surface * 5)))%float
    else particle_score
  else if (length surface =? 1) && str_in surface SINGLE_CHAR_PARTICLES then
    (12.0 - float_of_Z (cost e) * 0.1)%float
  else
    let length_score :=
      if (length surface =? 1) && negb (Z_in (pos_id e) PARTICLE_POS_IDS)
      then (length_score - 30.0)%float else length_score in
    let length_score :=
      if (2 <? length surface) && negb (str_in surface VALID_COMPOUND_WORDS) then
        let last_char := skipn (length surface - 1) surface in
        if str_in last_char SINGLE_CHAR_PARTICLES then
          let base_word := drop_last 1 surface in
          if contains lex base_word then (length_score - 30.0)%float else length_score
        else length_score
      else length_score in
    length_score.

End Scores.

(** The components of the base, as the specification lists them. *)
Definition commonness (c : Z) : float :=
  if (c <=? 10)%Z then 15.0%float
  else if (c <=? 30)%Z then 10.0%float
  else if (c <=? 50)%Z then 5.0%float
  else 2.0%float.

Definition primary_reading (c : Z) : float :=
  if (c <? 20)%Z then 8.0%float else if (c <? 40)%Z then 4.0%float else 0.0%float.

End Float64.

(** The two bonuses for compounds: [+25] for a custom entry (cost 5) of
    three or more characters, [+40] for a known compound word. *)
Definition compound_bonus (surface : str) (e : WordEntry) : Q :=
  (if (cost e =? 5)%Z && (3 <=? length surface) then 25 # 1 else 0 # 1) +
  (if str_in surface VALID_COMPOUND_WORDS then 40 # 1 else 0 # 1).

(** A word of more than two characters that is no known compound, ends
    in a single-character particle and whose rest is a key of the
    lexicon. *)
Definition ends_in_particle (lex : Lexicon) (surface : str) : bool :=
  (2 <? length surface) && negb (str_in surface VALID_COMPOUND_WORDS) &&
  str_in (skipn (length surface - 1) surface) SINGLE_CHAR_PARTICLES &&
  contains lex (drop_last 1 surface).

(** The two penalties of 30. *)
Definition penalties (lex : Lexicon) (surface : str) : Q :=
  (if length surface =? 1 then 30 # 1 else 0 # 1) +
  (if ends_in_particle lex surface then 30 # 1 else 0 # 1).

(** The noun [食べ物], a custom entry [お願いします] (cost 5, conjugated)
    and the word [今日は] with the seq that [SEGMENT_SPLITS] lists. *)
Definition entry_tabemono : WordEntry := mkWordEntry (u "食べ物") 1358340 10 1 0 0.
Definition entry_onegai : WordEntry := mkWordEntry (u "お願いします") 900001 5 73 3 900000.
Definition entry_kyouwa : WordEntry := mkWordEntry (u "今日は") 1289400 10 74 0 0.

(** A particle entry of cost 41 and a one-character noun [か] of cost
    11. *)
Definition entry_kara_41 : WordEntry := mkWordEntry (u "から") 7 41 82 0 0.
Definition entry_ka_11 : WordEntry := mkWordEntry (u "か") 5 11 1 0 0.

(** * Facts *)

(** ** Strings *)

Lemma str_eqb_eq (a b : str) : str_eqb a b = true <-> a = b.
Proof.
  revert b; induction a as [|x a IH]; intros [|y b]; simpl; split; intro H;
    try reflexivity; try discriminate.
  - apply andb_true_iff in H as [Hx Hr]. apply N.eqb_eq in Hx. apply IH in Hr. congruence.
  - injection H as -> ->. rewrite N.eqb_refl. simpl. now apply IH.
Qed.

Lemma str_eqb_refl (a : str) : str_eqb a a = true.
Proof. now apply str_eqb_eq. Qed.

Lemma strs_eqb_eq (a b : list str) : strs_eqb a b = true <-> a = b.
Proof.
  revert b; induction a as [|x a IH]; intros [|y b]; simpl; split; intro H;
    try reflexivity; try discriminate.
  - apply andb_true_iff in H as [Hx Hr]. apply str_eqb_eq in Hx. apply IH in Hr. congruence.
  - injection H as -> ->. rewrite str_eqb_refl. simpl. now apply IH.
Qed.

Lemma str_in_In (s : str) (l : list str) : str_in s l = true <-> In s l.
Proof.
  unfold str_in. rewrite existsb_exists. split.
  - intros (x & Hx & E). apply str_eqb_eq in E. now subst.
  - intro H. exists s. split; [assumption | apply str_eqb_refl].
Qed.

Lemma nat_in_In (n : nat) (l : list nat) : nat_in n l = true <-> In n l.
Proof.
  unfold nat_in. rewrite existsb_exists. split.
  - intros (x & Hx & E). apply Nat.eqb_eq in E. now subst.
  - intro H. exists n. split; [assumption | apply Nat.eqb_refl].
Qed.

(** ** Whitespace and the guard of the facade *)

Lemma lstrip_nil (s : str) : lstrip s = [] <-> whitespace_only s.
Proof.
  unfold whitespace_only. induction s as [|c s IH]; simpl.
  - split; [constructor | reflexivity].
  - destruct (is_space c) eqn:E.
    + rewrite IH. split; intro H; [now constructor | now inversion H].
    + split; intro H; [discriminate | inversion H; congruence].
Qed.

Lemma lstrip_whitespace (s : str) : whitespace_only (lstrip s) -> whitespace_only s.
Proof.
  unfold whitespace_only. induction s as [|c s IH]; simpl; intro H; [constructor|].
  destruct (is_space c) eqn:E.
  - constructor; auto.
  - inversion H; congruence.
Qed.

Lemma strip_nil (s : str) : strip s = [] <-> whitespace_only s.
Proof.
  unfold strip. split.
  - intro H. apply (f_equal (@rev char)) in H. rewrite rev_involutive in H. simpl in H.
    apply lstrip_nil in H. apply lstrip_whitespace.
    unfold whitespace_only in *. apply Forall_rev in H. now rewrite rev_involutive in H.
  - intro H. apply lstrip_nil in H. rewrite H. reflexivity.
Qed.

Lemma blank_check (text : str) :
  is_empty text || is_empty (strip text) = true <-> whitespace_only text.
Proof.
  split.
  - intro H. apply orb_true_iff in H as [H|H].
    + destruct text; [constructor | discriminate].
    + apply strip_nil. destruct (strip text); [reflexivity | discriminate].
  - intro H. apply strip_nil in H. rewrite H. apply orb_true_r.
Qed.

(** ** The lattice never stores an empty list of segments *)

Lemma matches_append_nonempty key sg m :
  nonempty_spans m -> nonempty_spans (matches_append key sg m).
Proof.
  unfold nonempty_spans. induction m as [|[k segs] r IH]; simpl; intro H.
  - constructor; [discriminate | constructor].
  - inversion H as [|? ? Hk Hr]; subst. destruct (span_eqb k key).
    + constructor; [|assumption]. simpl. now destruct segs.
    + constructor; [assumption | now apply IH].
Qed.

Section CoreFacts.

Variable chars : Characters.
Variable lex : Lexicon.
Variable normalize_NFC : str -> str.

Lemma add_entries_nonempty text st en m :
  nonempty_spans m -> nonempty_spans (add_entries chars lex text st en m).
Proof.
  unfold add_entries. generalize (lookup lex (slice text st en)) as es.
  intro es. revert m. induction es as [|e es IH]; simpl; intros m H; [assumption|].
  apply IH. now apply matches_append_nonempty.
Qed.

Lemma grow_nonempty text sticky st ends m :
  nonempty_spans m -> nonempty_spans (grow chars lex text sticky st ends m).
Proof.
  revert m. induction ends as [|en rest IH]; simpl; intros m H; [assumption|].
  destruct (nat_in en sticky); [now apply IH|].
  destruct (has_prefix lex (slice text st en)); simpl; [|assumption].
  apply IH. now apply add_entries_nonempty.
Qed.

Lemma find_all_matches_nonempty text : nonempty_spans (find_all_matches chars lex text).
Proof.
  unfold find_all_matches.
  generalize (range 0 (length text)) as starts.
  assert (H0 : nonempty_spans []) by constructor. revert H0.
  generalize (@nil (span * list Segment)) as m.
  intros m H0 starts. revert m H0.
  induction starts as [|st starts IH]; simpl; intros m H; [assumption|].
  apply IH. destruct (nat_in st (find_sticky_positions chars text)); [assumption|].
  now apply grow_nonempty.
Qed.

(** ** The path selector returns *)

Lemma relax_all_ok limit p items dp :
  nonempty_spans items -> exists dp', relax_all limit p items dp = Ok dp'.
Proof.
  revert dp. induction items as [|[[st en] segs] r IH]; simpl; intros dp H.
  - now exists dp.
  - inversion H as [|? ? Hk Hr]; subst. simpl in Hk.
    destruct (negb (st =? p)); [now apply IH|].
    destruct segs as [|s segs]; [contradiction|]. simpl. now apply IH.
Qed.

Lemma forward_ok limit gaps m positions dp :
  nonempty_spans m -> exists dp', forward limit gaps m positions dp = Ok dp'.
Proof.
  intro H. revert dp. induction positions as [|p r IH]; simpl; intro dp.
  - now exists dp.
  - match goal with |- context [forward _ _ _ r ?d] => set (d0 := d) end.
    destruct (negb (dp_mem d0 p)); [apply IH|].
    destruct (relax_all_ok limit p m d0 H) as [dp' ->]. apply IH.
Qed.

Lemma find_best_path_ok m n limit gaps :
  nonempty_spans m -> exists paths, find_best_path m n limit gaps = Ok paths.
Proof.
  intro H. unfold find_best_path. destruct m as [|kv m']; [now eexists|].
  destruct (forward_ok limit gaps (kv :: m') (range 0 (n + 1))
              [(0, [((0 # 1)%Q, None, None)])] H) as [dp ->].
  match goal with |- context [if ?c then _ else _] => destruct c end; now eexists.
Qed.

Lemma segment_tokens_ok item : exists toks, segment_tokens chars lex item = Ok toks.
Proof.
  destruct item as [seg_text seg_off]. unfold segment_tokens.
  destruct (str_in seg_text PUNCTUATION_SEPARATORS); [now eexists|].
  destruct (find_best_path_ok (find_all_matches chars lex seg_text) (length seg_text) 1 true
              (find_all_matches_nonempty seg_text)) as [paths ->].
  destruct paths as [|[path sc] ?]; [now eexists|].
  destruct (path_tokens chars seg_text seg_off path 0) as [toks last_end].
  destruct (last_end <? length seg_text); now eexists.
Qed.

Lemma all_segment_tokens_ok segments acc :
  exists toks, all_segment_tokens chars lex segments acc = Ok toks.
Proof.
  revert acc. induction segments as [|item r IH]; simpl; intro acc; [now eexists|].
  destruct (segment_tokens_ok item) as [toks ->]. apply IH.
Qed.

Lemma tokenize_text_ok text : exists toks, tokenize_text chars lex text = Ok toks.
Proof.
  unfold tokenize_text, selected_tokens.
  destruct (all_segment_tokens_ok (split_segments text) []) as [toks ->]. now eexists.
Qed.

Lemma analyze_text_ok text limit : exists rs, analyze_text chars lex text limit = Ok rs.
Proof.
  unfold analyze_text.
  destruct (find_best_path_ok (find_all_matches chars lex text) (length text) limit true
              (find_all_matches_nonempty text)) as [paths ->]. now eexists.
Qed.

(** C3: [tokenize] raises exactly on empty or whitespace-only text, and
    [analyze] exactly on such text or on a limit below 1.  The error is
    the value of the guard alone: it is the same whatever the lexicon and
    the character tables are, so no lookup takes part in it; every other
    input gives a result. *)
Theorem facade_errors (text : str) (limit : Z) :
  (raises (tokenize chars lex normalize_NFC text) = true <-> whitespace_only text) /\
  (raises (analyze chars lex normalize_NFC text limit) = true <->
     whitespace_only text \/ (limit < 1)%Z) /\
  (whitespace_only text ->
     forall chars' lex' nfc',
       tokenize chars' lex' nfc' text =
         Raise (ValueError "text must be non-empty and not whitespace-only") /\
       analyze chars' lex' nfc' text limit =
         Raise (ValueError "text must be non-empty and not whitespace-only")) /\
  (~ whitespace_only text -> (limit < 1)%Z ->
     forall chars' lex' nfc',
       analyze chars' lex' nfc' text limit = Raise (ValueError "limit must be >= 1")).
Proof.
  pose proof (blank_check text) as B.
  unfold tokenize, analyze.
  destruct (is_empty text || is_empty (strip text)) eqn:E.
  - assert (W : whitespace_only text) by now apply B.
    repeat split; auto; intros; try contradiction.
  - assert (W : ~ whitespace_only text).
    { intro W. apply B in W. discriminate. }
    split; [|split; [|split]].
    + destruct (tokenize_text_ok (normalize_NFC text)) as [toks ->]. simpl.
      split; [discriminate | contradiction].
    + destruct (Z.ltb_spec limit 1) as [L|L]; simpl.
      * split; auto.
      * destruct (analyze_text_ok (normalize_NFC text) (Z.to_nat limit)) as [rs ->]. simpl.
        split; [discriminate | intros [?|?]; [contradiction | lia]].
    + intro; contradiction.
    + intros _ L chars' lex' nfc'. destruct (Z.ltb_spec limit 1); [reflexivity | lia].
Qed.

End CoreFacts.

(** ** Numbers *)

(** The five irregular readings of the thousands and hundreds. *)
Lemma number_to_kana_irregular :
  number_to_kana 3000 = u "さんぜん" /\
  number_to_kana 8000 = u "はっせん" /\
  number_to_kana 300 = u "さんびゃく" /\
  number_to_kana 600 = u "ろっぴゃく" /\
  number_to_kana 800 = u "はっぴゃく".
Proof. repeat split; vm_compute; reflexivity. Qed.

(** C9: [parse_number] does not give back one hundred thousand from its
    kanji numeral.  [十] sets [current] to 10, adds it to [result] and
    resets it, so [万] multiplies 1 instead of 10: the result is
    10 + 10000. *)
Theorem parse_number_juuman (unicode_digit : char -> option (option Z)) :
  unicode_digit (ch "十") = None ->
  parse_number unicode_digit (u "十万") = Ok (Some 10010%Z).
Proof.
  intro H.
  assert (P : arabic_prefix unicode_digit (u "十万") = []).
  { change (u "十万") with [ch "十"; ch "万"]. simpl.
    replace (char_get DIGIT_VALUES (ch "十")) with (@None Z) by (vm_compute; reflexivity).
    now rewrite H. }
  unfold parse_number. rewrite P.
  change (u "十万") with [ch "十"; ch "万"]. cbn [length Nat.eqb negb andb].
  vm_compute. reflexivity.
Qed.

Lemma parse_number_juuman_witness :
  no_other_digits (ch "十") = None /\
  parse_number no_other_digits (u "十万") = Ok (Some 10010%Z).
Proof.
  split; [reflexivity | apply (parse_number_juuman no_other_digits); reflexivity].
Defined.

(** ** Scores *)

Lemma particle_pos_iff (p : Z) : Z_in p PARTICLE_POS_IDS = true <-> p = 82%Z.
Proof.
  unfold Z_in, PARTICLE_POS_IDS. simpl. rewrite orb_false_r. rewrite Z.eqb_eq. reflexivity.
Qed.

Lemma valid_compound_words_long (s : str) :
  str_in s VALID_COMPOUND_WORDS = true -> 2 <= length s.
Proof.
  intro H. apply str_in_In in H.
  assert (A : forallb (fun w => 2 <=? length w) VALID_COMPOUND_WORDS = true)
    by (vm_compute; reflexivity).
  rewrite forallb_forall in A. apply A in H. now apply Nat.leb_le in H.
Qed.

Lemma score_base_components (chars : Characters) (surface : str) (e : WordEntry) :
  (score_base chars surface e ==
     (5 # 1) + (if has_kanji chars surface then 5 # 1 else 0 # 1)
     + commonness (cost e) + primary_reading (cost e)
     + (if Z_in (pos_id e) PARTICLE_POS_IDS then 3 # 1 else 0 # 1)
     + (if Z_in (pos_id e) PRONOUN_POS_IDS then 5 # 1 else 0 # 1))%Q.
Proof.
  unfold score_base, commonness, primary_reading.
  destruct (has_kanji chars surface); destruct (cost e <=? 10)%Z;
    destruct (cost e <=? 30)%Z; destruct (cost e <=? 50)%Z;
    destruct (cost e <? 20)%Z; destruct (cost e <? 40)%Z;
    destruct (Z_in (pos_id e) PARTICLE_POS_IDS);
    destruct (Z_in (pos_id e) PRONOUN_POS_IDS); ring.
Qed.

Section FloatScores.

Import Floats.
#[local] Set Warnings "-inexact-float".

Lemma float_score_base_components (chars : Characters) (surface : str) (e : WordEntry) :
  Float64.score_base chars surface e =
    (5.0 + (if has_kanji chars surface then 5.0 else 0.0)
     + Float64.commonness (cost e) + Float64.primary_reading (cost e)
     + (if Z_in (pos_id e) PARTICLE_POS_IDS then 3.0 else 0.0)
     + (if Z_in (pos_id e) PRONOUN_POS_IDS then 5.0 else 0.0))%float.
Proof.
  unfold Float64.score_base, Float64.commonness, Float64.primary_reading.
  destruct (has_kanji chars surface); destruct (cost e <=? 10)%Z;
    destruct (cost e <=? 30)%Z; destruct (cost e <=? 50)%Z;
    destruct (cost e <? 20)%Z; destruct (cost e <? 40)%Z;
    destruct (Z_in (pos_id e) PARTICLE_POS_IDS);
    destruct (Z_in (pos_id e) PRONOUN_POS_IDS); vm_compute; reflexivity.
Qed.

(** C5 (as the code has it): the base is the floor 5 plus the kanji,
    commonness, primary, particle and pronoun components; the length
    coefficient is read from the sequence at the mora length and is
    [3 * moras^2] beyond its end.  An entry whose POS is particle scores
    [15 - cost * 0.1], plus [5 * len^2] when it has more than one
    character; any other entry whose surface is one of the
    single-character particles scores [12 - cost * 0.1]; every other
    entry scores the scaled base [base * (1 + coeff * 0.1)] plus the
    conjugation bonus (15, and 40 more for a conditional in [ば]), 25 for
    a custom entry of three or more characters, 40 for a known compound
    word and the split adjustment, minus 30 when it has one character,
    and minus 30 when it ends in a particle after a key of the lexicon.
    The first seven parts state this for the exact rationals of the path
    selector, the last four for the binary64 numbers the scorer returns,
    with the operations in the order of the code. *)
Theorem segment_score_cases (chars : Characters) (lex : Lexicon) (surface : str)
  (e : WordEntry) :
  let score := calculate_segment_score chars lex surface e in
  let base := score_base chars surface e in
  let moras := score_m_len chars surface in
  let coeff := get_length_coeff moras (score_coeff_type chars surface e) in
  let split_adj := calculate_split_score_adjustment surface (seq e) in
  let fscore := Float64.calculate_segment_score chars lex surface e in
  let fbase := Float64.score_base chars surface e in
  let fcost := Float64.float_of_Z (cost e) in
  (base == (5 # 1) + (if has_kanji chars surface then 5 # 1 else 0 # 1)
           + commonness (cost e) + primary_reading (cost e)
           + (if Z_in (pos_id e) PARTICLE_POS_IDS then 3 # 1 else 0 # 1)
           + (if Z_in (pos_id e) PRONOUN_POS_IDS then 5 # 1 else 0 # 1))%Q /\
  (forall t, moras < length (coefficients t) ->
             get_length_coeff moras t = nth moras (coefficients t) 0%Z) /\
  (forall t, length (coefficients t) <= moras ->
             get_length_coeff moras t = (3 * Z.of_nat moras * Z.of_nat moras)%Z) /\
  (pos_id e = 82%Z ->
     (score == (15 # 1) - inject_Z (cost e) * (1 # 10)
               + (if 1 <? length surface
                  then inject_Z (5 * Z.of_nat (length surface) * Z.of_nat (length surface))
                  else 0 # 1))%Q) /\
  (pos_id e <> 82%Z -> length surface = 1 ->
     str_in surface SINGLE_CHAR_PARTICLES = true ->
     (score == (12 # 1) - inject_Z (cost e) * (1 # 10))%Q) /\
  (pos_id e <> 82%Z -> length surface = 1 ->
     str_in surface SINGLE_CHAR_PARTICLES = false ->
     (score == base * (1 + inject_Z coeff * (1 # 10))
               + conjugation_bonus surface e
               + inject_Z (calculate_split_score_adjustment surface (seq e))
               - (30 # 1))%Q) /\
  (pos_id e <> 82%Z ->
     (length surface =? 1) && str_in surface SINGLE_CHAR_PARTICLES = false ->
     (score == base * (1 + inject_Z coeff * (1 # 10))
               + conjugation_bonus surface e
               + compound_bonus surface e
               + inject_Z split_adj
               - penalties lex surface)%Q) /\
  fbase = (5.0 + (if has_kanji chars surface then 5.0 else 0.0)
           + Float64.commonness (cost e) + Float64.primary_reading (cost e)
           + (if Z_in (pos_id e) PARTICLE_POS_IDS then 3.0 else 0.0)
           + (if Z_in (pos_id e) PRONOUN_POS_IDS then 5.0 else 0.0))%float /\
  (pos_id e = 82%Z ->
     fscore = if 1 <? length surface
              then (15.0 - fcost * 0.1
                    + Float64.float_of_Z (Z.of_nat (length surface * length surface * 5)))%float
              else (15.0 - fcost * 0.1)%float) /\
  (pos_id e <> 82%Z -> length surface = 1 ->
     str_in surface SINGLE_CHAR_PARTICLES = true ->
     fscore = (12.0 - fcost * 0.1)%float) /\
  (pos_id e <> 82%Z ->
     (length surface =? 1) && str_in surface SINGLE_CHAR_PARTICLES = false ->
     let s := (fbase * (1.0 + Float64.float_of_Z coeff * 0.1))%float in
     let s := if (0 <? conj_type e)%Z then (s + 15.0)%float else s in
     let s := if (0 <? conj_type e)%Z && (conj_type e =? 4)%Z && endswith surface (u "ば")
              then (s + 40.0)%float else s in
     let s := if (cost e =? 5)%Z && (3 <=? length surface) then (s + 25.0)%float else s in
     let s := if str_in surface VALID_COMPOUND_WORDS then (s + 40.0)%float else s in
     let s := (s + Float64.float_of_Z split_adj)%float in
     let s := if length surface =? 1 then (s - 30.0)%float else s in
     let s := if ends_in_particle lex surface then (s - 30.0)%float else s in
     fscore = s).
Proof.
  cbv zeta. split; [apply score_base_components|].
  assert (NP : pos_id e <> 82%Z -> Z_in (pos_id e) PARTICLE_POS_IDS = false).
  { intro P. destruct (Z_in (pos_id e) PARTICLE_POS_IDS) eqn:E; [|reflexivity].
    apply particle_pos_iff in E. contradiction. }
  split; [|split; [|split; [|split; [|split; [|split; [|split; [|split; [|split]]]]]]]].
  - intros t H. unfold get_length_coeff. fold (coefficients t).
    apply Nat.ltb_lt in H. now rewrite H.
  - intros t H. unfold get_length_coeff. fold (coefficients t).
    apply Nat.ltb_ge in H. rewrite H. lia.
  - intro P. apply particle_pos_iff in P. unfold calculate_segment_score. rewrite P.
    destruct (1 <? length surface).
    + rewrite Nat2Z.inj_mul, Nat2Z.inj_mul. rewrite !inject_Z_mult. simpl inject_Z. ring.
    + ring.
  - intros P L S. unfold calculate_segment_score. rewrite (NP P).
    rewrite L, S. simpl. reflexivity.
  - intros P L S. unfold calculate_segment_score. rewrite (NP P).
    rewrite L, S. simpl.
    unfold score_length_score. rewrite L. rewrite andb_false_r.
    destruct (str_in surface VALID_COMPOUND_WORDS) eqn:V.
    { apply valid_compound_words_long in V. lia. }
    unfold conjugation_bonus.
    destruct (0 <? conj_type e)%Z;
      [destruct ((conj_type e =? 4)%Z && endswith surface (u "ば"))|]; ring.
  - intros P S. unfold calculate_segment_score. rewrite (NP P), S.
    unfold score_length_score, conjugation_bonus, compound_bonus, penalties,
      ends_in_particle.
    destruct (length surface =? 1); destruct (2 <? length surface);
      destruct (str_in surface VALID_COMPOUND_WORDS);
      destruct (str_in (skipn (length surface - 1) surface) SINGLE_CHAR_PARTICLES);
      destruct (contains lex (drop_last 1 surface));
      destruct (0 <? conj_type e)%Z;
      destruct ((conj_type e =? 4)%Z && endswith surface (u "ば"));
      destruct ((cost e =? 5)%Z && (3 <=? length surface));
      cbn [andb negb]; ring.
  - apply float_score_base_components.
  - intro P. apply particle_pos_iff in P. unfold Float64.calculate_segment_score.
    rewrite P. reflexivity.
  - intros P L S. unfold Float64.calculate_segment_score. rewrite (NP P).
    rewrite L, S. reflexivity.
  - intros P S. unfold Float64.calculate_segment_score. rewrite (NP P), S.
    unfold Float64.score_length_score, ends_in_particle.
    destruct (length surface =? 1); destruct (2 <? length surface);
      destruct (str_in surface VALID_COMPOUND_WORDS);
      destruct (str_in (skipn (length surface - 1) surface) SINGLE_CHAR_PARTICLES);
      destruct (contains lex (drop_last 1 surface));
      destruct (0 <? conj_type e)%Z;
      destruct (conj_type e =? 4)%Z; destruct (endswith surface (u "ば"));
      destruct ((cost e =? 5)%Z && (3 <=? length surface));
      reflexivity.
Qed.

(** A one-character noun [か] is scored by the single-character-particle
    rule, not by the general path with its penalty of 30, in either
    arithmetic. *)
Lemma single_char_particle_surface_not_penalised :
  pos_id entry_ka <> 82%Z /\ length (u "か") = 1 /\
  ~ (calculate_segment_score spec_chars lexicon_ka (u "か") entry_ka ==
     score_length_score spec_chars (u "か") entry_ka - (30 # 1))%Q /\
  Float64.calculate_segment_score spec_chars lexicon_ka (u "か") entry_ka
  <> (Float64.score_length_score spec_chars (u "か") entry_ka - 30.0)%float.
Proof.
  split; [discriminate|]. split; [reflexivity|]. split.
  - intro H. vm_compute in H. discriminate.
  - intro H. vm_compute in H. discriminate.
Qed.

Lemma segment_score_cases_witness :
  (calculate_segment_score spec_chars lexicon_ka (u "から") entry_kara ==
     (15 # 1) - inject_Z (cost entry_kara) * (1 # 10)
     + (if 1 <? length (u "から")
        then inject_Z (5 * Z.of_nat (length (u "から")) * Z.of_nat (length (u "から")))
        else 0 # 1))%Q /\
  (calculate_segment_score spec_chars lexicon_ka (u "か") entry_ka ==
     (12 # 1) - inject_Z (cost entry_ka) * (1 # 10))%Q /\
  (calculate_segment_score spec_chars lexicon_ka (u "木") entry_ki ==
     score_base spec_chars (u "木") entry_ki
     * (1 + inject_Z (get_length_coeff (score_m_len spec_chars (u "木"))
                        (score_coeff_type spec_chars (u "木") entry_ki)) * (1 # 10))
     + conjugation_bonus (u "木") entry_ki
     + inject_Z (calculate_split_score_adjustment (u "木") (seq entry_ki))
     - (30 # 1))%Q /\
  (calculate_segment_score spec_chars lexicon_ka (u "食べ物") entry_tabemono ==
     score_base spec_chars (u "食べ物") entry_tabemono
     * (1 + inject_Z (get_length_coeff (score_m_len spec_chars (u "食べ物"))
                        (score_coeff_type spec_chars (u "食べ物") entry_tabemono)) * (1 # 10))
     + conjugation_bonus (u "食べ物") entry_tabemono
     + compound_bonus (u "食べ物") entry_tabemono
     + inject_Z (calculate_split_score_adjustment (u "食べ物") (seq entry_tabemono))
     - penalties lexicon_ka (u "食べ物"))%Q /\
  Float64.calculate_segment_score spec_chars lexicon_ka (u "から") entry_kara_41
  = (15.0 - Float64.float_of_Z 41 * 0.1
     + Float64.float_of_Z (Z.of_nat (length (u "から") * length (u "から") * 5)))%float.
Proof.
  split; [|split; [|split; [|split]]].
  - destruct (segment_score_cases spec_chars lexicon_ka (u "から") entry_kara)
      as (_ & _ & _ & H & _).
    apply H. reflexivity.
  - destruct (segment_score_cases spec_chars lexicon_ka (u "か") entry_ka)
      as (_ & _ & _ & _ & H & _).
    apply H; [discriminate | reflexivity | reflexivity].
  - destruct (segment_score_cases spec_chars lexicon_ka (u "木") entry_ki)
      as (_ & _ & _ & _ & _ & H & _).
    apply H; [discriminate | reflexivity | reflexivity].
  - destruct (segment_score_cases spec_chars lexicon_ka (u "食べ物") entry_tabemono)
      as (_ & _ & _ & _ & _ & _ & H & _).
    apply H; [discriminate | reflexivity].
  - destruct (segment_score_cases spec_chars lexicon_ka (u "から") entry_kara_41)
      as (_ & _ & _ & _ & _ & _ & _ & _ & H & _).
    apply H. reflexivity.
Defined.

(** The scores are binary64 numbers, not the real numbers of the
    formulas: a particle of cost 41 scores [15.0 - 41 * 0.1], which is
    10.899999999999999, below the [12.0 - 11 * 0.1 = 10.9] of a
    one-character [か] of cost 11; in exact arithmetic the two are
    equal. *)
Lemma float_scores_are_rounded :
  Float64.calculate_segment_score spec_chars lexicon_ka (u "から") entry_kara_41
  = (10.899999999999999 + 20.0)%float /\
  Float64.calculate_segment_score spec_chars lexicon_ka (u "か") entry_ka_11 = 10.9%float /\
  PrimFloat.ltb (15.0 - Float64.float_of_Z 41 * 0.1) (12.0 - Float64.float_of_Z 11 * 0.1)
  = true /\
  ((15 # 1) - inject_Z 41 * (1 # 10) == (12 # 1) - inject_Z 11 * (1 # 10))%Q.
Proof.
  split; [vm_compute; reflexivity|]. split; [vm_compute; reflexivity|].
  split; [vm_compute; reflexivity|]. reflexivity.
Qed.

End FloatScores.

(** ** Patterns over token surfaces *)

Lemma find_pattern_some {R : Type} (patterns : list (list str * R)) (tokens : list Token)
  (p : list str) (r : R) :
  find_pattern patterns tokens = Some (p, r) ->
  In (p, r) patterns /\ length p <= length tokens /\
  map surface (firstn (length p) tokens) = p.
Proof.
  induction patterns as [|[q r'] rest IH]; simpl; [discriminate|].
  destruct ((length q <=? length tokens) &&
            strs_eqb (map surface (firstn (length q) tokens)) q) eqn:E.
  - intro H. injection H as -> ->. apply andb_true_iff in E as [L M].
    apply Nat.leb_le in L. apply strs_eqb_eq in M. auto.
  - intro H. destruct (IH H) as (I & L & M). auto.
Qed.

Lemma firstn_skipn_lengths {A : Type} (n : nat) (l : list A) :
  n <= length l -> length (firstn n l) = n /\ length (skipn n l) = length l - n.
Proof. intro H. rewrite length_firstn, length_skipn. lia. Qed.

(** ** The compound-verb merge pass *)

Lemma merge_compound_verbs_loop_groups (n : nat) :
  forall tokens, length tokens <= n ->
    regrouped compound_merge_step tokens (merge_compound_verbs_loop tokens).
Proof.
  induction n as [|n IH]; intros tokens L.
  - destruct tokens; [|simpl in L; lia]. exists []. split; [reflexivity | constructor].
  - destruct tokens as [|c [|nx r]].
    + exists []. split; [reflexivity | constructor].
    + exists [[c]]. split; [reflexivity|]. constructor; [now left | constructor].
    + simpl in L. cbn [merge_compound_verbs_loop].
      destruct (compound_verb_pair c nx).
      * destruct (IH r) as (gs & C & F); [lia|].
        exists ([c; nx] :: gs). split; [simpl; now rewrite C|].
        constructor; [|assumption]. right. now exists c, nx.
      * destruct (IH (nx :: r)) as (gs & C & F); [simpl; lia|].
        exists ([c] :: gs). split; [simpl; now rewrite C|].
        constructor; [now left | assumption].
Qed.

Lemma regrouped_singletons (step : list Token -> Token -> Prop) (tokens : list Token) :
  (forall t, step [t] t) -> regrouped step tokens tokens.
Proof.
  intro S. exists (map (fun t => [t]) tokens). split.
  - induction tokens as [|t r IH]; simpl; [reflexivity | now rewrite IH].
  - induction tokens as [|t r IH]; simpl; constructor; auto.
Qed.

Lemma merge_compound_verbs_groups (tokens : list Token) :
  regrouped compound_merge_step tokens (merge_compound_verbs tokens).
Proof.
  unfold merge_compound_verbs. destruct (length tokens <? 2).
  - apply regrouped_singletons. intro t. now left.
  - now apply (merge_compound_verbs_loop_groups (length tokens)).
Qed.

Lemma merge_compound_verbs_loop_shrinks (n : nat) :
  forall tokens, length tokens <= n ->
    length (merge_compound_verbs_loop tokens) <= length tokens /\
    (length (merge_compound_verbs_loop tokens) = length tokens ->
     merge_compound_verbs_loop tokens = tokens).
Proof.
  induction n as [|n IH]; intros tokens L.
  - destruct tokens; [|simpl in L; lia]. simpl. auto.
  - destruct tokens as [|c [|nx r]]; [simpl; auto | simpl; auto |].
    simpl in L. cbn [merge_compound_verbs_loop].
    destruct (compound_verb_pair c nx).
    + destruct (IH r) as (A & _); [lia|]. simpl. split; lia.
    + destruct (IH (nx :: r)) as (A & B); [simpl; lia|]. simpl in *. split; [lia|].
      intro E. f_equal. apply B. lia.
Qed.

Lemma merge_compound_verbs_shrinks (tokens : list Token) :
  length (merge_compound_verbs tokens) <= length tokens /\
  (length (merge_compound_verbs tokens) = length tokens ->
   merge_compound_verbs tokens = tokens).
Proof.
  unfold merge_compound_verbs. destruct (length tokens <? 2); [auto|].
  now apply (merge_compound_verbs_loop_shrinks (length tokens)).
Qed.

(** ** The multi-token merge pass *)

(** Every merged text of the table spells its pattern, and every pattern
    has at least two tokens. *)
Lemma sorted_patterns_sound (p : list str) (m : str) :
  In (p, m) sorted_patterns -> concat p = m /\ 2 <= length p.
Proof.
  intro H.
  assert (A : forallb (fun pm : list str * str =>
                         str_eqb (concat (fst pm)) (snd pm) && (2 <=? length (fst pm)))
                      sorted_patterns = true) by (vm_compute; reflexivity).
  rewrite forallb_forall in A. apply A in H. cbn [fst snd] in H.
  apply andb_true_iff in H as [E L]. apply str_eqb_eq in E. apply Nat.leb_le in L. auto.
Qed.

Lemma multi_merge_loop_groups (fuel : nat) :
  forall tokens, length tokens <= fuel ->
    regrouped multi_merge_step tokens (multi_merge_loop fuel tokens).
Proof.
  induction fuel as [|fuel IH]; intros tokens L.
  - destruct tokens; [|simpl in L; lia]. exists []. split; [reflexivity | constructor].
  - destruct tokens as [|t rest].
    + exists []. split; [reflexivity | constructor].
    + cbn [multi_merge_loop].
      destruct (find_pattern sorted_patterns (t :: rest)) as [[p m]|] eqn:F.
      * destruct (find_pattern_some _ _ _ _ F) as (I & Lp & M).
        destruct (sorted_patterns_sound _ _ I) as (C & L2).
        destruct (firstn_skipn_lengths (length p) (t :: rest) Lp) as (Lf & Ls).
        destruct (IH (skipn (length p) (t :: rest))) as (gs & Cg & Fg).
        { rewrite Ls. cbn [length] in *. lia. }
        exists (firstn (length p) (t :: rest) :: gs). split.
        { simpl concat. rewrite Cg. apply firstn_skipn. }
        constructor; [|assumption]. right.
        destruct (length p) as [|[|k]] eqn:Ek; try lia.
        exists t, (firstn (S k) rest), m. repeat split.
        -- simpl in Lf. destruct rest; [simpl in Lf; lia | discriminate].
        -- rewrite M. exact C.
      * destruct (IH rest) as (gs & Cg & Fg); [simpl in L; lia|].
        exists ([t] :: gs). split; [simpl; now rewrite Cg|].
        constructor; [now left | assumption].
Qed.

Lemma apply_multi_token_merges_groups (tokens : list Token) :
  regrouped multi_merge_step tokens (apply_multi_token_merges tokens).
Proof.
  unfold apply_multi_token_merges. destruct (length tokens <? 2).
  - apply regrouped_singletons. intro t. now left.
  - now apply multi_merge_loop_groups.
Qed.

Lemma multi_merge_loop_shrinks (fuel : nat) :
  forall tokens, length tokens <= fuel ->
    length (multi_merge_loop fuel tokens) <= length tokens /\
    (length (multi_merge_loop fuel tokens) = length tokens ->
     multi_merge_loop fuel tokens = tokens).
Proof.
  induction fuel as [|fuel IH]; intros tokens L.
  - destruct tokens; [|simpl in L; lia]. simpl. auto.
  - destruct tokens as [|t rest]; [simpl; auto|].
    cbn [multi_merge_loop].
    destruct (find_pattern sorted_patterns (t :: rest)) as [[p m]|] eqn:F.
    + destruct (find_pattern_some _ _ _ _ F) as (I & Lp & M).
      destruct (sorted_patterns_sound _ _ I) as (C & L2).
      destruct (firstn_skipn_lengths (length p) (t :: rest) Lp) as (Lf & Ls).
      destruct (IH (skipn (length p) (t :: rest))) as (A & _).
      { rewrite Ls. cbn [length] in *. lia. }
      cbn [length] in *. split; lia.
    + destruct (IH rest) as (A & B); [simpl in L; lia|]. cbn [length]. split; [lia|].
      intro E. f_equal. apply B. lia.
Qed.

Lemma apply_multi_token_merges_shrinks (tokens : list Token) :
  length (apply_multi_token_merges tokens) <= length tokens /\
  (length (apply_multi_token_merges tokens) = length tokens ->
   apply_multi_token_merges tokens = tokens).
Proof.
  unfold apply_multi_token_merges. destruct (length tokens <? 2); [auto|].
  now apply multi_merge_loop_shrinks.
Qed.

(** ** Repeating a pass until the number of tokens is stable *)

Lemma until_stable_fixed (pass : list Token -> list Token) :
  (forall l, length (pass l) <= length l) ->
  (forall l, length (pass l) = length l -> pass l = l) ->
  forall fuel prev_len tokens,
    (Z.of_nat (length tokens) = prev_len -> pass tokens = tokens) ->
    (Z.of_nat (length tokens) <> prev_len -> length tokens + 2 <= fuel) ->
    pass (until_stable pass fuel prev_len tokens) = until_stable pass fuel prev_len tokens.
Proof.
  intros Hle Hfix. induction fuel as [|fuel IH]; intros prev_len tokens Hsame Hfuel.
  - simpl. apply Hsame. destruct (Z.eq_dec (Z.of_nat (length tokens)) prev_len) as [E|E];
      [assumption | apply Hfuel in E; lia].
  - simpl. destruct (Z.eqb_spec (Z.of_nat (length tokens)) prev_len) as [E|E].
    + now apply Hsame.
    + apply IH.
      * intro E'. apply Nat2Z.inj in E'. rewrite (Hfix tokens E'). now apply Hfix.
      * intro E'. specialize (Hfuel E). specialize (Hle tokens).
        assert (length (pass tokens) <> length tokens) by (intro X; apply E'; now rewrite X).
        lia.
Qed.

Lemma repeat_pass_fixed (pass : list Token -> list Token) (tokens : list Token) :
  (forall l, length (pass l) <= length l) ->
  (forall l, length (pass l) = length l -> pass l = l) ->
  pass (repeat_pass pass tokens) = repeat_pass pass tokens.
Proof.
  intros Hle Hfix. unfold repeat_pass. apply until_stable_fixed; try assumption; lia.
Qed.

(** ** The merge patterns of the split module *)

Lemma merge_patterns_sound (p : list str) (m : str) :
  In (p, m) MERGE_PATTERNS -> concat p = m /\ 2 <= length p.
Proof.
  intro H.
  assert (A : forallb (fun pm : list str * str =>
                         str_eqb (concat (fst pm)) (snd pm) && (2 <=? length (fst pm)))
                      MERGE_PATTERNS = true) by (vm_compute; reflexivity).
  rewrite forallb_forall in A. apply A in H. cbn [fst snd] in H.
  apply andb_true_iff in H as [E L]. apply str_eqb_eq in E. apply Nat.leb_le in L. auto.
Qed.

Lemma merge_patterns_loop_shrinks (lex : Lexicon) (fuel : nat) :
  forall tokens, length tokens <= fuel ->
    length (merge_patterns_loop lex fuel tokens) <= length tokens /\
    (length (merge_patterns_loop lex fuel tokens) = length tokens ->
     merge_patterns_loop lex fuel tokens = tokens).
Proof.
  induction fuel as [|fuel IH]; intros tokens L.
  - destruct tokens; [|simpl in L; lia]. simpl. auto.
  - destruct tokens as [|t rest]; [simpl; auto|].
    cbn [merge_patterns_loop].
    destruct (match rest with
              | next_token :: _ => pair_merge lex t next_token
              | [] => None
              end) as [mt|] eqn:PM.
    + destruct rest as [|nx rest']; [discriminate|].
      destruct (IH rest') as (A & _); [simpl in L; lia|].
      cbn [skipn length] in *. split; lia.
    + destruct (find_pattern MERGE_PATTERNS (t :: rest)) as [[p m]|] eqn:F.
      * destruct (find_pattern_some _ _ _ _ F) as (I & Lp & M).
        destruct (merge_patterns_sound _ _ I) as (C & L2).
        destruct (firstn_skipn_lengths (length p) (t :: rest) Lp) as (Lf & Ls).
        destruct (IH (skipn (length p) (t :: rest))) as (A & _).
        { rewrite Ls. cbn [length] in *. lia. }
        cbn [length] in *. split; lia.
      * destruct (IH rest) as (A & B); [simpl in L; lia|]. cbn [length]. split; [lia|].
        intro E. f_equal. apply B. lia.
Qed.

Lemma apply_merge_patterns_shrinks (lex : Lexicon) (tokens : list Token) :
  length (apply_merge_patterns lex tokens) <= length tokens /\
  (length (apply_merge_patterns lex tokens) = length tokens ->
   apply_merge_patterns lex tokens = tokens).
Proof.
  unfold apply_merge_patterns. destruct (length tokens <? 2); [auto|].
  now apply merge_patterns_loop_shrinks.
Qed.

(** ** What the merge passes keep *)

Lemma regrouped_impl (step step' : list Token -> Token -> Prop) (tokens out : list Token) :
  (forall g t, step g t -> step' g t) ->
  regrouped step tokens out -> regrouped step' tokens out.
Proof.
  intros I (gs & C & F). exists gs. split; [assumption|].
  revert F. apply Forall2_impl. exact I.
Qed.

Lemma last_default {A : Type} (l : list A) (d d' : A) : l <> [] -> last l d = last l d'.
Proof.
  induction l as [|x [|y r] IH]; intro N; [contradiction | reflexivity |].
  change (last (y :: r) d = last (y :: r) d'). apply IH. discriminate.
Qed.

Lemma compound_step_preserves (g : list Token) (t : Token) :
  compound_merge_step g t -> passes_or_merges g t.
Proof.
  intros [E | (a & b & E & T)]; [now left | right]. subst. simpl.
  rewrite app_nil_r. repeat split; lia.
Qed.

Lemma multi_step_preserves (g : list Token) (t : Token) :
  multi_merge_step g t -> passes_or_merges g t.
Proof.
  intros [E | (f & r & m & E & N & C & T)]; [now left | right]. subst g.
  destruct r as [|x r]; [contradiction|]. subst t. cbn [multi_merge_token surface start end_ hd].
  repeat split; [simpl; lia | now rewrite C |].
  f_equal. apply last_default. discriminate.
Qed.

(** C10: a merge pass only regroups consecutive tokens; a group of two
    or more tokens becomes one token with the concatenated surface, the
    start of the first and the end of the last token, and every other
    token is passed through unchanged. *)
Theorem merge_passes_preserve_text (tokens : list Token) :
  regrouped passes_or_merges tokens (merge_compound_verbs tokens) /\
  regrouped passes_or_merges tokens (apply_multi_token_merges tokens).
Proof.
  split.
  - apply (regrouped_impl compound_merge_step); [apply compound_step_preserves|].
    apply merge_compound_verbs_groups.
  - apply (regrouped_impl multi_merge_step); [apply multi_step_preserves|].
    apply apply_multi_token_merges_groups.
Qed.

(** C8 (as the code has it): each merge loop stops at a fixed point of
    its pass: applying the pass once more to the output of the loop
    changes nothing. *)
Theorem merge_loops_reach_fixed_point (lex : Lexicon) (tokens : list Token) :
  merge_compound_verbs (repeat_pass merge_compound_verbs tokens)
    = repeat_pass merge_compound_verbs tokens /\
  apply_multi_token_merges (repeat_pass apply_multi_token_merges tokens)
    = repeat_pass apply_multi_token_merges tokens /\
  apply_merge_patterns lex (repeat_pass (apply_merge_patterns lex) tokens)
    = repeat_pass (apply_merge_patterns lex) tokens.
Proof.
  split; [|split]; apply repeat_pass_fixed; intro l.
  - apply merge_compound_verbs_shrinks.
  - apply merge_compound_verbs_shrinks.
  - apply apply_multi_token_merges_shrinks.
  - apply apply_multi_token_merges_shrinks.
  - now apply apply_merge_patterns_shrinks.
  - now apply apply_merge_patterns_shrinks.
Qed.

(** The rewriter changes its own output.  The selector cuts
    [暑くなりましたね] into [暑 | く | なりました | ね]; the rewriter of
    [tokenize] makes [暑く | なりました | ね] of it (one substitution), and
    run once more on that output it makes [暑くなりましたね] (another
    substitution). *)
Lemma rewriter_not_idempotent :
  exists x y,
    selected_tokens spec_chars lexicon_atsuku (u "暑くなりましたね") = Ok x /\
    map surface x = [u "暑"; u "く"; u "なりました"; u "ね"] /\
    tokenize spec_chars lexicon_atsuku already_NFC (u "暑くなりましたね") = Ok y /\
    y = rewrite_tokens spec_chars lexicon_atsuku x /\
    map surface y = [u "暑く"; u "なりました"; u "ね"] /\
    map surface (rewrite_tokens spec_chars lexicon_atsuku y) = [u "暑くなりましたね"] /\
    rewrite_tokens spec_chars lexicon_atsuku y <> y.
Proof.
  eexists. eexists.
  split; [vm_compute; reflexivity|]. split; [vm_compute; reflexivity|].
  split; [vm_compute; reflexivity|]. split; [vm_compute; reflexivity|].
  split; [vm_compute; reflexivity|]. split; [vm_compute; reflexivity|].
  intro H. apply (f_equal (@length Token)) in H. vm_compute in H. discriminate.
Qed.

(** ** New tokens of the rewriter *)

Lemma looked_up_token_fields (lex : Lexicon) (part rd : str) (d : string) (a b : nat) :
  let t := looked_up_token lex part rd d a b in
  surface t = part /\ reading t = rd /\ pos t = d /\ start t = a /\ end_ t = b.
Proof. unfold looked_up_token. destruct (lookup lex part); simpl; auto. Qed.

Lemma part_tokens_spec (lex : Lexicon) (parts : list str) :
  forall s,
    map surface (part_tokens lex parts s) = parts /\
    laid_out s (part_tokens lex parts s) /\
    Forall (fun p => reading p = surface p) (part_tokens lex parts s).
Proof.
  induction parts as [|part rest IH]; intro s; simpl; [auto|].
  destruct (looked_up_token_fields lex part part "unk" s (s + length part))
    as (S & R & _ & A & B).
  destruct (IH (s + length part)) as (M & L & F).
  rewrite S, M, A, B. repeat split; try lia.
  - assumption.
  - constructor; [congruence | assumption].
Qed.

Lemma compound_step_recomputed (g : list Token) (t : Token) :
  compound_merge_step g t -> merge_recomputed g t.
Proof.
  intros [E | (a & b & E & T)]; [now left | right]. subst.
  exists a, [b]. simpl. rewrite app_nil_r. repeat split. discriminate.
Qed.

Lemma multi_step_recomputed (g : list Token) (t : Token) :
  multi_merge_step g t -> merge_recomputed g t.
Proof.
  intros [E | (f & r & m & E & N & C & T)]; [now left | right]. subst g t.
  exists f, r. cbn [multi_merge_token start end_ pos reading].
  repeat split; try assumption. destruct r; [contradiction | reflexivity].
Qed.

(** C7 (as the code has it): a token made by a merge pass of the
    tokenizer spans its group, has the POS of the group's first token and
    the readings of the group put together; the tokens made by the split
    pass spell the parts, lie one after the other from the start of the
    token they replace, and each has its own surface as reading. *)
Theorem new_tokens_recomputed (chars : Characters) (lex : Lexicon) (tokens : list Token) :
  regrouped merge_recomputed tokens (merge_compound_verbs tokens) /\
  regrouped merge_recomputed tokens (apply_multi_token_merges tokens) /\
  exists outs,
    concat outs = split_tokens chars lex tokens /\
    Forall2 (fun t out => split_recomputed (split_token chars lex (surface t)) t out)
            tokens outs.
Proof.
  split; [|split].
  - apply (regrouped_impl compound_merge_step); [apply compound_step_recomputed|].
    apply merge_compound_verbs_groups.
  - apply (regrouped_impl multi_merge_step); [apply multi_step_recomputed|].
    apply apply_multi_token_merges_groups.
  - unfold split_tokens. rewrite flat_map_concat_map.
    eexists. split; [reflexivity|].
    induction tokens as [|t r IH]; simpl; constructor; [|assumption].
    destruct (Nat.eqb_spec (length (split_token chars lex (surface t))) 1) as [E|E].
    + left. auto.
    + right. split; [assumption|]. apply part_tokens_spec.
Qed.

(** The reading of a merged token is not looked up: with a lexicon that
    does not know [食べている], the merge of [食べて] (read [たべて]) and
    [いる] is read [たべている], not as its surface. *)
Lemma merged_reading_not_looked_up :
  merge_compound_verbs [tabete; iru] = [merge_pair tabete iru] /\
  lookup empty_lexicon (surface (merge_pair tabete iru)) = [] /\
  reading (merge_pair tabete iru) = u "たべている" /\
  reading (merge_pair tabete iru) <> surface (merge_pair tabete iru).
Proof.
  split; [vm_compute; reflexivity|]. split; [reflexivity|].
  split; [vm_compute; reflexivity|].
  intro H. vm_compute in H. discriminate.
Qed.

(** ** Sorting *)

Lemma insert_by_key_In {A : Type} (key : A -> Q) (x z : A) (l : list A) :
  In z (insert_by_key key x l) -> z = x \/ In z l.
Proof.
  induction l as [|y r IH]; simpl.
  - intros [E|[]]; auto.
  - destruct (Qle_bool (key x) (key y)); simpl.
    + intros [E|H]; auto.
    + intros [E|H]; [auto | destruct (IH H); auto].
Qed.

Lemma insert_by_key_sorted {A : Type} (key : A -> Q) (x : A) (l : list A) :
  StronglySorted (fun a b => (key a <= key b)%Q) l ->
  StronglySorted (fun a b => (key a <= key b)%Q) (insert_by_key key x l).
Proof.
  induction l as [|y r IH]; simpl; intro S.
  - constructor; constructor.
  - inversion S as [|? ? Sr Fy]; subst.
    destruct (Qle_bool (key x) (key y)) eqn:E.
    + apply Qle_bool_iff in E. constructor; [assumption|].
      constructor; [assumption|].
      rewrite Forall_forall in *. intros z Hz. eapply Qle_trans; [exact E | auto].
    + constructor; [now apply IH|].
      rewrite Forall_forall in *. intros z Hz.
      destruct (insert_by_key_In key x z r Hz) as [->|Hr]; [|auto].
      destruct (Qlt_le_dec (key y) (key x)) as [Lt|Le].
      * now apply Qlt_le_weak.
      * apply Qle_bool_iff in Le. congruence.
Qed.

Lemma sorted_is_sorted {A : Type} (key : A -> Q) (l : list A) :
  StronglySorted (fun a b => (key a <= key b)%Q) (sorted key l).
Proof.
  induction l as [|x r IH]; simpl; [constructor | now apply insert_by_key_sorted].
Qed.

Lemma In_firstn {A : Type} (n : nat) (l : list A) (z : A) : In z (firstn n l) -> In z l.
Proof.
  revert n. induction l as [|x r IH]; intros [|n]; simpl; try tauto.
  intros [E|H]; [auto | right; eapply IH; eauto].
Qed.

Lemma StronglySorted_firstn {A : Type} (R : A -> A -> Prop) (n : nat) (l : list A) :
  StronglySorted R l -> StronglySorted R (firstn n l).
Proof.
  revert n. induction l as [|x r IH]; intros [|n] S; simpl; try constructor.
  - inversion S; subst. now apply IH.
  - inversion S as [|? ? Sr F]; subst. rewrite Forall_forall in *.
    intros z Hz. apply F. eapply In_firstn; eauto.
Qed.

Lemma StronglySorted_map {A B : Type} (R : A -> A -> Prop) (R' : B -> B -> Prop)
  (f : A -> B) (l : list A) :
  (forall a b, R a b -> R' (f a) (f b)) ->
  StronglySorted R l -> StronglySorted R' (map f l).
Proof.
  intros I S. induction S as [|x r Sr IH F]; simpl; constructor; [assumption|].
  rewrite Forall_forall in *. intros z Hz. apply in_map_iff in Hz as (a & <- & Ha). auto.
Qed.

Lemma find_best_path_sorted (m : matches_t) (n limit : nat) (gaps : bool)
  (rs : list (list Segment * Q)) :
  find_best_path m n limit gaps = Ok rs ->
  length rs <= limit /\ scores_non_increasing rs.
Proof.
  unfold find_best_path, scores_non_increasing. destruct m as [|kv m'].
  - intro H. injection H as <-. simpl. split; [lia | constructor].
  - destruct (forward limit gaps (kv :: m') (range 0 (n + 1)) _) as [dp|e]; [|discriminate].
    match goal with |- context [if ?c then _ else _] => destruct c end.
    + intro H. injection H as <-. simpl. split; [lia | constructor].
    + intro H. injection H as <-. split.
      * rewrite length_map, length_firstn. lia.
      * eapply StronglySorted_map; [|apply StronglySorted_firstn, sorted_is_sorted].
        intros a b. simpl. intro L. now apply Qopp_le_compat in L; rewrite !Qopp_involutive in L.
Qed.

Section KBest.

Variable chars : Characters.
Variable lex : Lexicon.
Variable normalize_NFC : str -> str.

(** C4 (as the code has it): for valid text and [k >= 1], [analyze]
    returns at most [k] candidates, best score first.  The candidates are
    paths of the lattice as the selector found them; the rewriter is not
    run on them. *)
Theorem analyze_k_best (text : str) (k : Z) :
  ~ whitespace_only text -> (1 <= k)%Z ->
  exists rs,
    analyze chars lex normalize_NFC text k = Ok rs /\
    length rs <= Z.to_nat k /\
    scores_non_increasing rs.
Proof.
  intros W K. unfold analyze.
  destruct (is_empty text || is_empty (strip text)) eqn:E.
  { apply blank_check in E. contradiction. }
  destruct (Z.ltb_spec k 1); [lia|].
  unfold analyze_text.
  destruct (find_best_path (find_all_matches chars lex (normalize_NFC text))
              (length (normalize_NFC text)) (Z.to_nat k) true) as [paths|e] eqn:F.
  - destruct (find_best_path_sorted _ _ _ _ _ F) as (L & S).
    eexists. split; [reflexivity|]. split; [now rewrite length_map|].
    unfold scores_non_increasing in *.
    eapply StronglySorted_map; [|exact S]. intros a b. simpl. auto.
  - destruct (find_best_path_ok (find_all_matches chars lex (normalize_NFC text))
                (length (normalize_NFC text)) (Z.to_nat k) true
                (find_all_matches_nonempty chars lex _)) as [paths P].
    congruence.
Qed.

End KBest.

Lemma analyze_k_best_witness :
  ~ whitespace_only (u "今日は") /\ (1 <= 3)%Z /\
  exists rs,
    analyze spec_chars lexicon_kyouwa already_NFC (u "今日は") 3 = Ok rs /\
    length rs <= Z.to_nat 3 /\
    scores_non_increasing rs.
Proof.
  assert (W : ~ whitespace_only (u "今日は")).
  { intro H. apply blank_check in H. vm_compute in H. discriminate. }
  split; [exact W|]. split; [lia|].
  apply (analyze_k_best spec_chars lexicon_kyouwa already_NFC (u "今日は") 3 W). lia.
Defined.

(** The first candidate of [analyze] is the lattice path [今日は]; the
    tokens of [tokenize] are that path after the rewriter, which splits
    it into [今日 | は]. *)
Lemma analyze_first_is_not_tokenize :
  exists a t,
    best_tokens (analyze spec_chars lexicon_kyouwa already_NFC (u "今日は") 3) = Some a /\
    tokenize spec_chars lexicon_kyouwa already_NFC (u "今日は") = Ok t /\
    map surface a = [u "今日は"] /\
    map surface t = [u "今日"; u "は"] /\
    a <> t.
Proof.
  eexists. eexists.
  split; [vm_compute; reflexivity|]. split; [vm_compute; reflexivity|].
  split; [vm_compute; reflexivity|]. split; [vm_compute; reflexivity|].
  intro H. apply (f_equal (@length Token)) in H. vm_compute in H. discriminate.
Qed.

(** ** The lattice builder *)

Lemma nodes_matches_append (key : span) (sg x : Segment) (m : matches_t) :
  In x (nodes (matches_append key sg m)) <-> x = sg \/ In x (nodes m).
Proof.
  unfold nodes. induction m as [|[k segs] r IH]; simpl.
  - intuition.
  - destruct (span_eqb k key); simpl; rewrite !in_app_iff.
    + simpl. intuition.
    + rewrite IH. intuition.
Qed.

Section Lattice.

Variable chars : Characters.
Variable lex : Lexicon.

Lemma nodes_add_entries (text : str) (st en : nat) (x : Segment) (m : matches_t) :
  In x (nodes (add_entries chars lex text st en m)) <->
  In x (nodes m) \/
  exists e, In e (lookup lex (slice text st en)) /\ x = node_of chars lex text st en e.
Proof.
  unfold add_entries. generalize (lookup lex (slice text st en)) as es. intro es.
  revert m. induction es as [|e es IH]; intro m; simpl.
  - split; [auto | intros [H | (e & [] & _)]; assumption].
  - rewrite IH, nodes_matches_append. split.
    + intros [[E | H] | (e' & I & E)]; [right | left | right].
      * exists e. split; [now left | exact E].
      * assumption.
      * exists e'. split; [now right | exact E].
    + intros [H | (e' & [<- | I] & E)]; [left; now right | left; now left | right].
      exists e'. auto.
Qed.

(** The inner loop over ends [a, a + n). *)
Lemma nodes_grow (text : str) (sticky : list nat) (st : nat) (x : Segment) (n : nat) :
  forall a m,
    In x (nodes (grow chars lex text sticky st (List.seq a n) m)) <->
    In x (nodes m) \/
    exists en e,
      a <= en < a + n /\
      nat_in en sticky = false /\
      (forall en', a <= en' <= en -> nat_in en' sticky = false ->
                   has_prefix lex (slice text st en') = true) /\
      In e (lookup lex (slice text st en)) /\
      x = node_of chars lex text st en e.
Proof.
  induction n as [|n IH]; intros a m; simpl.
  - split; [auto | intros [H | (en & e & B & _)]; [assumption | lia]].
  - destruct (nat_in a sticky) eqn:Sa.
    + rewrite IH. split.
      * intros [H | (en & e & B & S & P & I & E)]; [now left | right].
        exists en, e. repeat split; try assumption; try lia.
        intros en' B' S'. destruct (Nat.eq_dec en' a) as [->|N]; [congruence|].
        apply P; [lia | assumption].
      * intros [H | (en & e & B & S & P & I & E)]; [now left | right].
        destruct (Nat.eq_dec en a) as [->|N]; [congruence|].
        exists en, e. repeat split; try assumption; try lia.
        intros en' B' S'. apply P; [lia | assumption].
    + destruct (has_prefix lex (slice text st a)) eqn:Pa; simpl.
      * rewrite IH, nodes_add_entries. split.
        -- intros [[H | (e & I & E)] | (en & e & B & S & P & I & E)].
           ++ now left.
           ++ right. exists a, e. repeat split; try assumption; try lia.
              intros en' B' _. now replace en' with a by lia.
           ++ right. exists en, e. repeat split; try assumption; try lia.
              intros en' B' S'. destruct (Nat.eq_dec en' a) as [->|N]; [assumption|].
              apply P; [lia | assumption].
        -- intros [H | (en & e & B & S & P & I & E)]; [left; now left|].
           destruct (Nat.eq_dec en a) as [->|N].
           ++ left. right. now exists e.
           ++ right. exists en, e. repeat split; try assumption; try lia.
              intros en' B' S'. apply P; [lia | assumption].
      * split; [auto|]. intros [H | (en & e & B & S & P & I & E)]; [assumption|].
        assert (has_prefix lex (slice text st a) = true) by (apply P; [lia | assumption]).
        congruence.
Qed.

Lemma nodes_fold_starts (text : str) (sticky : list nat) (x : Segment)
  (ends : nat -> list nat) (starts : list nat) :
  forall m,
    In x (nodes (fold_left
                   (fun matches st =>
                      if nat_in st sticky then matches
                      else grow chars lex text sticky st (ends st) matches)
                   starts m)) <->
    In x (nodes m) \/
    exists st, In st starts /\ nat_in st sticky = false /\
               In x (nodes (grow chars lex text sticky st (ends st) [])).
Proof.
  assert (G : forall st m, In x (nodes (grow chars lex text sticky st (ends st) m)) <->
                           In x (nodes m) \/
                           In x (nodes (grow chars lex text sticky st (ends st) []))).
  { intros st m. unfold range.
    assert (forall l m0, In x (nodes (grow chars lex text sticky st l m0)) <->
                         In x (nodes m0) \/ In x (nodes (grow chars lex text sticky st l []))).
    { induction l as [|en l IHl]; intro m0; simpl.
      - change (nodes []) with (@nil Segment). simpl. tauto.
      - destruct (nat_in en sticky); [apply IHl|].
        destruct (has_prefix lex (slice text st en)); simpl.
        + rewrite IHl, (IHl (add_entries chars lex text st en [])), !nodes_add_entries.
          change (nodes []) with (@nil Segment). simpl. tauto.
        + change (nodes []) with (@nil Segment). simpl. tauto. }
    auto. }
  induction starts as [|st starts IH]; intro m; simpl.
  - split; [auto | intros [H | (st & [] & _)]; assumption].
  - rewrite IH. destruct (nat_in st sticky) eqn:S.
    + split.
      * intros [H | (st' & I & S' & N)]; [now left | right]. exists st'. auto.
      * intros [H | (st' & [<- | I] & S' & N)]; [now left | congruence | right].
        exists st'. auto.
    + rewrite G. split.
      * intros [[H | H] | (st' & I & S' & N)]; [now left | right | right].
        -- exists st. auto.
        -- exists st'. auto.
      * intros [H | (st' & [<- | I] & S' & N)]; [left; now left | left; now right | right].
        exists st'. auto.
Qed.

Lemma sticky_from_In (n : nat) (rest : str) :
  forall i0 i,
    In i (sticky_from chars i0 n rest) <->
    exists k c,
      nth_error rest k = Some c /\
      ((i = i0 + k /\ string_in (get_char_class chars c) MODIFIER_CLASSES = true) \/
       (i = i0 + k + 1 /\ get_char_class chars c = "sokuon" /\ i0 + k < n - 1)).
Proof.
  induction rest as [|c rest IH]; intros i0 i; cbn [sticky_from].
  - split; [intros [] | intros (k & c & H & _); destruct k; discriminate].
  - rewrite !in_app_iff, IH. split.
    + intros [H | [H | (k & c' & N & H)]].
      * destruct (string_in (get_char_class chars c) MODIFIER_CLASSES) eqn:E;
          [|destruct H]. destruct H as [<- | []].
        exists 0, c. split; [reflexivity | left; split; [lia | assumption]].
      * destruct (String.eqb (get_char_class chars c) "sokuon" && (i0 <? n - 1)) eqn:E;
          [|destruct H]. destruct H as [<- | []].
        apply andb_true_iff in E as [E1 E2]. apply String.eqb_eq in E1. apply Nat.ltb_lt in E2.
        exists 0, c. split; [reflexivity | right; repeat split; [lia | assumption | lia]].
      * exists (S k), c'. split; [exact N|].
        destruct H as [[-> M] | (-> & K & L)]; [left | right]; repeat split;
          try assumption; lia.
    + intros ([|k] & c' & N & H); cbn [nth_error] in N.
      * injection N as <-. destruct H as [[-> M] | (-> & K & L)].
        -- left. rewrite M. left. lia.
        -- right. left. rewrite K.
           replace (i0 <? n - 1) with true by (symmetry; apply Nat.ltb_lt; lia).
           left. lia.
      * right. right. exists k, c'. split; [exact N|].
        destruct H as [[-> M] | (-> & K & L)]; [left | right]; repeat split;
          try assumption; lia.
Qed.

Lemma sticky_spec (text : str) (i : nat) :
  In i (find_sticky_positions chars text) <-> sticky_position chars text i.
Proof.
  unfold find_sticky_positions, sticky_position, modifier_at, after_sokuon.
  rewrite sticky_from_In. split.
  - intros (k & c & N & [[-> M] | (-> & K & L)]); [left | right].
    + now exists c.
    + exists k, c. repeat split; try assumption; lia.
  - intros [(c & N & M) | (j & c & -> & N & K & L)].
    + exists i, c. split; [assumption | left; auto].
    + exists j, c. split; [assumption | right; repeat split; try assumption; lia].
Qed.

Lemma not_sticky (text : str) (i : nat) :
  nat_in i (find_sticky_positions chars text) = false <-> ~ sticky_position chars text i.
Proof.
  rewrite <- sticky_spec, <- nat_in_In.
  destruct (nat_in i (find_sticky_positions chars text)); split; intro H;
    try reflexivity; try discriminate; [contradiction H; reflexivity].
Qed.

(** C6 (as the code has it): the nodes of the lattice are exactly the
    records found for the slices [text[st:en]] with [st < en], at most 30
    code points long, whose start and end are both outside the sticky
    set, and such that every shorter slice from [st] that ends outside
    the sticky set is a prefix of some key.  The sticky set holds the
    positions of small-kana modifiers and of the long-vowel sign and the
    position after every sokuon that is not the last character; it
    forbids starts and ends alike. *)
Theorem lattice_nodes (text : str) (sg : Segment) :
  In sg (nodes (find_all_matches chars lex text)) <->
  exists st en e,
    sg = node_of chars lex text st en e /\
    st < en /\ en <= length text /\ en <= st + MAX_WORD_LENGTH /\
    ~ sticky_position chars text st /\
    ~ sticky_position chars text en /\
    (forall en', st < en' <= en -> ~ sticky_position chars text en' ->
                 has_prefix lex (slice text st en') = true) /\
    In e (lookup lex (slice text st en)).
Proof.
  unfold find_all_matches.
  rewrite (nodes_fold_starts text (find_sticky_positions chars text) sg
             (fun st => range (st + 1)
                          (Nat.min (st + MAX_WORD_LENGTH + 1) (length text + 1)))).
  change (nodes []) with (@nil Segment). unfold range, MAX_WORD_LENGTH. split.
  - intros [[] | (st & I & S & G)]. apply in_seq in I.
    apply nodes_grow in G. destruct G as [[] | (en & e & B & Se & P & L & E)].
    exists st, en, e. repeat split; try assumption; try lia.
    + now apply not_sticky.
    + now apply not_sticky.
    + intros en' B' S'. apply P; [lia | now apply not_sticky].
  - intros (st & en & e & E & B1 & B2 & B3 & S1 & S2 & P & L). right.
    exists st. split; [apply in_seq; lia|]. split; [now apply not_sticky|].
    apply nodes_grow. right. exists en, e. repeat split; try assumption; try lia.
    + now apply not_sticky.
    + intros en' B' S'. apply P; [lia | now apply not_sticky].
Qed.

End Lattice.

Lemma lattice_nodes_witness :
  In (node_of spec_chars lexicon_ka (u "か") 0 1 entry_ka)
     (nodes (find_all_matches spec_chars lexicon_ka (u "か"))).
Proof.
  apply (proj2 (lattice_nodes spec_chars lexicon_ka (u "か") _)).
  exists 0, 1, entry_ka. split; [reflexivity|].
  split; [lia|]. split; [vm_compute; lia|]. split; [vm_compute; lia|].
  split; [apply not_sticky; vm_compute; reflexivity|].
  split; [apply not_sticky; vm_compute; reflexivity|].
  split.
  - intros en' B _. replace en' with 1 by lia. vm_compute. reflexivity.
  - vm_compute. left. reflexivity.
Defined.

(** A word may not start right after a sokuon: in [っか] the position of
    [か] holds no modifier and [か] is a key of the lexicon, yet the
    lattice is empty. *)
Lemma start_after_sokuon_forbidden :
  ~ modifier_at spec_chars (u "っか") 1 /\
  has_prefix lexicon_ka (slice (u "っか") 1 2) = true /\
  lookup lexicon_ka (slice (u "っか") 1 2) <> [] /\
  find_all_matches spec_chars lexicon_ka (u "っか") = [].
Proof.
  split; [|split; [|split]].
  - intros (c & N & M). vm_compute in N. injection N as <-. vm_compute in M. discriminate.
  - vm_compute. reflexivity.
  - vm_compute. discriminate.
  - vm_compute. reflexivity.
Qed.

(** ** Unknown text *)

Lemma punctuation_is_one_char (s : str) :
  str_in s PUNCTUATION_SEPARATORS = true -> exists c, s = [c].
Proof.
  intro H. apply str_in_In in H.
  assert (A : forallb (fun w => length w =? 1) PUNCTUATION_SEPARATORS = true)
    by (vm_compute; reflexivity).
  rewrite forallb_forall in A. apply A in H. apply Nat.eqb_eq in H.
  destruct s as [|c [|]]; try discriminate. now exists c.
Qed.

Lemma segment_loop_no_punctuation (text : str) (rest : str) :
  no_punctuation rest ->
  forall i current_start segments,
    segment_loop text i current_start rest segments = (segments, current_start).
Proof.
  unfold no_punctuation. induction rest as [|c rest IH]; intros N i cs segs;
    cbn [segment_loop].
  - reflexivity.
  - inversion N as [|? ? Hc Hr]; subst. rewrite Hc. now apply IH.
Qed.

Lemma split_segments_no_punctuation (text : str) :
  text <> [] -> no_punctuation text -> split_segments text = [(text, 0)].
Proof.
  intros NE N. unfold split_segments.
  rewrite (segment_loop_no_punctuation text text N).
  destruct text; [contradiction | reflexivity].
Qed.

Section Unknown.

Variable chars : Characters.
Variable lex : Lexicon.
Variable normalize_NFC : str -> str.

Lemma grow_unknown (text : str) (sticky : list nat) (st : nat) (ends : list nat)
  (m : matches_t) :
  (forall a b, lookup lex (slice text a b) = []) ->
  grow chars lex text sticky st ends m = m.
Proof.
  intro U. revert m. induction ends as [|en rest IH]; intro m; simpl; [reflexivity|].
  destruct (nat_in en sticky); [apply IH|].
  destruct (has_prefix lex (slice text st en)); simpl; [|reflexivity].
  unfold add_entries. rewrite U. simpl. apply IH.
Qed.

Lemma find_all_matches_unknown (text : str) :
  (forall a b, lookup lex (slice text a b) = []) ->
  find_all_matches chars lex text = [].
Proof.
  intro U. unfold find_all_matches.
  generalize (range 0 (length text)) as starts.
  induction starts as [|st starts IH]; simpl; [reflexivity|].
  destruct (nat_in st (find_sticky_positions chars text)); [exact IH|].
  rewrite grow_unknown by exact U. exact IH.
Qed.

(** C2 (as the code has it): for text without punctuation separators
    none of whose substrings is a key of the lexicon, the path selector
    hands exactly one token to the rewriter; it covers the whole text and
    has POS [unk] and base form id 0, and nothing is raised.  [tokenize]
    returns that one token when no rule of the rewriter matches its
    surface (no split, no substitution). *)
Theorem unknown_text_single_token (text : str) :
  let text' := normalize_NFC text in
  let t := unknown_token chars text' 0 (length text') in
  ~ whitespace_only text ->
  text' <> [] ->
  no_punctuation text' ->
  (forall a b, lookup lex (slice text' a b) = []) ->
  selected_tokens chars lex text' = Ok [t] /\
  surface t = text' /\ pos t = "unk" /\ base_form_id t = 0%Z /\
  start t = 0 /\ end_ t = length text' /\
  raises (tokenize chars lex normalize_NFC text) = false /\
  (split_token chars lex text' = [text'] ->
   find_pattern TOKEN_SUBSTITUTIONS [t] = None ->
   tokenize chars lex normalize_NFC text = Ok [t]).
Proof.
  intros text' t W NE NP U.
  assert (S : selected_tokens chars lex text' = Ok [t]).
  { unfold selected_tokens. rewrite (split_segments_no_punctuation text' NE NP).
    cbn [all_segment_tokens segment_tokens].
    destruct (str_in text' PUNCTUATION_SEPARATORS) eqn:P.
    { destruct (punctuation_is_one_char _ P) as [c E].
      unfold no_punctuation in NP. rewrite E in NP, P. inversion NP; congruence. }
    rewrite (find_all_matches_unknown text' U). reflexivity. }
  split; [exact S|]. repeat split.
  - unfold tokenize.
    destruct (is_empty text || is_empty (strip text)) eqn:E.
    { apply blank_check in E. contradiction. }
    now destruct (tokenize_text_ok chars lex (normalize_NFC text)) as [toks ->].
  - intros ST FP. unfold tokenize.
    destruct (is_empty text || is_empty (strip text)) eqn:E.
    { apply blank_check in E. contradiction. }
    fold text'. unfold tokenize_text. rewrite S.
    unfold rewrite_tokens, post_process_splits.
    assert (R1 : repeat_pass merge_compound_verbs [t] = [t]) by reflexivity.
    assert (R2 : repeat_pass apply_multi_token_merges [t] = [t]) by reflexivity.
    rewrite R1, R2.
    assert (R3 : split_tokens chars lex [t] = [t]).
    { unfold split_tokens. cbn [flat_map]. change (surface t) with text'.
      rewrite ST. reflexivity. }
    rewrite R3.
    assert (R4 : apply_token_substitutions lex [t] = [t]).
    { unfold apply_token_substitutions. cbn [length Nat.eqb substitution_loop].
      rewrite FP. reflexivity. }
    rewrite R4. reflexivity.
Qed.

End Unknown.

Lemma unknown_text_single_token_witness :
  tokenize spec_chars empty_lexicon already_NFC (u "あ")
  = Ok [unknown_token spec_chars (u "あ") 0 1].
Proof.
  assert (W : ~ whitespace_only (u "あ")).
  { intro H. apply blank_check in H. vm_compute in H. discriminate. }
  assert (NE : already_NFC (u "あ") <> []) by (vm_compute; discriminate).
  assert (NP : no_punctuation (already_NFC (u "あ"))).
  { repeat constructor. }
  assert (U : forall a b, lookup empty_lexicon (slice (already_NFC (u "あ")) a b) = [])
    by reflexivity.
  destruct (unknown_text_single_token spec_chars empty_lexicon already_NFC (u "あ") W NE NP U)
    as (_ & _ & _ & _ & _ & _ & _ & H).
  apply H; vm_compute; reflexivity.
Defined.

(** With an empty lexicon the greeting [今日は] has no known substring
    and no punctuation, yet [tokenize] returns two tokens: the
    substitution table of the rewriter splits the one unknown token. *)
Lemma unknown_text_two_tokens :
  (forall s, lookup empty_lexicon s = []) /\
  no_punctuation (u "今日は") /\
  exists t1 t2,
    tokenize spec_chars empty_lexicon already_NFC (u "今日は") = Ok [t1; t2] /\
    surface t1 = u "今日" /\ surface t2 = u "は".
Proof.
  split; [reflexivity|]. split; [repeat constructor|].
  eexists. eexists. split; [vm_compute; reflexivity|].
  split; vm_compute; reflexivity.
Qed.

(** ** Offsets after a substitution *)

(** All rows of the substitution table but two replace a pattern by
    tokens that spell the same text. *)
Lemma token_substitutions_spell (p r : list str) :
  In (p, r) TOKEN_SUBSTITUTIONS ->
  concat p = concat r \/
  (p, r) = (map u ["また"; "お"; "会いましょう"], map u ["また"; "お会いしましょう"]) \/
  (p, r) = (map u ["養育費"; "きちんと"], map u ["養育費"; "は"; "きちんと"]).
Proof.
  intro H.
  assert (A : forallb
                (fun pr : list str * list str =>
                   str_eqb (concat (fst pr)) (concat (snd pr)) ||
                   (strs_eqb (fst pr) (map u ["また"; "お"; "会いましょう"]) &&
                    strs_eqb (snd pr) (map u ["また"; "お会いしましょう"])) ||
                   (strs_eqb (fst pr) (map u ["養育費"; "きちんと"]) &&
                    strs_eqb (snd pr) (map u ["養育費"; "は"; "きちんと"])))
                TOKEN_SUBSTITUTIONS = true) by (vm_compute; reflexivity).
  rewrite forallb_forall in A. apply A in H. cbn [fst snd] in H.
  apply orb_true_iff in H as [H|H]; [apply orb_true_iff in H as [H|H]|].
  - left. now apply str_eqb_eq.
  - right. left. apply andb_true_iff in H as [H1 H2].
    apply strs_eqb_eq in H1, H2. now subst.
  - right. right. apply andb_true_iff in H as [H1 H2].
    apply strs_eqb_eq in H1, H2. now subst.
Qed.

(** C1: on [養育費きちんと], with both words in the lexicon, the
    substitution [(養育費, きちんと) -> [養育費, は, きちんと]] puts a token
    [は] over [[3, 4)], where the text has [き], and ends the last token
    at 8 in a text of 7 characters. *)
Theorem substitution_breaks_offsets :
  exists toks,
    tokenize spec_chars lexicon_youikuhi already_NFC (u "養育費きちんと") = Ok toks /\
    map surface toks = [u "養育費"; u "は"; u "きちんと"] /\
    map (fun t => (start t, end_ t)) toks = [(0, 3); (3, 4); (4, 8)] /\
    length (u "養育費きちんと") = 7 /\
    ~ covers (u "養育費きちんと") toks /\
    ~ surface_fidelity (u "養育費きちんと") toks.
Proof.
  eexists. split; [vm_compute; reflexivity|].
  split; [vm_compute; reflexivity|]. split; [vm_compute; reflexivity|].
  split; [vm_compute; reflexivity|]. split.
  - unfold covers. intro H. vm_compute in H. lia.
  - unfold surface_fidelity. intro H.
    inversion H as [|? ? _ H1]; subst. inversion H1 as [|? ? H2 _]; subst.
    vm_compute in H2. discriminate.
Qed.

Lemma facade_errors_witness :
  raises (tokenize spec_chars empty_lexicon already_NFC (u "  ")) = true /\
  raises (analyze spec_chars empty_lexicon already_NFC (u "あ") 0) = true /\
  analyze spec_chars empty_lexicon already_NFC (u "あ") 0
  = Raise (ValueError "limit must be >= 1").
Proof.
  destruct (facade_errors spec_chars empty_lexicon already_NFC (u "  ") 1)
    as ((_ & T) & _).
  destruct (facade_errors spec_chars empty_lexicon already_NFC (u "あ") 0)
    as (_ & (_ & A) & _ & L).
  split; [apply T; repeat constructor|].
  split; [apply A; right; lia|].
  apply L; [|lia].
  intro H. apply blank_check in H. vm_compute in H. discriminate.
Defined.

(** ** Fuel

    The loops that advance by the length of a matched pattern and the
    recursive [split_token] are defined with fuel; the fuel their callers
    give is enough: more fuel gives the same result. *)

Lemma split_particles_one_char (particle : str) :
  In particle SPLIT_PARTICLES -> length particle = 1.
Proof.
  intro H.
  assert (A : forallb (fun w => length w =? 1) SPLIT_PARTICLES = true)
    by (vm_compute; reflexivity).
  rewrite forallb_forall in A. apply A in H. now apply Nat.eqb_eq in H.
Qed.

Lemma first_some_In {A B : Type} (f : A -> option B) (l : list A) (y : B) :
  first_some f l = Some y -> exists x, In x l /\ f x = Some y.
Proof.
  induction l as [|x r IH]; simpl; [discriminate|].
  destruct (f x) eqn:E.
  - intro H. injection H as <-. exists x. auto.
  - intro H. destruct (IH H) as (x' & I & F). exists x'. auto.
Qed.

Lemma token_substitutions_nonempty (p r : list str) :
  In (p, r) TOKEN_SUBSTITUTIONS -> 1 <= length p.
Proof.
  intro H.
  assert (A : forallb (fun pr : list str * list str => 1 <=? length (fst pr))
                      TOKEN_SUBSTITUTIONS = true) by (vm_compute; reflexivity).
  rewrite forallb_forall in A. apply A in H. now apply Nat.leb_le in H.
Qed.

Section Fuel.

Variable chars : Characters.
Variable lex : Lexicon.

Lemma split_internal_particles_none (g : str -> list str) (word : str) :
  split_internal_particles lex g word = None.
Proof.
  unfold split_internal_particles.
  destruct (length word <? 4); [reflexivity|].
  destruct (str_in word NO_INTERNAL_SPLIT_COMPOUNDS); reflexivity.
Qed.

Lemma split_particle_of_one_char (remaining particle : str) :
  split_particle_of chars lex remaining = Some particle -> length particle = 1.
Proof.
  unfold split_particle_of. intro H. apply first_some_In in H as (x & I & F).
  destruct (endswith remaining x && (length x <? length remaining) &&
            should_split_particle chars lex remaining x); [|discriminate].
  injection F as <-. now apply split_particles_one_char.
Qed.

Lemma should_split_copula_one_char (word copula : str) :
  should_split_copula word = (true, copula) -> length copula = 1.
Proof.
  unfold should_split_copula.
  repeat match goal with |- context [if ?c then _ else _] => destruct c end;
    intro H; inversion H; reflexivity.
Qed.

Lemma length_drop_last (n : nat) (s : str) : length (drop_last n s) = length s - n.
Proof. unfold drop_last. rewrite length_firstn. lia. Qed.

Lemma split_token_rec_fuel (f1 : nat) :
  forall f2 s, length s <= f1 -> length s <= f2 ->
    split_token_rec chars lex f1 s = split_token_rec chars lex f2 s.
Proof.
  induction f1 as [|f1 IH]; intros f2 s L1 L2.
  - destruct s; [|simpl in L1; lia]. destruct f2; reflexivity.
  - destruct f2 as [|f2].
    { destruct s; [reflexivity | simpl in L2; lia]. }
    cbn [split_token_rec].
    destruct (length s <? 2) eqn:E2; [reflexivity|]. apply Nat.ltb_ge in E2.
    destruct (word_get COMPOUND_VERB_SPLITS s); [reflexivity|].
    destruct (should_split_prefix_particle lex s) as [[|p ps]|].
    + rewrite !split_internal_particles_none.
      destruct (split_particle_of chars lex s) as [particle|] eqn:P.
      * apply split_particle_of_one_char in P. f_equal.
        apply IH; rewrite length_drop_last; lia.
      * destruct (should_split_copula s) as [[|] copula] eqn:C.
        -- apply should_split_copula_one_char in C. f_equal.
           apply IH; rewrite length_drop_last; lia.
        -- cbn [should_split_conditional].
           destruct (should_split_explanatory_n lex s); [|reflexivity].
           f_equal. apply IH; rewrite length_drop_last; lia.
    + reflexivity.
    + rewrite !split_internal_particles_none.
      destruct (split_particle_of chars lex s) as [particle|] eqn:P.
      * apply split_particle_of_one_char in P. f_equal.
        apply IH; rewrite length_drop_last; lia.
      * destruct (should_split_copula s) as [[|] copula] eqn:C.
        -- apply should_split_copula_one_char in C. f_equal.
           apply IH; rewrite length_drop_last; lia.
        -- cbn [should_split_conditional].
           destruct (should_split_explanatory_n lex s); [|reflexivity].
           f_equal. apply IH; rewrite length_drop_last; lia.
Qed.

Lemma split_token_fuel (fuel : nat) (s : str) :
  length s <= fuel -> split_token_rec chars lex fuel s = split_token chars lex s.
Proof. intro L. unfold split_token. now apply split_token_rec_fuel. Qed.

Lemma multi_merge_loop_fuel (f1 : nat) :
  forall f2 tokens, length tokens <= f1 -> length tokens <= f2 ->
    multi_merge_loop f1 tokens = multi_merge_loop f2 tokens.
Proof.
  induction f1 as [|f1 IH]; intros f2 tokens L1 L2.
  - destruct tokens; [|simpl in L1; lia]. destruct f2; reflexivity.
  - destruct f2 as [|f2].
    { destruct tokens; [reflexivity | simpl in L2; lia]. }
    destruct tokens as [|t rest]; [reflexivity|]. cbn [multi_merge_loop].
    destruct (find_pattern sorted_patterns (t :: rest)) as [[p m]|] eqn:F.
    + destruct (find_pattern_some _ _ _ _ F) as (I & Lp & _).
      destruct (sorted_patterns_sound _ _ I) as (_ & Lm).
      f_equal. apply IH; rewrite length_skipn; cbn [length] in *; lia.
    + f_equal. apply IH; cbn [length] in *; lia.
Qed.

Lemma substitution_loop_fuel (f1 : nat) :
  forall f2 tokens, length tokens <= f1 -> length tokens <= f2 ->
    substitution_loop lex f1 tokens = substitution_loop lex f2 tokens.
Proof.
  induction f1 as [|f1 IH]; intros f2 tokens L1 L2.
  - destruct tokens; [|simpl in L1; lia]. destruct f2; reflexivity.
  - destruct f2 as [|f2].
    { destruct tokens; [reflexivity | simpl in L2; lia]. }
    destruct tokens as [|t rest]; [reflexivity|]. cbn [substitution_loop].
    destruct (find_pattern TOKEN_SUBSTITUTIONS (t :: rest)) as [[p r]|] eqn:F.
    + destruct (find_pattern_some _ _ _ _ F) as (I & Lp & _).
      pose proof (token_substitutions_nonempty _ _ I) as Lm.
      f_equal. apply IH; rewrite length_skipn; cbn [length] in *; lia.
    + f_equal. apply IH; cbn [length] in *; lia.
Qed.

Lemma merge_patterns_loop_fuel (f1 : nat) :
  forall f2 tokens, length tokens <= f1 -> length tokens <= f2 ->
    merge_patterns_loop lex f1 tokens = merge_patterns_loop lex f2 tokens.
Proof.
  induction f1 as [|f1 IH]; intros f2 tokens L1 L2.
  - destruct tokens; [|simpl in L1; lia]. destruct f2; reflexivity.
  - destruct f2 as [|f2].
    { destruct tokens; [reflexivity | simpl in L2; lia]. }
    destruct tokens as [|t rest]; [reflexivity|]. cbn [merge_patterns_loop].
    destruct (match rest with
              | next_token :: _ => pair_merge lex t next_token
              | [] => None
              end) as [mt|] eqn:PM.
    + destruct rest as [|nx rest']; [discriminate|].
      f_equal. cbn [skipn]. apply IH; cbn [length] in *; lia.
    + destruct (find_pattern MERGE_PATTERNS (t :: rest)) as [[p m]|] eqn:F.
      * destruct (find_pattern_some _ _ _ _ F) as (I & Lp & _).
        destruct (merge_patterns_sound _ _ I) as (_ & Lm).
        f_equal. apply IH; rewrite length_skipn; cbn [length] in *; lia.
      * f_equal. apply IH; cbn [length] in *; lia.
Qed.

End Fuel.

(** ** The reconstruction of a path stops within its fuel *)

Lemma dp_get_set (dp : dp_t) (p q : nat) (v : list dp_entry) :
  dp_get (dp_set dp p v) q = if p =? q then Some v else dp_get dp q.
Proof.
  induction dp as [|[k v'] r IH]; simpl.
  - reflexivity.
  - destruct (Nat.eqb_spec k p) as [->|N]; simpl.
    + destruct (Nat.eqb_spec p q); reflexivity.
    + rewrite IH. destruct (Nat.eqb_spec k q) as [->|N'].
      * destruct (Nat.eqb_spec p q); [congruence | reflexivity].
      * reflexivity.
Qed.

Lemma dp_set_backward (dp : dp_t) (p : nat) (v : list dp_entry) :
  dp_backward dp ->
  (forall e q, In e v -> snd (fst e) = Some q -> q < p) ->
  dp_backward (dp_set dp p v).
Proof.
  intros W V p' l e q G I E. rewrite dp_get_set in G.
  destruct (Nat.eqb_spec p p') as [->|N].
  - injection G as <-. eauto.
  - eauto.
Qed.

Lemma dp_get_or_nil_In (dp : dp_t) (p : nat) (e : dp_entry) :
  In e (dp_get_or_nil dp p) -> exists l, dp_get dp p = Some l /\ In e l.
Proof.
  unfold dp_get_or_nil. destruct (dp_get dp p) as [l|]; [eauto | intros []].
Qed.

Lemma dp_append_backward (dp : dp_t) (p : nat) (e : dp_entry) :
  dp_backward dp ->
  (forall q, snd (fst e) = Some q -> q < p) ->
  dp_backward (dp_append dp p e).
Proof.
  intros W V. apply dp_set_backward; [assumption|].
  intros e' q I E. apply in_app_iff in I as [I | [<- | []]]; [|auto].
  apply dp_get_or_nil_In in I as (l & G & I). eauto.
Qed.

Lemma nearest_reachable_lt (dp : dp_t) (p q : nat) :
  nearest_reachable dp p = Some q -> q < p.
Proof.
  induction p as [|p IH]; simpl; [discriminate|].
  destruct (dp_mem dp p).
  - intro H. injection H as <-. lia.
  - intro H. apply IH in H. lia.
Qed.

Lemma add_gap_backward (dp : dp_t) (p : nat) :
  dp_backward dp -> dp_backward (add_gap dp p).
Proof.
  intro W. unfold add_gap. destruct (nearest_reachable dp p) as [q|] eqn:N; [|assumption].
  apply nearest_reachable_lt in N.
  generalize (dp_get_or_nil dp q) as es. intro es. revert dp W.
  induction es as [|e es IH]; intros dp W; simpl; [assumption|].
  apply IH. apply dp_append_backward; [assumption|].
  simpl. intros q' E. injection E as <-. assumption.
Qed.

Lemma sorted_In {A : Type} (key : A -> Q) (l : list A) (x : A) :
  In x (sorted key l) -> In x l.
Proof.
  induction l as [|y r IH]; simpl; [auto|].
  intro H. apply insert_by_key_In in H as [->|H]; auto.
Qed.

Lemma relax_span_backward (limit p : nat) (dp dp' : dp_t) (item : span * list Segment) :
  fst (fst item) < snd (fst item) ->
  dp_backward dp -> relax_span limit p dp item = Ok dp' -> dp_backward dp'.
Proof.
  destruct item as [[st en] segs]. simpl. intros F W.
  destruct (Nat.eqb_spec st p) as [->|N]; simpl.
  - destruct (max_by_score segs) as [best|]; [|discriminate].
    intro H. injection H as <-.
    generalize (dp_get_or_nil dp p) as es. intro es. revert dp W.
    induction es as [|e es IH]; intros dp W; simpl; [assumption|].
    apply IH. apply dp_set_backward; [assumption|].
    intros e' q I E. apply In_firstn in I. apply sorted_In in I.
    apply in_app_iff in I as [I | [<- | []]].
    + apply dp_get_or_nil_In in I as (l & G & I). eauto.
    + simpl in E. injection E as <-. assumption.
  - intro H. now injection H as <-.
Qed.

Lemma relax_all_backward (limit p : nat) (items : matches_t) :
  spans_forward items ->
  forall dp dp', dp_backward dp -> relax_all limit p items dp = Ok dp' -> dp_backward dp'.
Proof.
  unfold spans_forward. induction items as [|item r IH]; intros F dp dp' W; simpl.
  - intro H. now injection H as <-.
  - inversion F as [|? ? Fi Fr]; subst.
    destruct (relax_span limit p dp item) as [dp1|] eqn:R; [|discriminate].
    apply IH; [assumption|]. eapply relax_span_backward; eauto.
Qed.

Lemma forward_backward (limit : nat) (gaps : bool) (m : matches_t) (positions : list nat) :
  spans_forward m ->
  forall dp dp', dp_backward dp -> forward limit gaps m positions dp = Ok dp' ->
                 dp_backward dp'.
Proof.
  intro F. induction positions as [|p r IH]; intros dp dp' W; simpl.
  - intro H. now injection H as <-.
  - match goal with |- context [forward _ _ _ r ?d] => set (d0 := d) end.
    assert (W0 : dp_backward d0).
    { unfold d0. destruct (negb (dp_mem dp p) && gaps); [now apply add_gap_backward | assumption]. }
    destruct (negb (dp_mem d0 p)); [now apply IH|].
    destruct (relax_all limit p m d0) as [dp1|] eqn:R; [|discriminate].
    apply IH. eapply relax_all_backward; eauto.
Qed.

Lemma backtrack_fuel (dp : dp_t) (f1 : nat) :
  dp_backward dp ->
  forall f2 current_pos e path gaps,
    (forall q, snd (fst e) = Some q -> q < current_pos) ->
    current_pos < f1 -> current_pos < f2 ->
    backtrack f1 dp current_pos e path gaps = backtrack f2 dp current_pos e path gaps.
Proof.
  intro W. induction f1 as [|f1 IH]; intros f2 cp e path gaps E L1 L2; [lia|].
  destruct f2 as [|f2]; [lia|].
  destruct e as [[s prev] sg]. cbn [backtrack].
  match goal with
  | |- (let '(_, _) := ?x in _) = _ => destruct x as [path' gaps']
  end.
  destruct prev as [pr|]; [|reflexivity].
  destruct (pr =? 0); [reflexivity|].
  destruct (dp_get_or_nil dp pr) as [|e' l'] eqn:G; [reflexivity|].
  assert (Lp : pr < cp) by (apply E; reflexivity).
  apply IH; try lia.
  intros q Eq.
  assert (I : In e' (dp_get_or_nil dp pr)) by (rewrite G; now left).
  apply dp_get_or_nil_In in I as (l & Gl & I). eauto.
Qed.

Lemma matches_append_forward (key : span) (sg : Segment) (m : matches_t) :
  fst key < snd key -> spans_forward m -> spans_forward (matches_append key sg m).
Proof.
  unfold spans_forward. intros K. induction m as [|[k segs] r IH]; simpl; intro F.
  - constructor; [assumption | constructor].
  - inversion F as [|? ? Fk Fr]; subst. destruct (span_eqb k key).
    + constructor; assumption.
    + constructor; [assumption | now apply IH].
Qed.

Section Reconstruction.

Variable chars : Characters.
Variable lex : Lexicon.

Lemma add_entries_forward (text : str) (st en : nat) (m : matches_t) :
  st < en -> spans_forward m -> spans_forward (add_entries chars lex text st en m).
Proof.
  intro L. unfold add_entries. generalize (lookup lex (slice text st en)) as es.
  intro es. revert m. induction es as [|e es IH]; simpl; intros m F; [assumption|].
  apply IH. now apply matches_append_forward.
Qed.

Lemma grow_forward (text : str) (sticky : list nat) (st : nat) (ends : list nat)
  (m : matches_t) :
  Forall (fun en => st < en) ends ->
  spans_forward m -> spans_forward (grow chars lex text sticky st ends m).
Proof.
  revert m. induction ends as [|en rest IH]; simpl; intros m E F; [assumption|].
  inversion E as [|? ? Een Er]; subst.
  destruct (nat_in en sticky); [now apply IH|].
  destruct (has_prefix lex (slice text st en)); simpl; [|assumption].
  apply IH; [assumption|]. now apply add_entries_forward.
Qed.

Lemma find_all_matches_forward (text : str) :
  spans_forward (find_all_matches chars lex text).
Proof.
  unfold find_all_matches.
  generalize (range 0 (length text)) as starts.
  assert (F0 : spans_forward []) by constructor. revert F0.
  generalize (@nil (span * list Segment)) as m.
  intros m F0 starts. revert m F0.
  induction starts as [|st starts IH]; simpl; intros m F; [assumption|].
  apply IH. destruct (nat_in st (find_sticky_positions chars text)); [assumption|].
  apply grow_forward; [|assumption].
  apply Forall_forall. intros en I. unfold range in I. apply in_seq in I. lia.
Qed.

(** On the table of a lattice of the builder, the reconstruction of a
    path from the last position gives the same path with any larger
    fuel. *)
Lemma reconstruct_fuel (text : str) (limit : nat) (gaps : bool) (dp : dp_t)
  (e : dp_entry) (extra : nat) :
  let n := length text in
  forward limit gaps (find_all_matches chars lex text) (range 0 (n + 1))
          [(0, [((0 # 1)%Q, None, None)])] = Ok dp ->
  let dp' := if negb (dp_mem dp n) && gaps then add_gap dp n else dp in
  In e (dp_get_or_nil dp' n) ->
  backtrack (S n + extra) dp' n e [] [] = backtrack (S n) dp' n e [] [].
Proof.
  intros n F dp' I.
  assert (W0 : dp_backward [(0, [((0 # 1)%Q, None, None)])]).
  { intros p l e0 q G Ie E. cbn [dp_get] in G. destruct (0 =? p); [|discriminate].
    injection G as <-. destruct Ie as [<- | []]. discriminate. }
  assert (W : dp_backward dp).
  { eapply forward_backward; [apply find_all_matches_forward | exact W0 | exact F]. }
  assert (W' : dp_backward dp').
  { unfold dp'. destruct (negb (dp_mem dp n) && gaps); [now apply add_gap_backward | assumption]. }
  apply backtrack_fuel; try assumption; try lia.
  intros q E. apply dp_get_or_nil_In in I as (l & G & I). eauto.
Qed.

End Reconstruction.

(** ** Numbers: fuel and the arabic form *)

Lemma log2_div_lt (n d : Z) : (2 <= d -> d <= n -> Z.log2 (n / d) < Z.log2 n)%Z.
Proof.
  intros D N.
  assert (M : (1 <= n / d)%Z) by (apply Z.div_le_lower_bound; lia).
  assert (B : (d * (n / d) <= n)%Z) by (apply Z.mul_div_le; lia).
  pose proof (Z.log2_mul_below (n / d) 2 ltac:(lia) ltac:(lia)) as P.
  change (Z.log2 2) with 1%Z in P.
  assert (Q : (Z.log2 (n / d * 2) <= Z.log2 n)%Z) by (apply Z.log2_le_mono; nia).
  lia.
Qed.

Lemma number_to_kana_rec_fuel (f1 : nat) :
  forall f2 n, (Z.log2 n < Z.of_nat f1)%Z -> (Z.log2 n < Z.of_nat f2)%Z ->
    number_to_kana_rec f1 n = number_to_kana_rec f2 n.
Proof.
  induction f1 as [|f1 IH]; intros f2 n L1 L2.
  - pose proof (Z.log2_nonneg n). lia.
  - destruct f2 as [|f2]; [pose proof (Z.log2_nonneg n); lia|].
    cbn [number_to_kana_rec].
    destruct (n =? 0)%Z; [reflexivity|].
    destruct (10000 <=? n)%Z eqn:E; [|reflexivity].
    apply Z.leb_le in E.
    destruct (1 <? n / 10000)%Z; [|reflexivity].
    pose proof (log2_div_lt n 10000 ltac:(lia) E).
    rewrite (IH f2 (n / 10000)%Z) by lia. reflexivity.
Qed.

Lemma number_to_kana_fuel (fuel : nat) (n : Z) :
  (Z.log2 n < Z.of_nat fuel)%Z -> number_to_kana_rec fuel n = number_to_kana n.
Proof.
  intro L. unfold number_to_kana. apply number_to_kana_rec_fuel; [assumption|].
  pose proof (Z.log2_nonneg n). lia.
Qed.

Lemma digit_char_ascii (d : Z) : (0 <= d <= 9)%Z -> ascii_digit (digit_char d).
Proof. unfold ascii_digit, digit_char. lia. Qed.

Lemma ascii_digit_value (c : char) :
  ascii_digit c ->
  char_get DIGIT_VALUES c = Some (Z.of_N (c - 48)) /\ digit_char (Z.of_N (c - 48)) = c.
Proof.
  unfold ascii_digit. intro H.
  assert (C : (c = 48 \/ c = 49 \/ c = 50 \/ c = 51 \/ c = 52 \/ c = 53 \/ c = 54 \/
               c = 55 \/ c = 56 \/ c = 57)%N) by lia.
  repeat destruct C as [-> | C]; try subst c; split; vm_compute; reflexivity.
Qed.

Lemma digits_value_app (ds rest : str) (acc : Z) :
  digits_value acc (ds ++ rest) = digits_value (digits_value acc ds) rest.
Proof. unfold digits_value. apply fold_left_app. Qed.

(** The decimal numeral of [n]: digits that spell [n]. *)
Lemma decimal_rec_spec (fuel : nat) :
  forall n acc, (0 <= n)%Z -> (Z.log2 n < Z.of_nat fuel)%Z ->
    exists ds,
      decimal_rec fuel n acc = ds ++ acc /\ ds <> [] /\ Forall ascii_digit ds /\
      forall a, digits_value a ds = (a * 10 ^ Z.of_nat (length ds) + n)%Z.
Proof.
  induction fuel as [|fuel IH]; intros n acc N L.
  - pose proof (Z.log2_nonneg n). lia.
  - cbn [decimal_rec].
    assert (M : (0 <= n mod 10 <= 9)%Z) by (pose proof (Z.mod_pos_bound n 10); lia).
    assert (V : Z.of_N (digit_char (n mod 10) - 48) = (n mod 10)%Z).
    { unfold digit_char. lia. }
    destruct (Z.ltb_spec n 10) as [S|S].
    + exists [digit_char (n mod 10)]. repeat split.
      * discriminate.
      * constructor; [now apply digit_char_ascii | constructor].
      * intro a. unfold digits_value. cbn [fold_left length]. rewrite V.
        rewrite Z.mod_small by lia. change (10 ^ Z.of_nat 1)%Z with 10%Z. lia.
    + pose proof (log2_div_lt n 10 ltac:(lia) S) as D.
      destruct (IH (n / 10)%Z (digit_char (n mod 10) :: acc)) as (ds & E & NE & F & Vd).
      { apply Z.div_pos; lia. }
      { lia. }
      exists (ds ++ [digit_char (n mod 10)]). repeat split.
      * rewrite E, <- app_assoc. reflexivity.
      * destruct ds; discriminate.
      * apply Forall_app. split; [assumption|].
        constructor; [now apply digit_char_ascii | constructor].
      * intro a. rewrite digits_value_app, Vd. unfold digits_value. cbn [fold_left].
        rewrite V, length_app. cbn [length]. rewrite Nat2Z.inj_add.
        change (Z.of_nat 1) with 1%Z. rewrite Z.pow_add_r by lia.
        change (10 ^ 1)%Z with 10%Z. pose proof (Z.div_mod n 10 ltac:(lia)). lia.
Qed.

Section Arabic.

Variable unicode_digit : char -> option (option Z).

Lemma arabic_prefix_ascii (ds : str) :
  Forall ascii_digit ds -> arabic_prefix unicode_digit ds = ds.
Proof.
  induction 1 as [|c ds Hc Hds IH]; [reflexivity|].
  cbn [arabic_prefix]. destruct (ascii_digit_value c Hc) as (-> & ->). now rewrite IH.
Qed.

Lemma py_int_from_ascii (ds : str) :
  Forall ascii_digit ds ->
  forall acc, py_int_from unicode_digit acc ds = Ok (digits_value acc ds).
Proof.
  induction 1 as [|c ds Hc Hds IH]; intro acc; [reflexivity|].
  cbn [py_int_from].
  assert (A : ((48 <=? c) && (c <=? 57))%N = true).
  { unfold ascii_digit in Hc. apply andb_true_iff. split; apply N.leb_le; lia. }
  rewrite A, IH. reflexivity.
Qed.


End Arabic.

(** * Further properties of the code *)

(** ** Slices *)

Lemma firstn_plus {A : Type} (n m : nat) (l : list A) :
  firstn (n + m) l = firstn n l ++ firstn m (skipn n l).
Proof.
  revert l. induction n as [|n IH]; intro l; [reflexivity|].
  destruct l as [|x l]; cbn [Nat.add firstn skipn app].
  - now rewrite firstn_nil.
  - now rewrite IH.
Qed.

Lemma slice_app (text : str) (a b c : nat) :
  a <= b -> b <= c -> slice text a b ++ slice text b c = slice text a c.
Proof.
  intros L1 L2. unfold slice.
  replace (c - a) with ((b - a) + (c - b)) by lia.
  rewrite firstn_plus, skipn_skipn.
  replace (b - a + a) with b by lia. reflexivity.
Qed.

Lemma slice_length (text : str) (a b : nat) :
  b <= length text -> length (slice text a b) = b - a.
Proof.
  intro L. unfold slice. rewrite length_firstn, length_skipn. lia.
Qed.

Lemma slice_full_length (text : str) (a n : nat) :
  0 < n -> length (slice text a (a + n)) = n -> a + n <= length text.
Proof.
  unfold slice. rewrite length_firstn, length_skipn. lia.
Qed.

Lemma slice_slice (text : str) (off n a b : nat) :
  b <= n -> slice (slice text off (off + n)) a b = slice text (off + a) (off + b).
Proof.
  intro L. unfold slice.
  rewrite skipn_firstn_comm, firstn_firstn, skipn_skipn.
  replace (off + n - off - a) with (n - a) by lia.
  replace (Nat.min (b - a) (n - a)) with (b - a) by lia.
  replace (off + b - (off + a)) with (b - a) by lia.
  replace (a + off) with (off + a) by lia. reflexivity.
Qed.

Lemma slice_to_end (text : str) (a : nat) :
  slice text a (length text) = skipn a text.
Proof.
  unfold slice. apply firstn_all2. rewrite length_skipn. lia.
Qed.

Lemma slice_whole (text : str) : slice text 0 (length text) = text.
Proof.
  unfold slice. cbn [skipn]. rewrite Nat.sub_0_r. apply firstn_all.
Qed.

(** ** The runs of the text *)

Lemma tiles_app (text : str) (l1 l2 : list (str * nat)) :
  forall a b c, tiles text a b l1 -> tiles text b c l2 -> tiles text a c (l1 ++ l2).
Proof.
  induction l1 as [|[s off] r IH]; intros a b c T1 T2; cbn [tiles app] in *.
  - now subst.
  - destruct T1 as (E & N & S & T). repeat split; try assumption. eapply IH; eauto.
Qed.

Lemma tiles_one (text : str) (a b : nat) :
  a < b -> b <= length text -> tiles text a b [(slice text a b, a)].
Proof.
  intros L1 L2. cbn [tiles].
  assert (Len : length (slice text a b) = b - a) by now apply slice_length.
  repeat split.
  - intro E. rewrite E in Len. cbn [length] in Len. lia.
  - rewrite Len. replace (a + (b - a)) with b by lia. reflexivity.
  - rewrite Len. lia.
Qed.

Lemma skipn_cons_next {A : Type} (i : nat) (l : list A) (c : A) (rest : list A) :
  skipn i l = c :: rest ->
  skipn (S i) l = rest /\ i < length l /\ firstn 1 (skipn i l) = [c].
Proof.
  intro E. repeat split.
  - replace (S i) with (1 + i) by lia. rewrite <- skipn_skipn, E. reflexivity.
  - assert (L : length (skipn i l) = S (length rest)) by now rewrite E.
    rewrite length_skipn in L. lia.
  - now rewrite E.
Qed.

Lemma segment_loop_tiles (text : str) :
  forall rest i current_start segments segments' current_start',
    skipn i text = rest -> current_start <= i -> i <= length text ->
    tiles text 0 current_start segments ->
    segment_loop text i current_start rest segments = (segments', current_start') ->
    tiles text 0 current_start' segments' /\ current_start' <= length text.
Proof.
  induction rest as [|c rest IH]; intros i cs segs segs' cs' Sk L1 L2 T; cbn [segment_loop].
  - intro E. injection E as <- <-. split; [assumption | lia].
  - destruct (skipn_cons_next _ _ _ _ Sk) as (Sk' & Li & F1).
    assert (One : tiles text i (i + 1) [([c], i)]).
    { cbn [tiles length]. repeat split; [discriminate|].
      unfold slice. replace (i + 1 - i) with 1 by lia. exact F1. }
    destruct (str_in [c] PUNCTUATION_SEPARATORS).
    + apply IH; try assumption; try lia.
      apply tiles_app with (b := i); [|exact One].
      destruct (Nat.ltb_spec cs i) as [Lt|Ge].
      * apply tiles_app with (b := cs); [assumption|]. apply tiles_one; lia.
      * replace i with cs by lia. assumption.
    + apply IH; try assumption; lia.
Qed.

(** The runs of [tokenize_text] tile the text: they follow each other
    from the first character to the last, none is empty, and each is the
    slice of the text at its offset. *)
Lemma split_segments_tiles (text : str) :
  tiles text 0 (length text) (split_segments text).
Proof.
  unfold split_segments.
  destruct (segment_loop text 0 0 text []) as [segs cs] eqn:E.
  apply segment_loop_tiles in E; try reflexivity; try lia.
  destruct E as (T & L).
  destruct (Nat.ltb_spec cs (length text)) as [Lt|Ge].
  - apply tiles_app with (b := cs); [assumption|].
    rewrite <- slice_to_end. apply tiles_one; lia.
  - replace (length text) with cs by lia. assumption.
Qed.

(** ** Spans of token lists *)

Lemma adjacent_spans_app (l1 l2 : list Token) :
  forall a b c, adjacent_spans a b l1 -> adjacent_spans b c l2 ->
                adjacent_spans a c (l1 ++ l2).
Proof.
  induction l1 as [|t r IH]; intros a b c A1 A2; cbn [adjacent_spans app] in *.
  - now subst.
  - destruct A1 as (E & L & A). repeat split; try assumption. eapply IH; eauto.
Qed.

Lemma adjacent_spans_split (l1 l2 : list Token) :
  forall a c, adjacent_spans a c (l1 ++ l2) ->
              exists b, adjacent_spans a b l1 /\ adjacent_spans b c l2.
Proof.
  induction l1 as [|t r IH]; intros a c A; cbn [adjacent_spans app] in *.
  - exists a. split; [reflexivity | assumption].
  - destruct A as (E & L & A). destruct (IH _ _ A) as (b & A1 & A2).
    exists b. repeat split; assumption.
Qed.

Lemma adjacent_spans_le (l : list Token) :
  forall a b, adjacent_spans a b l -> a <= b.
Proof.
  induction l as [|t r IH]; intros a b A; cbn [adjacent_spans] in A.
  - lia.
  - destruct A as (E & L & A). apply IH in A. lia.
Qed.

Lemma adjacent_spans_last (l : list Token) :
  forall a b d, l <> [] -> adjacent_spans a b l -> end_ (last l d) = b.
Proof.
  induction l as [|t r IH]; intros a b d N A; [contradiction|].
  cbn [adjacent_spans] in A. destruct A as (E & L & A).
  destruct r as [|t' r'].
  - cbn [adjacent_spans] in A. exact A.
  - change (last (t :: t' :: r') d) with (last (t' :: r') d).
    eapply IH; [discriminate | exact A].
Qed.

(** Adjacent tokens that spell their spans spell, together, the span of
    the group. *)
Lemma adjacent_spans_concat (text : str) (l : list Token) :
  forall a b, adjacent_spans a b l -> surface_fidelity text l ->
              concat (map surface l) = slice text a b.
Proof.
  unfold surface_fidelity.
  induction l as [|t r IH]; intros a b A F; cbn [adjacent_spans map concat] in *.
  - subst. unfold slice. now rewrite Nat.sub_diag.
  - destruct A as (E & L & A). inversion F as [|? ? Ft Fr]; subst.
    rewrite (IH _ _ A Fr), <- Ft. apply slice_app; [lia|].
    now apply adjacent_spans_le in A.
Qed.

Lemma surface_fidelity_app (text : str) (l1 l2 : list Token) :
  surface_fidelity text (l1 ++ l2) <->
  surface_fidelity text l1 /\ surface_fidelity text l2.
Proof. apply Forall_app. Qed.

(** ** The lattice keeps its spans *)

Lemma matches_append_ok (text : str) (key : span) (sg : Segment) (m : matches_t) :
  seg_start sg = fst key -> seg_end sg = snd key -> node_ok text sg ->
  lattice_ok text m -> lattice_ok text (matches_append key sg m).
Proof.
  unfold lattice_ok. intros S E N.
  induction m as [|[k segs] r IH]; cbn [matches_append]; intro F.
  - constructor; [|constructor]. cbn [snd fst]. constructor; [auto | constructor].
  - inversion F as [|? ? Fk Fr]; subst.
    destruct (span_eqb k key) eqn:K.
    + constructor; [|assumption]. cbn [snd fst] in *.
      apply Forall_app. split; [assumption|].
      unfold span_eqb in K. apply andb_true_iff in K as (K1 & K2).
      apply Nat.eqb_eq in K1, K2. constructor; [|constructor].
      repeat split; try apply N; congruence.
    + constructor; [assumption | now apply IH].
Qed.

Section Covering.

Variable chars : Characters.
Variable lex : Lexicon.

Lemma add_entries_ok (text : str) (st en : nat) (m : matches_t) :
  st < en -> en <= length text ->
  lattice_ok text m -> lattice_ok text (add_entries chars lex text st en m).
Proof.
  intros L1 L2. unfold add_entries. generalize (lookup lex (slice text st en)) as es.
  intro es. revert m. induction es as [|e es IH]; cbn [fold_left]; intros m F; [assumption|].
  apply IH. apply matches_append_ok; try reflexivity; try assumption.
  unfold node_ok. cbn [seg_start seg_end seg_surface]. auto.
Qed.

Lemma grow_ok (text : str) (sticky : list nat) (st : nat) (ends : list nat)
  (m : matches_t) :
  Forall (fun en => st < en /\ en <= length text) ends ->
  lattice_ok text m -> lattice_ok text (grow chars lex text sticky st ends m).
Proof.
  revert m. induction ends as [|en rest IH]; cbn [grow]; intros m E F; [assumption|].
  inversion E as [|? ? (E1 & E2) Er]; subst.
  destruct (nat_in en sticky); [now apply IH|].
  destruct (has_prefix lex (slice text st en)); cbn [negb]; [|assumption].
  apply IH; [assumption|]. now apply add_entries_ok.
Qed.

(** Every segment of the lattice is stored under its own span, lies
    inside the text, is not empty and has the slice of the text as its
    surface. *)
Lemma find_all_matches_ok (text : str) :
  lattice_ok text (find_all_matches chars lex text).
Proof.
  unfold find_all_matches.
  generalize (range 0 (length text)) as starts.
  assert (F0 : lattice_ok text []) by constructor. revert F0.
  generalize (@nil (span * list Segment)) as m.
  intros m F0 starts. revert m F0.
  induction starts as [|st starts IH]; cbn [fold_left]; intros m F; [assumption|].
  apply IH. destruct (nat_in st (find_sticky_positions chars text)); [assumption|].
  apply grow_ok; [|assumption].
  apply Forall_forall. intros en I. unfold range in I. apply in_seq in I. lia.
Qed.

End Covering.

(** ** Entries of the table of the dynamic program *)

Lemma dp_set_all (P : nat -> dp_entry -> Prop) (dp : dp_t) (p : nat) (v : list dp_entry) :
  dp_all P dp -> (forall e, In e v -> P p e) -> dp_all P (dp_set dp p v).
Proof.
  intros W V p' l e G I. rewrite dp_get_set in G.
  destruct (Nat.eqb_spec p p') as [->|N].
  - injection G as <-. auto.
  - eauto.
Qed.

Lemma dp_get_or_nil_all (P : nat -> dp_entry -> Prop) (dp : dp_t) (p : nat) (e : dp_entry) :
  dp_all P dp -> In e (dp_get_or_nil dp p) -> P p e.
Proof.
  intros W I. apply dp_get_or_nil_In in I as (l & G & I). eauto.
Qed.

Lemma add_gap_all (P : nat -> dp_entry -> Prop) (dp : dp_t) (p : nat) :
  (forall q sc, q < p -> P p (sc, Some q, None)) ->
  dp_all P dp -> dp_all P (add_gap dp p).
Proof.
  intros G W. unfold add_gap.
  destruct (nearest_reachable dp p) as [q|] eqn:N; [|assumption].
  apply nearest_reachable_lt in N.
  generalize (dp_get_or_nil dp q) as es. intro es. revert dp W.
  induction es as [|e es IH]; intros dp W; cbn [fold_left]; [assumption|].
  apply IH. unfold dp_append. apply dp_set_all; [assumption|].
  intros e' I. apply in_app_iff in I as [I | [<- | []]].
  - eapply dp_get_or_nil_all; eauto.
  - now apply G.
Qed.

Lemma max_from_In (l : list Segment) :
  forall best, max_from best l = best \/ In (max_from best l) l.
Proof.
  induction l as [|s r IH]; intro best; cbn [max_from]; [now left|].
  destruct (Qle_bool (score s) (score best)).
  - destruct (IH best) as [E|I]; [now left | right; now right].
  - destruct (IH s) as [E|I]; [right; left; now rewrite E | right; now right].
Qed.

Lemma max_by_score_In (segments : list Segment) (best : Segment) :
  max_by_score segments = Ok best -> In best segments.
Proof.
  destruct segments as [|s r]; cbn [max_by_score]; [discriminate|].
  intro E. injection E as <-.
  destruct (max_from_In r s) as [-> | I]; [now left | now right].
Qed.

Lemma relax_span_all (P : nat -> dp_entry -> Prop) (limit p : nat) (dp dp' : dp_t)
  (item : span * list Segment) :
  (forall g sc, In g (snd item) ->
                P (snd (fst item)) (sc, Some (fst (fst item)), Some g)) ->
  dp_all P dp -> relax_span limit p dp item = Ok dp' -> dp_all P dp'.
Proof.
  destruct item as [[st en] segs]. cbn [fst snd relax_span]. intros F W.
  destruct (Nat.eqb_spec st p) as [->|N]; cbn [negb].
  - destruct (max_by_score segs) as [best|] eqn:M; [|discriminate].
    apply max_by_score_In in M.
    intro H. injection H as <-.
    generalize (dp_get_or_nil dp p) as es. intro es. revert dp W.
    induction es as [|e es IH]; intros dp W; cbn [fold_left]; [assumption|].
    apply IH. apply dp_set_all; [assumption|].
    intros e' I. apply In_firstn in I. apply sorted_In in I.
    apply in_app_iff in I as [I | [<- | []]].
    + eapply dp_get_or_nil_all; eauto.
    + now apply F.
  - intro H. now injection H as <-.
Qed.

Lemma relax_all_all (P : nat -> dp_entry -> Prop) (limit p : nat) (items : matches_t) :
  Forall (fun item : span * list Segment =>
            forall g sc, In g (snd item) ->
                         P (snd (fst item)) (sc, Some (fst (fst item)), Some g)) items ->
  forall dp dp', dp_all P dp -> relax_all limit p items dp = Ok dp' -> dp_all P dp'.
Proof.
  induction items as [|item r IH]; intros F dp dp' W; cbn [relax_all].
  - intro H. now injection H as <-.
  - inversion F as [|? ? Fi Fr]; subst.
    destruct (relax_span limit p dp item) as [dp1|] eqn:R; [|discriminate].
    apply IH; [assumption|]. eapply relax_span_all; eauto.
Qed.

Lemma forward_all (P : nat -> dp_entry -> Prop) (limit : nat) (gaps : bool)
  (m : matches_t) (positions : list nat) :
  (forall p q sc, q < p -> P p (sc, Some q, None)) ->
  Forall (fun item : span * list Segment =>
            forall g sc, In g (snd item) ->
                         P (snd (fst item)) (sc, Some (fst (fst item)), Some g)) m ->
  forall dp dp', dp_all P dp -> forward limit gaps m positions dp = Ok dp' ->
                 dp_all P dp'.
Proof.
  intros G F. induction positions as [|p r IH]; intros dp dp' W; cbn [forward].
  - intro H. now injection H as <-.
  - match goal with |- context [forward _ _ _ r ?d] => set (d0 := d) end.
    assert (W0 : dp_all P d0).
    { unfold d0. destruct (negb (dp_mem dp p) && gaps); [apply add_gap_all; auto | assumption]. }
    destruct (negb (dp_mem d0 p)); [now apply IH|].
    destruct (relax_all limit p m d0) as [dp1|] eqn:R; [|discriminate].
    apply IH. eapply relax_all_all; eauto.
Qed.

(** ** The path of the selector *)

Lemma rchain_weaken (text : str) (l : list Segment) (hi hi' : nat) :
  hi <= hi' -> rchain text hi l -> rchain text hi' l.
Proof.
  destruct l as [|g r]; cbn [rchain]; [auto|].
  intros L (E & N & R). split; [lia | split; assumption].
Qed.

Lemma chain_weaken (text : str) (l : list Segment) (a a' b : nat) :
  a' <= a -> chain text a b l -> chain text a' b l.
Proof.
  destruct l as [|g r]; cbn [chain]; [lia|].
  intros L (E & N & R). split; [lia | split; assumption].
Qed.

Lemma chain_app (text : str) (l1 l2 : list Segment) :
  forall a b c, chain text a b l1 -> chain text b c l2 -> chain text a c (l1 ++ l2).
Proof.
  induction l1 as [|g r IH]; intros a b c C1 C2; cbn [chain app] in *.
  - eapply chain_weaken; eauto.
  - destruct C1 as (E & N & C). split; [assumption | split; [assumption|]].
    eapply IH; eauto.
Qed.

Lemma rchain_rev (text : str) (l : list Segment) :
  forall hi, rchain text hi l -> chain text 0 hi (rev l).
Proof.
  induction l as [|g r IH]; intros hi R; cbn [rchain rev] in *.
  - cbn [chain]. lia.
  - destruct R as (E & N & R). apply chain_app with (b := seg_start g).
    + now apply IH.
    + cbn [chain]. split; [lia | split; [assumption | lia]].
Qed.

Lemma backtrack_rchain (text : str) (dp : dp_t) :
  dp_all (entry_ok text) dp ->
  forall fuel current_pos e path gaps,
    entry_ok text current_pos e ->
    exists p2, fst (backtrack fuel dp current_pos e path gaps) = path ++ p2 /\
               rchain text current_pos p2.
Proof.
  intro W. induction fuel as [|fuel IH]; intros cp e path gaps E.
  - exists []. cbn [backtrack fst rchain]. now rewrite app_nil_r.
  - destruct e as [[s prev] sg]. cbn [backtrack].
    destruct E as (Eb & Es). cbn [fst snd] in Eb, Es.
    destruct sg as [g|].
    + destruct (Es g eq_refl) as (Ep & Ee & N). subst prev.
      assert (Base : rchain text cp [g]).
      { cbn [rchain]. split; [lia | split; [assumption | exact I]]. }
      destruct (seg_start g =? 0); [exists [g]; now split|].
      destruct (dp_get_or_nil dp (seg_start g)) as [|e' l'] eqn:G; [exists [g]; now split|].
      assert (I : In e' (dp_get_or_nil dp (seg_start g))) by (rewrite G; now left).
      apply (dp_get_or_nil_all _ _ _ _ W) in I.
      destruct (IH (seg_start g) e' (path ++ [g]) gaps I) as (p2 & E2 & R2).
      exists (g :: p2). split.
      * rewrite E2, <- app_assoc. reflexivity.
      * cbn [rchain]. split; [lia | split; assumption].
    + destruct prev as [pr|].
      * assert (Lp : pr < cp) by now apply Eb.
        match goal with
        | |- context [let '(_, _) := ?x in _] =>
            replace x with (path, if pr <? cp then gaps ++ [(pr, cp)] else gaps)
              by (destruct (pr <? cp); reflexivity)
        end.
        cbv beta iota.
        destruct (pr =? 0); [exists []; cbn [fst rchain]; now rewrite app_nil_r|].
        destruct (dp_get_or_nil dp pr) as [|e' l'] eqn:G;
          [exists []; cbn [fst rchain]; now rewrite app_nil_r|].
        assert (I : In e' (dp_get_or_nil dp pr)) by (rewrite G; now left).
        apply (dp_get_or_nil_all _ _ _ _ W) in I.
        destruct (IH pr e' path (if pr <? cp then gaps ++ [(pr, cp)] else gaps) I)
          as (p2 & E2 & R2).
        exists p2. split; [assumption|]. eapply rchain_weaken; [|eassumption]. lia.
      * exists []. cbn [fst rchain]. now rewrite app_nil_r.
Qed.

Lemma entry_ok_gap (text : str) (p q : nat) (sc : Q) :
  q < p -> entry_ok text p (sc, Some q, None).
Proof.
  intro L. split; cbn [fst snd].
  - intros q' E. injection E as <-. assumption.
  - discriminate.
Qed.

Lemma lattice_entries_ok (text : str) (m : matches_t) :
  lattice_ok text m ->
  Forall (fun item : span * list Segment =>
            forall g sc, In g (snd item) ->
                         entry_ok text (snd (fst item)) (sc, Some (fst (fst item)), Some g)) m.
Proof.
  unfold lattice_ok. intro F. eapply Forall_impl; [|exact F].
  intros [[st en] segs] Fk g sc I. cbn [fst snd] in *.
  rewrite Forall_forall in Fk. destruct (Fk g I) as (S & E & N).
  split; cbn [fst snd].
  - intros q Eq. injection Eq as <-. destruct N as (N1 & _). lia.
  - intros g' Eg. injection Eg as <-. repeat split; try apply N; congruence.
Qed.

(** Every path the selector returns for a lattice of the text is a
    chain of nodes in text order: the segments do not overlap and lie
    between the first and the last character. *)
Lemma find_best_path_chain (text : str) (m : matches_t) (limit : nat) (gaps : bool)
  (rs : list (list Segment * Q)) (path : list Segment) (sc : Q) :
  lattice_ok text m ->
  find_best_path m (length text) limit gaps = Ok rs ->
  In (path, sc) rs ->
  chain text 0 (length text) path.
Proof.
  intros L. unfold find_best_path. destruct m as [|kv m']; [intro E; now injection E as <-|].
  set (m := kv :: m') in *.
  destruct (forward limit gaps m (range 0 (length text + 1)) _) as [dp|] eqn:F; [|discriminate].
  assert (W : dp_all (entry_ok text) dp).
  { eapply forward_all; [| |  |exact F].
    - intros. now apply entry_ok_gap.
    - now apply lattice_entries_ok.
    - intros p l e G I. cbn [dp_get] in G. destruct (0 =? p); [|discriminate].
      injection G as <-. destruct I as [<- | []]. split; cbn [fst snd]; discriminate. }
  match goal with |- context [dp_mem ?d (length text)] => set (dp' := d) end.
  assert (W' : dp_all (entry_ok text) dp').
  { unfold dp'. destruct (negb (dp_mem dp (length text)) && gaps); [|assumption].
    apply add_gap_all; [|assumption]. intros. now apply entry_ok_gap. }
  destruct (negb (dp_mem dp' (length text))); [intro E; now injection E as <-|].
  intro E. injection E as <-. intro I.
  apply in_map_iff in I as ([[path' sc'] gs] & Eq & I). cbn [fst snd] in Eq.
  injection Eq as -> ->.
  apply In_firstn in I. apply sorted_In in I.
  apply in_flat_map in I as (e & Ie & I).
  apply (dp_get_or_nil_all _ _ _ _ W') in Ie.
  unfold reconstruct in I.
  destruct (backtrack_rchain text dp' W' (S (length text)) (length text) e [] [] Ie)
    as (p2 & E2 & R2).
  destruct (backtrack (S (length text)) dp' (length text) e [] []) as [bp bg].
  cbn [fst app] in E2. subst bp.
  assert (C : chain text 0 (length text) (rev p2)) by now apply rchain_rev.
  destruct (rev p2) as [|x xs]; destruct (rev bg) as [|y ys]; cbn [In] in I;
    try contradiction; destruct I as [I | []]; injection I as <- _ _; assumption.
Qed.

(** ** The tokens of the selector cover the text *)

Section Selected.

Variable chars : Characters.
Variable lex : Lexicon.

Lemma path_tokens_spans (text seg_text : str) (seg_off : nat) :
  slice text seg_off (seg_off + length seg_text) = seg_text ->
  forall path last_end toks last_end',
    chain seg_text last_end (length seg_text) path ->
    path_tokens chars seg_text seg_off path last_end = (toks, last_end') ->
    last_end <= last_end' /\ last_end' <= length seg_text /\
    adjacent_spans (seg_off + last_end) (seg_off + last_end') toks /\
    surface_fidelity text toks.
Proof.
  intro S.
  assert (Sub : forall a b, b <= length seg_text ->
                  slice text (seg_off + a) (seg_off + b) = slice seg_text a b).
  { intros a b L. rewrite <- (slice_slice text seg_off (length seg_text) a b L).
    now rewrite S. }
  induction path as [|g rest IH]; intros le toks le' C; cbn [path_tokens chain] in *.
  - intro E. injection E as <- <-.
    split; [lia|]. split; [lia|]. split; [reflexivity | constructor].
  - destruct C as (L & (N1 & N2 & N3) & C).
    destruct (path_tokens chars seg_text seg_off rest (seg_end g)) as [toks0 le0] eqn:P.
    intro E. injection E as <- <-.
    destruct (IH _ _ _ C P) as (A1 & A2 & A3 & A4).
    split; [lia|]. split; [lia|].
    assert (Tg : adjacent_spans (seg_off + seg_start g) (seg_off + le0)
                   (segment_token chars g seg_off :: toks0) /\
                 surface_fidelity text (segment_token chars g seg_off :: toks0)).
    { split.
      - unfold segment_token. cbn [adjacent_spans start end_].
        split; [reflexivity|]. split; [lia | assumption].
      - constructor; [|assumption]. unfold segment_token. cbn [surface start end_].
        rewrite N3. now apply Sub. }
    destruct Tg as (Tg1 & Tg2).
    destruct (Nat.ltb_spec le (seg_start g)) as [Lt|Ge].
    + split.
      * apply adjacent_spans_app with (b := seg_off + seg_start g); [|assumption].
        unfold unknown_token. cbn [adjacent_spans start end_].
        split; [reflexivity|]. split; [lia | reflexivity].
      * apply surface_fidelity_app. split; [|assumption].
        constructor; [|constructor]. unfold unknown_token. cbn [surface start end_].
        apply Sub. lia.
    + cbn [app]. replace le with (seg_start g) by lia. split; assumption.
Qed.

Lemma segment_tokens_spans (text seg_text : str) (seg_off : nat) (toks : list Token) :
  seg_text <> [] ->
  slice text seg_off (seg_off + length seg_text) = seg_text ->
  segment_tokens chars lex (seg_text, seg_off) = Ok toks ->
  adjacent_spans seg_off (seg_off + length seg_text) toks /\ surface_fidelity text toks.
Proof.
  intros NE S. unfold segment_tokens.
  assert (Pos : 0 < length seg_text) by (destruct seg_text; [contradiction | cbn [length]; lia]).
  destruct (str_in seg_text PUNCTUATION_SEPARATORS) eqn:P.
  - apply punctuation_is_one_char in P as (c & ->). intro E. injection E as <-.
    unfold punctuation_token. cbn [adjacent_spans start end_ length] in *.
    split; [split; [reflexivity | split; [lia | reflexivity]]|].
    constructor; [|constructor]. cbn [surface start end_]. exact S.
  - destruct (find_best_path (find_all_matches chars lex seg_text) (length seg_text) 1 true)
      as [[|[path sc] rs]|] eqn:F; [| |discriminate].
    + intro E. injection E as <-. unfold unknown_token. cbn [adjacent_spans start end_].
      split; [split; [reflexivity | split; [lia | reflexivity]]|].
      constructor; [|constructor]. cbn [surface start end_]. exact S.
    + assert (C : chain seg_text 0 (length seg_text) path).
      { eapply find_best_path_chain; [apply find_all_matches_ok | exact F | now left]. }
      destruct (path_tokens chars seg_text seg_off path 0) as [toks0 le0] eqn:PT.
      destruct (path_tokens_spans text seg_text seg_off S _ _ _ _ C PT) as (A1 & A2 & A3 & A4).
      rewrite Nat.add_0_r in A3.
      destruct (Nat.ltb_spec le0 (length seg_text)) as [Lt|Ge]; intro E; injection E as <-.
      * split.
        -- apply adjacent_spans_app with (b := seg_off + le0); [assumption|].
           unfold unknown_token. cbn [adjacent_spans start end_].
           split; [reflexivity | split; [lia | reflexivity]].
        -- apply surface_fidelity_app. split; [assumption|].
           constructor; [|constructor]. unfold unknown_token. cbn [surface start end_].
           rewrite <- slice_to_end, <- (slice_slice text seg_off (length seg_text)); [|lia].
           now rewrite S.
      * replace (length seg_text) with le0 by lia. split; assumption.
Qed.

Lemma all_segment_tokens_spans (text : str) (segments : list (str * nat)) :
  forall a b acc toks,
    tiles text a b segments ->
    adjacent_spans 0 a acc -> surface_fidelity text acc ->
    all_segment_tokens chars lex segments acc = Ok toks ->
    adjacent_spans 0 b toks /\ surface_fidelity text toks.
Proof.
  induction segments as [|[s off] r IH]; intros a b acc toks T A F;
    cbn [all_segment_tokens tiles] in *.
  - intro E. injection E as <-. subst. split; assumption.
  - destruct T as (-> & NE & S & T).
    destruct (segment_tokens chars lex (s, a)) as [ts|] eqn:ST; [|discriminate].
    destruct (segment_tokens_spans text s a ts NE S ST) as (A' & F').
    apply IH with (a := a + length s); [assumption | |].
    + eapply adjacent_spans_app; eauto.
    + apply surface_fidelity_app. split; assumption.
Qed.


End Selected.

(** ** The parts of a split spell the word *)

Lemma endswith_app (s p : str) : endswith s p = true -> drop_last (length p) s ++ p = s.
Proof.
  unfold endswith, drop_last. intro H. apply andb_true_iff in H as (L & E).
  apply str_eqb_eq in E. rewrite <- E at 2. apply firstn_skipn.
Qed.

Lemma endswith_app_r (x b : str) : endswith (x ++ b) b = true.
Proof.
  unfold endswith. rewrite length_app. apply andb_true_iff. split.
  - apply Nat.leb_le. lia.
  - replace (length x + length b - length b) with (length x + 0) by lia.
    rewrite skipn_app, Nat.add_0_r, skipn_all. cbn [app].
    replace (length x - length x) with 0 by lia. cbn [skipn]. apply str_eqb_refl.
Qed.

Lemma endswith_suffix (s a b : str) : endswith s (a ++ b) = true -> endswith s b = true.
Proof.
  intro H. apply endswith_app in H. rewrite <- H, app_assoc. apply endswith_app_r.
Qed.

Lemma startswith_firstn (p : str) :
  forall s, startswith s p = true -> firstn (length p) s = p.
Proof.
  induction p as [|y p IH]; intros s H; [reflexivity|].
  destruct s as [|x s]; cbn [startswith] in H; [discriminate|].
  apply andb_true_iff in H as (E & H). apply N.eqb_eq in E. subst.
  cbn [length firstn]. now rewrite IH.
Qed.

Lemma spells_snoc (s base p : str) (parts : list str) :
  spells base parts -> p <> [] -> base ++ p = s -> spells s (parts ++ [p]).
Proof.
  intros (C & F) N E. split.
  - rewrite concat_app, C. cbn [concat]. now rewrite app_nil_r.
  - apply Forall_app. split; [assumption | constructor; [assumption | constructor]].
Qed.

Lemma word_get_In {V : Type} (d : list (str * V)) (k : str) (v : V) :
  word_get d k = Some v -> In (k, v) d.
Proof.
  induction d as [|[k' v'] r IH]; cbn [word_get]; [discriminate|].
  destruct (str_eqb k' k) eqn:E.
  - intro H. injection H as <-. apply str_eqb_eq in E. subst. now left.
  - intro H. right. now apply IH.
Qed.

Lemma nonempty_parts (parts : list str) :
  forallb (fun p => 0 <? length p) parts = true -> Forall (fun p => p <> []) parts.
Proof.
  intro H. apply Forall_forall. intros p I. rewrite forallb_forall in H.
  apply H in I. apply Nat.ltb_lt in I. intros ->. cbn [length] in I. lia.
Qed.

Lemma compound_verb_splits_spell (s : str) (parts : list str) :
  word_get COMPOUND_VERB_SPLITS s = Some parts -> spells s parts.
Proof.
  intro H. apply word_get_In in H.
  assert (A : forallb (fun wp : str * list str =>
                         str_eqb (concat (snd wp)) (fst wp) &&
                         forallb (fun p => 0 <? length p) (snd wp))
                      COMPOUND_VERB_SPLITS = true) by (vm_compute; reflexivity).
  rewrite forallb_forall in A. apply A in H. cbn [fst snd] in H.
  apply andb_true_iff in H as (E & N). apply str_eqb_eq in E.
  split; [assumption | now apply nonempty_parts].
Qed.

Section Splitting.

Variable chars : Characters.
Variable lex : Lexicon.

Lemma split_prefix_spells (word prefix : str) (r : list str) :
  length prefix = 1 -> split_prefix lex word prefix = Some r -> spells word r.
Proof.
  intros L. unfold split_prefix.
  destruct (startswith word prefix && (1 <? length word)) eqn:E; [|discriminate].
  apply andb_true_iff in E as (S & L1). apply Nat.ltb_lt in L1.
  destruct (word_exists_in_dict lex (skipn 1 word)); [|discriminate].
  intro H. injection H as <-. apply startswith_firstn in S. rewrite L in S.
  split.
  - cbn [concat]. rewrite app_nil_r. rewrite <- S at 1. apply firstn_skipn.
  - constructor.
    + intros ->. discriminate.
    + constructor; [|constructor]. intro E.
      destruct word as [|x [|y w]]; cbn [length] in L1; try lia. discriminate.
Qed.

Lemma should_split_prefix_particle_spells (word : str) (r : list str) :
  should_split_prefix_particle lex word = Some r -> spells word r.
Proof.
  unfold should_split_prefix_particle.
  destruct (negb (str_in word PREFIX_SPLIT_PATTERNS)); [discriminate|].
  destruct (split_prefix lex word (u "に")) eqn:E1.
  { intro H. injection H as <-. eapply split_prefix_spells; [|exact E1]. reflexivity. }
  destruct (split_prefix lex word (u "と")) eqn:E2.
  { intro H. injection H as <-. eapply split_prefix_spells; [|exact E2]. reflexivity. }
  destruct (split_prefix lex word (u "で")) eqn:E3.
  { intro H. injection H as <-. eapply split_prefix_spells; [|exact E3]. reflexivity. }
  intro H. eapply split_prefix_spells; [|exact H]. reflexivity.
Qed.

Lemma split_particle_of_endswith (remaining particle : str) :
  split_particle_of chars lex remaining = Some particle ->
  endswith remaining particle = true /\ length particle = 1.
Proof.
  intro H. split; [|now apply (split_particle_of_one_char chars lex remaining)].
  unfold split_particle_of in H. apply first_some_In in H as (x & I & F).
  destruct (endswith remaining x) eqn:E; cbn [andb] in F; [|discriminate].
  destruct ((length x <? length remaining) && should_split_particle chars lex remaining x);
    [|discriminate].
  now injection F as <-.
Qed.

Lemma should_split_copula_endswith (word copula : str) :
  should_split_copula word = (true, copula) ->
  endswith word copula = true /\ length copula = 1.
Proof.
  intro H. split; [|now apply (should_split_copula_one_char word)].
  unfold should_split_copula in H.
  destruct (str_eqb word (u "ようだ")) eqn:E1.
  { apply str_eqb_eq in E1. injection H as <-. subst. reflexivity. }
  destruct (str_eqb word (u "はずだ")) eqn:E2.
  { apply str_eqb_eq in E2. injection H as <-. subst. reflexivity. }
  destruct (str_eqb word (u "からだ")) eqn:E3.
  { apply str_eqb_eq in E3. injection H as <-. subst. reflexivity. }
  destruct (endswith word (u "ようだ")) eqn:E4; cbn [andb] in H.
  - destruct ((3 <? length word) && negb (str_in word NO_SPLIT_DA_WORDS)); [|discriminate].
    injection H as <-. apply (endswith_suffix word (u "よう") (u "だ")). exact E4.
  - discriminate.
Qed.

Lemma should_split_explanatory_n_endswith (word : str) :
  should_split_explanatory_n lex word = true -> endswith word (u "ん") = true.
Proof.
  unfold should_split_explanatory_n.
  destruct (endswith word (u "ん")); [reflexivity | discriminate].
Qed.

Lemma drop_last_nonempty (s : str) : 2 <= length s -> drop_last 1 s <> [].
Proof.
  intros L E. apply (f_equal (@length char)) in E.
  rewrite length_drop_last in E. cbn [length] in E. lia.
Qed.

Lemma one_char_nonempty (p : str) : length p = 1 -> p <> [].
Proof. intros L ->. discriminate. Qed.

Lemma split_token_rec_spells (fuel : nat) :
  forall s, s <> [] -> spells s (split_token_rec chars lex fuel s).
Proof.
  assert (Self : forall s : str, s <> [] -> spells s [s]).
  { intros s N. split; [cbn [concat]; apply app_nil_r | constructor; [assumption | constructor]]. }
  assert (Snoc : forall s p parts,
             2 <= length s -> endswith s p = true -> length p = 1 ->
             spells (drop_last (length p) s) parts -> spells s (parts ++ [p])).
  { intros s p parts L E L1 Sp. eapply spells_snoc; [exact Sp | | now apply endswith_app].
    now apply one_char_nonempty. }
  induction fuel as [|fuel IH]; intros s N; cbn [split_token_rec]; [now apply Self|].
  destruct (length s <? 2) eqn:E2; [now apply Self|]. apply Nat.ltb_ge in E2.
  destruct (word_get COMPOUND_VERB_SPLITS s) as [parts|] eqn:W.
  { now apply compound_verb_splits_spell. }
  assert (Tail :
    spells s
      match split_internal_particles lex (split_token_rec chars lex fuel) s with
      | Some (p :: ps) => p :: ps
      | _ =>
          match split_particle_of chars lex s with
          | Some particle =>
              split_token_rec chars lex fuel (drop_last (length particle) s) ++ [particle]
          | None =>
              let '(should, copula) := should_split_copula s in
              if should
              then split_token_rec chars lex fuel (drop_last (length copula) s) ++ [copula]
              else if should_split_conditional s
              then split_token_rec chars lex fuel (drop_last 1 s) ++ [u "ば"]
              else if should_split_explanatory_n lex s
              then split_token_rec chars lex fuel (drop_last 1 s) ++ [u "ん"]
              else [s]
          end
      end).
  { rewrite split_internal_particles_none.
    destruct (split_particle_of chars lex s) as [particle|] eqn:P.
    - apply split_particle_of_endswith in P as (E & L1).
      apply Snoc; try assumption. apply IH. rewrite L1. now apply drop_last_nonempty.
    - destruct (should_split_copula s) as [[|] copula] eqn:C.
      + apply should_split_copula_endswith in C as (E & L1).
        apply Snoc; try assumption. apply IH. rewrite L1. now apply drop_last_nonempty.
      + cbn [should_split_conditional].
        destruct (should_split_explanatory_n lex s) eqn:X; [|now apply Self].
        apply should_split_explanatory_n_endswith in X.
        apply (Snoc s (u "ん")); try assumption; try reflexivity.
        apply IH. now apply drop_last_nonempty. }
  destruct (should_split_prefix_particle lex s) as [[|p ps]|] eqn:Pf; try exact Tail.
  now apply should_split_prefix_particle_spells.
Qed.

(** The parts [split_token] returns spell the word: put together they
    give the surface back, and none of them is empty. *)
Lemma split_token_spells (s : str) : s <> [] -> spells s (split_token chars lex s).
Proof. apply split_token_rec_spells. Qed.

End Splitting.

(** ** The rewriter keeps the cover of the text *)

Lemma regrouped_spans (text : str) (tokens out : list Token) (a b : nat) :
  regrouped passes_or_merges tokens out ->
  adjacent_spans a b tokens -> surface_fidelity text tokens ->
  adjacent_spans a b out /\ surface_fidelity text out.
Proof.
  intros (groups & C & F). subst tokens. revert a.
  induction F as [|g t gs ts Hgt F IH]; intros a A Fd; cbn [concat] in *.
  - split; [assumption | constructor].
  - apply adjacent_spans_split in A as (mid & A1 & A2).
    apply surface_fidelity_app in Fd as (F1 & F2).
    destruct (IH _ A2 F2) as (A' & F').
    assert (T : start t = a /\ start t < end_ t /\ end_ t = mid /\
                slice text (start t) (end_ t) = surface t).
    { destruct Hgt as [-> | (L & S & St & En)].
      - cbn [adjacent_spans] in A1. destruct A1 as (X & Y & Z).
        inversion F1; subst. auto.
      - destruct g as [|x g']; [cbn [length] in L; lia|]. cbn [hd] in St.
        pose proof (adjacent_spans_concat text _ _ _ A1 F1) as Cc.
        assert (La : end_ (last (x :: g') t) = mid).
        { eapply adjacent_spans_last; [discriminate | exact A1]. }
        cbn [adjacent_spans] in A1. destruct A1 as (X & Y & Z).
        apply adjacent_spans_le in Z.
        rewrite St, En, La, S, X, Cc. repeat split; lia. }
    destruct T as (T1 & T2 & T3 & T4). split.
    + cbn [adjacent_spans]. rewrite T3. split; [assumption | split; [lia | assumption]].
    + constructor; assumption.
Qed.

Lemma until_stable_keeps (P : list Token -> Prop) (pass : list Token -> list Token) :
  (forall l, P l -> P (pass l)) ->
  forall fuel prev_len l, P l -> P (until_stable pass fuel prev_len l).
Proof.
  intro K. induction fuel as [|fuel IH]; intros prev l H; cbn [until_stable]; [assumption|].
  destruct (Z.of_nat (length l) =? prev)%Z; [assumption|]. apply IH. now apply K.
Qed.

Lemma repeat_pass_keeps (P : list Token -> Prop) (pass : list Token -> list Token)
  (l : list Token) :
  (forall l, P l -> P (pass l)) -> P l -> P (repeat_pass pass l).
Proof. intros K H. unfold repeat_pass. now apply until_stable_keeps. Qed.

Lemma app_eq_length {A : Type} (l1 l2 x y : list A) :
  l1 ++ l2 = x ++ y -> length l1 = length x -> l1 = x /\ l2 = y.
Proof.
  revert x. induction l1 as [|a l1 IH]; intros [|b x] E L; cbn [length app] in *;
    try discriminate.
  - auto.
  - injection E as -> E. destruct (IH x E) as (-> & ->); [lia | auto].
Qed.

Lemma slice_app_inv (text x y : str) (a : nat) :
  a + length (x ++ y) <= length text ->
  slice text a (a + length (x ++ y)) = x ++ y ->
  slice text a (a + length x) = x /\
  slice text (a + length x) (a + length x + length y) = y.
Proof.
  rewrite length_app. intros L E.
  rewrite <- (slice_app text a (a + length x)) in E by lia.
  apply app_eq_length in E.
  - replace (a + length x + length y) with (a + (length x + length y)) by lia. exact E.
  - rewrite slice_length by lia. lia.
Qed.

Lemma contains_str_slice (text needle : str) (a : nat) :
  needle <> [] ->
  slice text a (a + length needle) = needle -> contains_str text needle = true.
Proof.
  intros N E. unfold contains_str. apply existsb_exists. exists a. split.
  - unfold range. apply in_seq.
    assert (L : a + length needle <= length text).
    { apply slice_full_length; [|now rewrite E].
      destruct needle; [contradiction | cbn [length]; lia]. }
    lia.
  - rewrite E. apply str_eqb_refl.
Qed.

Lemma token_substitutions_parts (p r : list str) :
  In (p, r) TOKEN_SUBSTITUTIONS ->
  Forall (fun x => x <> []) p /\ Forall (fun x => x <> []) r.
Proof.
  intro H.
  assert (A : forallb (fun pr : list str * list str =>
                         forallb (fun x => 0 <? length x) (fst pr) &&
                         forallb (fun x => 0 <? length x) (snd pr))
                      TOKEN_SUBSTITUTIONS = true) by (vm_compute; reflexivity).
  rewrite forallb_forall in A. apply A in H. cbn [fst snd] in H.
  apply andb_true_iff in H as (P & R). split; now apply nonempty_parts.
Qed.

Lemma pattern_match_span (text : str) (tokens : list Token) (n a b : nat) :
  n <= length tokens ->
  adjacent_spans a b tokens -> surface_fidelity text tokens ->
  exists mid,
    adjacent_spans a mid (firstn n tokens) /\ surface_fidelity text (firstn n tokens) /\
    adjacent_spans mid b (skipn n tokens) /\ surface_fidelity text (skipn n tokens) /\
    concat (map surface (firstn n tokens)) = slice text a mid /\ a <= mid /\ mid <= b.
Proof.
  intros L A F. rewrite <- (firstn_skipn n tokens) in A, F.
  apply adjacent_spans_split in A as (mid & A1 & A2).
  apply surface_fidelity_app in F as (F1 & F2).
  exists mid. repeat split; try assumption.
  - now apply adjacent_spans_concat.
  - now apply adjacent_spans_le in A1.
  - now apply adjacent_spans_le in A2.
Qed.

Section Rewriter.

Variable chars : Characters.
Variable lex : Lexicon.

Lemma part_tokens_spans (text : str) (parts : list str) :
  forall s,
    Forall (fun p => p <> []) parts ->
    s + length (concat parts) <= length text ->
    slice text s (s + length (concat parts)) = concat parts ->
    adjacent_spans s (s + length (concat parts)) (part_tokens lex parts s) /\
    surface_fidelity text (part_tokens lex parts s).
Proof.
  induction parts as [|p ps IH]; intros s N L E; cbn [concat part_tokens] in *.
  - cbn [length adjacent_spans]. split; [lia | constructor].
  - inversion N as [|? ? Np Nps]; subst.
    destruct (slice_app_inv text p (concat ps) s L E) as (E1 & E2).
    rewrite length_app in *.
    destruct (IH (s + length p) Nps) as (A & F); [lia | exact E2 |].
    destruct (looked_up_token_fields lex p p "unk" s (s + length p)) as (S & _ & _ & St & En).
    assert (Lp : 0 < length p) by (destruct p; [contradiction | cbn [length]; lia]).
    split.
    + cbn [adjacent_spans]. rewrite St, En. split; [reflexivity|]. split; [lia|].
      replace (s + (length p + length (concat ps)))
        with (s + length p + length (concat ps)) by lia. exact A.
    + constructor; [|assumption]. rewrite St, En, S. exact E1.
Qed.

Lemma split_tokens_spans (text : str) (tokens : list Token) :
  forall a b,
    b <= length text ->
    adjacent_spans a b tokens -> surface_fidelity text tokens ->
    adjacent_spans a b (split_tokens chars lex tokens) /\
    surface_fidelity text (split_tokens chars lex tokens).
Proof.
  unfold split_tokens.
  induction tokens as [|t r IH]; intros a b L A F; cbn [flat_map].
  - split; assumption.
  - cbn [adjacent_spans] in A. destruct A as (St & Lt & A).
    inversion F as [|? ? Ft Fr]; subst.
    pose proof (adjacent_spans_le _ _ _ A) as Le.
    destruct (IH _ _ L A Fr) as (A' & F').
    assert (Len : length (surface t) = end_ t - start t).
    { rewrite <- Ft. apply slice_length. lia. }
    assert (NE : surface t <> []).
    { intro E. rewrite E in Len. cbn [length] in Len. lia. }
    destruct (split_token_spells chars lex (surface t) NE) as (C & N).
    destruct (length (split_token chars lex (surface t)) =? 1).
    + split; [|constructor; assumption].
      cbn [app adjacent_spans]. auto.
    + destruct (part_tokens_spans text (split_token chars lex (surface t)) (start t) N)
        as (Ap & Fp).
      * rewrite C, Len. lia.
      * rewrite C, Len. replace (start t + (end_ t - start t)) with (end_ t) by lia.
        exact Ft.
      * rewrite C, Len in Ap.
        replace (start t + (end_ t - start t)) with (end_ t) in Ap by lia.
        split; [eapply adjacent_spans_app; eauto|].
        apply surface_fidelity_app. split; assumption.
Qed.

Lemma substitution_loop_spans (text : str) :
  contains_str text (u "養育費きちんと") = false ->
  contains_str text (u "またお会いましょう") = false ->
  forall fuel tokens a,
    length tokens <= fuel ->
    adjacent_spans a (length text) tokens -> surface_fidelity text tokens ->
    adjacent_spans a (length text) (substitution_loop lex fuel tokens) /\
    surface_fidelity text (substitution_loop lex fuel tokens).
Proof.
  intros H1 H2. induction fuel as [|fuel IH]; intros tokens a L A F.
  - destruct tokens; [|cbn [length] in L; lia]. cbn [substitution_loop]. split; assumption.
  - destruct tokens as [|t rest]; [cbn [substitution_loop]; split; assumption|].
    cbn [substitution_loop].
    destruct (find_pattern TOKEN_SUBSTITUTIONS (t :: rest)) as [[p r]|] eqn:FP.
    + destruct (find_pattern_some _ _ _ _ FP) as (I & Lp & M).
      pose proof (token_substitutions_nonempty _ _ I) as Lm.
      destruct (token_substitutions_parts _ _ I) as (Np & Nr).
      destruct (pattern_match_span text (t :: rest) (length p) a (length text) Lp A F)
        as (mid & A1 & F1 & A2 & F2 & Cc & Le1 & Le2).
      rewrite M in Cc.
      assert (St : start t = a) by (cbn [adjacent_spans] in A; apply A).
      assert (Len : length (concat p) = mid - a) by (rewrite Cc; now apply slice_length).
      assert (NEp : concat p <> []).
      { destruct p as [|x p']; [cbn [length] in Lm; lia|].
        inversion Np; subst. cbn [concat]. destruct x; [contradiction | discriminate]. }
      assert (Sl : slice text a (a + length (concat p)) = concat p).
      { rewrite Len. replace (a + (mid - a)) with mid by lia. now symmetry. }
      destruct (IH (skipn (length p) (t :: rest)) mid) as (A' & F'); try assumption.
      { rewrite length_skipn. cbn [length] in *. lia. }
      rewrite St.
      destruct (token_substitutions_spell _ _ I) as [E | [E | E]].
      * destruct (part_tokens_spans text r a Nr) as (Ap & Fp).
        -- rewrite <- E, Len. lia.
        -- rewrite <- E. exact Sl.
        -- rewrite <- E, Len in Ap. replace (a + (mid - a)) with mid in Ap by lia.
           split; [eapply adjacent_spans_app; eauto|].
           apply surface_fidelity_app. split; assumption.
      * assert (Ep : concat p = u "またお会いましょう")
          by (injection E as -> _; vm_compute; reflexivity).
        rewrite Ep in NEp, Sl.
        rewrite (contains_str_slice text _ a NEp Sl) in H2. discriminate.
      * assert (Ep : concat p = u "養育費きちんと")
          by (injection E as -> _; vm_compute; reflexivity).
        rewrite Ep in NEp, Sl.
        rewrite (contains_str_slice text _ a NEp Sl) in H1. discriminate.
    + cbn [adjacent_spans] in A. destruct A as (St & Lt & A).
      inversion F as [|? ? Ft Fr]; subst.
      destruct (IH rest (end_ t)) as (A' & F'); try assumption.
      { cbn [length] in L. lia. }
      split; [cbn [adjacent_spans]; auto | constructor; assumption].
Qed.

Lemma apply_token_substitutions_spans (text : str) (tokens : list Token) :
  contains_str text (u "養育費きちんと") = false ->
  contains_str text (u "またお会いましょう") = false ->
  covers text tokens -> surface_fidelity text tokens ->
  covers text (apply_token_substitutions lex tokens) /\
  surface_fidelity text (apply_token_substitutions lex tokens).
Proof.
  intros H1 H2 A F. unfold apply_token_substitutions.
  destruct (length tokens =? 0); [split; assumption|].
  now apply substitution_loop_spans.
Qed.

Lemma tai_merge_spec (current next_token t : Token) :
  tai_merge lex current next_token = Some t ->
  surface t = surface current ++ surface next_token /\
  start t = start current /\ end_ t = end_ next_token.
Proof.
  unfold tai_merge.
  destruct (verb_stem (lookup lex (surface current))) as [[bs vp]|].
  - destruct (str_eqb (surface next_token) (u "たい")) eqn:E1.
    { apply str_eqb_eq in E1. intro H. injection H as <-. rewrite E1. auto. }
    destruct (str_eqb (surface next_token) (u "たかった")) eqn:E2.
    { apply str_eqb_eq in E2. intro H. injection H as <-. rewrite E2. auto. }
    destruct (str_eqb (surface next_token) (u "たくない")) eqn:E3.
    { apply str_eqb_eq in E3. intro H. injection H as <-. rewrite E3. auto. }
    discriminate.
  - destruct (str_eqb (surface next_token) (u "たい"));
      destruct (str_eqb (surface next_token) (u "たかった"));
      destruct (str_eqb (surface next_token) (u "たくない")); discriminate.
Qed.

Lemma pair_merge_spec (current next_token t : Token) :
  pair_merge lex current next_token = Some t ->
  passes_or_merges [current; next_token] t.
Proof.
  intro H. right.
  assert (S : surface t = surface current ++ surface next_token /\
              start t = start current /\ end_ t = end_ next_token).
  { unfold pair_merge in H.
    destruct (tai_merge lex current next_token) as [t1|] eqn:T1.
    { injection H as <-. now apply tai_merge_spec. }
    unfold suru_compound_merge, te_extension_merge in H.
    destruct (str_in (surface current) SURU_COMPOUND_NOUNS &&
              str_in (surface next_token) SURU_FORMS).
    { injection H as <-.
      destruct (looked_up_token_fields lex (surface current ++ surface next_token)
                  (surface current ++ surface next_token) "vs"
                  (start current) (end_ next_token)) as (S & _ & _ & St & En). auto. }
    destruct (endswith (surface current) (u "て") &&
              str_in (surface next_token) TE_FORM_EXTENSIONS); [|discriminate].
    destruct (endswith (surface current) (u "して") && (2 <? length (surface current)) &&
              str_in (drop_last 2 (surface current)) SURU_COMPOUND_NOUNS); [|discriminate].
    injection H as <-.
    destruct (looked_up_token_fields lex (surface current ++ surface next_token)
                (surface current ++ surface next_token) "v1"
                (start current) (end_ next_token)) as (S & _ & _ & St & En). auto. }
  destruct S as (S & St & En). cbn [length map concat hd last].
  rewrite app_nil_r. repeat split; try assumption. lia.
Qed.

Lemma merge_patterns_loop_groups (fuel : nat) :
  forall tokens, length tokens <= fuel ->
    regrouped passes_or_merges tokens (merge_patterns_loop lex fuel tokens).
Proof.
  induction fuel as [|fuel IH]; intros tokens L.
  - destruct tokens; [|cbn [length] in L; lia]. exists []. split; [reflexivity | constructor].
  - destruct tokens as [|t rest].
    + exists []. split; [reflexivity | constructor].
    + cbn [merge_patterns_loop].
      destruct (match rest with
                | next_token :: _ => pair_merge lex t next_token
                | [] => None
                end) as [mt|] eqn:PM.
      * destruct rest as [|nx rest']; [discriminate|].
        destruct (IH rest') as (gs & Cg & Fg); [cbn [length] in L; lia|].
        exists ([t; nx] :: gs). split; [cbn [concat app]; now rewrite Cg|].
        constructor; [now apply pair_merge_spec | exact Fg].
      * destruct (find_pattern MERGE_PATTERNS (t :: rest)) as [[p m]|] eqn:F.
        -- destruct (find_pattern_some _ _ _ _ F) as (I & Lp & M).
           destruct (merge_patterns_sound _ _ I) as (C & L2).
           destruct (firstn_skipn_lengths (length p) (t :: rest) Lp) as (Lf & Ls).
           destruct (IH (skipn (length p) (t :: rest))) as (gs & Cg & Fg).
           { rewrite Ls. cbn [length] in *. lia. }
           exists (firstn (length p) (t :: rest) :: gs). split.
           { cbn [concat]. rewrite Cg. apply firstn_skipn. }
           constructor; [|assumption]. right.
           destruct (looked_up_token_fields lex m m "unk" (start t)
                       (end_ (last (firstn (length p) (t :: rest)) t)))
             as (S & _ & _ & St & En).
           rewrite S, St, En, M, Lf. repeat split; try assumption.
           ++ now symmetry.
           ++ destruct (length p) as [|k]; [lia | reflexivity].
           ++ f_equal. apply last_default.
              destruct (length p) as [|k]; [lia | discriminate].
        -- destruct (IH rest) as (gs & Cg & Fg); [cbn [length] in L; lia|].
           exists ([t] :: gs). split; [cbn [concat app]; now rewrite Cg|].
           constructor; [now left | assumption].
Qed.

Lemma apply_merge_patterns_groups (tokens : list Token) :
  regrouped passes_or_merges tokens (apply_merge_patterns lex tokens).
Proof.
  unfold apply_merge_patterns. destruct (length tokens <? 2).
  - apply regrouped_singletons. intro t. now left.
  - now apply merge_patterns_loop_groups.
Qed.

(** Every pass of the rewriter other than the substitution keeps a cover
    of the text a cover, and the substitution does so when the text
    holds neither of the two patterns whose replacement spells a
    different text. *)
Lemma rewrite_tokens_spans (text : str) (tokens : list Token) :
  contains_str text (u "養育費きちんと") = false ->
  contains_str text (u "またお会いましょう") = false ->
  covers text tokens -> surface_fidelity text tokens ->
  covers text (rewrite_tokens chars lex tokens) /\
  surface_fidelity text (rewrite_tokens chars lex tokens).
Proof.
  intros H1 H2 A F. unfold rewrite_tokens, post_process_splits, covers in *.
  set (P := fun l => adjacent_spans 0 (length text) l /\ surface_fidelity text l).
  assert (Merge : forall pass : list Token -> list Token,
             (forall l, regrouped passes_or_merges l (pass l)) ->
             forall l, P l -> P (repeat_pass pass l)).
  { intros pass G l Pl. apply repeat_pass_keeps; [|assumption].
    intros l' (A' & F'). eapply regrouped_spans; eauto. }
  change (P (repeat_pass (apply_merge_patterns lex)
               (apply_token_substitutions lex
                  (split_tokens chars lex
                     (repeat_pass apply_multi_token_merges
                        (repeat_pass merge_compound_verbs tokens)))))).
  apply Merge; [apply apply_merge_patterns_groups|].
  assert (P2 : P (repeat_pass apply_multi_token_merges
                    (repeat_pass merge_compound_verbs tokens))).
  { apply Merge.
    - intro l. apply (regrouped_impl multi_merge_step); [apply multi_step_preserves|].
      apply apply_multi_token_merges_groups.
    - apply Merge; [|split; assumption].
      intro l. apply (regrouped_impl compound_merge_step); [apply compound_step_preserves|].
      apply merge_compound_verbs_groups. }
  destruct P2 as (A2 & F2).
  destruct (split_tokens_spans text _ 0 (length text) (le_n _) A2 F2) as (A3 & F3).
  now apply apply_token_substitutions_spans.
Qed.

End Rewriter.

Section Facade.

Variable chars : Characters.
Variable lex : Lexicon.
Variable normalize_NFC : str -> str.


End Facade.


(** ** POS ids *)

Lemma get_pos_id_in_In (m : list (string * Z)) (name : string) :
  get_pos_id_in m name <> 0%Z -> In (name, get_pos_id_in m name) m.
Proof.
  induction m as [|[n k] r IH]; cbn [get_pos_id_in]; [congruence|].
  destruct (String.eqb_spec n name) as [->|N].
  - intros _. now left.
  - intro H. right. now apply IH.
Qed.

Lemma get_pos_name_in_In (m : list (string * Z)) (pid : Z) :
  get_pos_name_in m pid <> "unk" -> In (get_pos_name_in m pid, pid) m.
Proof.
  induction m as [|[n k] r IH]; cbn [get_pos_name_in]; [congruence|].
  destruct (Z.eqb_spec k pid) as [->|N].
  - intros _. now left.
  - intro H. right. now apply IH.
Qed.

Lemma pos_id_map_rows (name : string) (pid : Z) :
  In (name, pid) POS_ID_MAP ->
  get_pos_id name = pid /\ get_pos_name pid = name /\ (1 <= pid <= 84)%Z /\ name <> "unk".
Proof.
  intro H.
  assert (A : forallb (fun row : string * Z =>
                         (get_pos_id (fst row) =? snd row)%Z &&
                         String.eqb (get_pos_name (snd row)) (fst row) &&
                         (1 <=? snd row)%Z && (snd row <=? 84)%Z &&
                         negb (String.eqb (fst row) "unk"))
                      POS_ID_MAP = true) by (vm_compute; reflexivity).
  rewrite forallb_forall in A. apply A in H. cbn [fst snd] in H.
  repeat (apply andb_true_iff in H as (H & ?)).
  apply Z.eqb_eq in H. repeat split; try lia.
  - now apply String.eqb_eq.
  - intros ->. discriminate.
Qed.


(** ** Phonetic rules of the counters *)

Lemma char_map_get_In (d : list (char * char)) (c v : char) :
  char_map_get d c = Some v -> In (c, v) d.
Proof.
  induction d as [|[k w] r IH]; cbn [char_map_get]; [discriminate|].
  destruct (N.eqb_spec k c) as [->|N].
  - intro H. injection H as <-. now left.
  - intro H. right. now apply IH.
Qed.

Lemma voiced_is_final (c v : char) :
  In (c, v) voicing \/ In (c, v) h_to_p ->
  char_map_get voicing v = None /\ char_map_get h_to_p v = None.
Proof.
  assert (A : forallb (fun row : char * char =>
                         match char_map_get voicing (snd row), char_map_get h_to_p (snd row) with
                         | None, None => true
                         | _, _ => false
                         end) (voicing ++ h_to_p) = true) by (vm_compute; reflexivity).
  rewrite forallb_forall in A. intro H.
  assert (I : In (c, v) (voicing ++ h_to_p)) by (apply in_app_iff; exact H).
  apply A in I. cbn [snd] in I.
  destruct (char_map_get voicing v); [discriminate|].
  destruct (char_map_get h_to_p v); [discriminate|]. auto.
Qed.


(** ** Counter expressions *)

Lemma startswith_length (p s : str) : startswith s p = true -> length p <= length s.
Proof.
  intro H. apply startswith_firstn in H. apply (f_equal (@length char)) in H.
  rewrite length_firstn in H. lia.
Qed.

Section CounterFacts.

Variable unicode_digit : char -> option (option Z).

Lemma number_end_spec (rest : str) :
  forall n,
    n <= number_end unicode_digit rest n /\
    number_end unicode_digit rest n <= n + length rest /\
    Forall (fun c => is_number_char unicode_digit c = true)
           (firstn (number_end unicode_digit rest n - n) rest).
Proof.
  induction rest as [|c rest IH]; intro n; cbn [number_end length].
  - rewrite Nat.sub_diag. split; [lia | split; [lia | constructor]].
  - destruct (is_number_char unicode_digit c) eqn:E.
    + destruct (IH (S n)) as (A & B & C). split; [lia | split; [lia|]].
      replace (number_end unicode_digit rest (S n) - n)
        with (S (number_end unicode_digit rest (S n) - S n)) by lia.
      cbn [firstn]. constructor; assumption.
    + rewrite Nat.sub_diag. split; [lia | split; [lia | constructor]].
Qed.

(** Where a counter expression found at [start_pos] begins and ends. *)
Lemma find_counter_expression_bounds (text : str) (start_pos : nat) (ce : CounterExpression) :
  find_counter_expression unicode_digit text start_pos = Ok (Some ce) ->
  ce_start ce = start_pos /\ start_pos < ce_end ce /\ ce_end ce <= length text.
Proof.
  unfold find_counter_expression.
  destruct (Nat.leb_spec (length text) start_pos) as [Ge|Lt]; [discriminate|].
  destruct (number_end_spec (skipn start_pos text) start_pos) as (A & B & C).
  set (num_end := number_end unicode_digit (skipn start_pos text) start_pos) in *.
  rewrite length_skipn in B.
  destruct (Nat.eqb_spec num_end start_pos) as [E|NE]; [discriminate|].
  destruct (parse_number unicode_digit (slice text start_pos num_end))
    as [[number_value|]|]; try discriminate.
  destruct (find _ COMMON_COUNTERS) as [[counter_text [[counter_kana counter_seq] digit_opts]]|]
    eqn:F; [|discriminate].
  apply find_some in F as (I & S). cbn [fst] in S.
  intro H. injection H as <-. cbn [ce_start ce_end].
  pose proof (startswith_length _ _ S) as Ls. rewrite length_skipn in Ls.
  split; [reflexivity|]. split; lia.
Qed.


Lemma counters_in_order_weaken (text : str) (rs : list CounterExpression) (a b : nat) :
  a <= b -> counters_in_order unicode_digit text b rs ->
  counters_in_order unicode_digit text a rs.
Proof.
  destruct rs as [|ce r]; cbn [counters_in_order]; [auto|].
  intros L (A & R). split; [lia | exact R].
Qed.

Lemma find_all_counters_loop_spec (text : str) (fuel : nat) :
  forall i acc rs,
    find_all_counters_loop unicode_digit fuel text i acc = Ok rs ->
    exists found, rs = acc ++ found /\ counters_in_order unicode_digit text i found.
Proof.
  induction fuel as [|fuel IH]; intros i acc rs; cbn [find_all_counters_loop].
  - intro H. injection H as <-. exists []. now rewrite app_nil_r.
  - destruct (length text <=? i).
    { intro H. injection H as <-. exists []. now rewrite app_nil_r. }
    destruct (find_counter_expression unicode_digit text i) as [[ce|]|] eqn:F;
      [| |discriminate]; intro H.
    + destruct (find_counter_expression_bounds text i ce F) as (S & L1 & L2).
      destruct (IH _ _ _ H) as (found & -> & O).
      exists (ce :: found). split; [now rewrite <- app_assoc|].
      cbn [counters_in_order]. rewrite S. repeat split; try lia; assumption.
    + destruct (IH _ _ _ H) as (found & -> & O).
      exists found. split; [reflexivity|].
      eapply counters_in_order_weaken; [|exact O]. lia.
Qed.

Lemma find_all_counters_loop_fuel (text : str) (f1 : nat) :
  forall f2 i acc,
    length text <= i + f1 -> length text <= i + f2 ->
    find_all_counters_loop unicode_digit f1 text i acc
    = find_all_counters_loop unicode_digit f2 text i acc.
Proof.
  induction f1 as [|f1 IH]; intros f2 i acc L1 L2.
  - destruct f2 as [|f2]; [reflexivity|]. cbn [find_all_counters_loop].
    destruct (Nat.leb_spec (length text) i); [reflexivity | lia].
  - destruct f2 as [|f2]; cbn [find_all_counters_loop].
    { destruct (Nat.leb_spec (length text) i); [reflexivity | lia]. }
    destruct (Nat.leb_spec (length text) i); [reflexivity|].
    destruct (find_counter_expression unicode_digit text i) as [[ce|]|] eqn:F;
      [| |reflexivity].
    + destruct (find_counter_expression_bounds text i ce F) as (S & L3 & L4).
      apply IH; lia.
    + apply IH; lia.
Qed.


End CounterFacts.



(** ** Splitting a compound word *)

Lemma Z_in_In (k : Z) (l : list Z) : Z_in k l = true <-> In k l.
Proof.
  unfold Z_in. rewrite existsb_exists. split.
  - intros (x & I & E). apply Z.eqb_eq in E. now subst.
  - intro I. exists k. split; [assumption | apply Z.eqb_refl].
Qed.

Lemma seq_mem_In (d : list (Z * Z)) (k : Z) : seq_mem d k = true -> In k (map fst d).
Proof.
  unfold seq_mem. induction d as [|[k' v] r IH]; cbn [seq_get map fst]; [discriminate|].
  destruct (Z.eqb_spec k' k) as [->|N]; [now left | intro H; right; now apply IH].
Qed.

Lemma should_split_true (surface : str) (sq : Z) :
  Z_in sq ALL_SPLIT_SEQS = true \/ str_in surface DE_SUFFIX_WORDS = true \/
  str_in surface TOORI_SUFFIX_WORDS = true \/ str_in surface DO_PREFIX_WORDS = true \/
  str_in surface SHI_PREFIX_WORDS = true \/ word_mem COMPLEX_PATTERN_WORDS surface = true ->
  should_split surface sq = true.
Proof.
  unfold should_split. intros [H | [H | [H | [H | [H | H]]]]];
    repeat match goal with |- (if ?c then _ else _) = true => destruct c; try reflexivity end;
    discriminate.
Qed.

Lemma complex_pattern_words_spell (surface : str) (pattern_parts : list str) (sc : Z) :
  word_get COMPLEX_PATTERN_WORDS surface = Some (pattern_parts, sc) ->
  concat pattern_parts = surface.
Proof.
  intro H. apply word_get_In in H.
  assert (A : forallb (fun row : str * (list str * Z) =>
                         str_eqb (concat (fst (snd row))) (fst row))
                      COMPLEX_PATTERN_WORDS = true) by (vm_compute; reflexivity).
  rewrite forallb_forall in A. apply A in H. cbn [fst snd] in H. now apply str_eqb_eq.
Qed.

Section SplitFacts.

Variable lex : Lexicon.

Lemma two_parts_spec (a b surface : str) (sq : Z) (r : SplitResult) :
  two_parts lex a b surface sq = Some r ->
  map sp_text (sr_parts r) = [a; b] /\ lookup lex a <> [] /\ lookup lex b <> [].
Proof.
  unfold two_parts. destruct (lookup lex a) as [|e1 l1]; [discriminate|].
  destruct (lookup lex b) as [|e2 l2]; [discriminate|].
  intro H. injection H as <-. cbn [sr_parts map sp_text]. repeat split; discriminate.
Qed.

Lemma pattern_parts_loop_spec (pattern_parts : list str) :
  forall acc parts,
    pattern_parts_loop lex pattern_parts acc = Some parts ->
    map sp_text parts = map sp_text acc ++ pattern_parts /\
    Forall (fun p => lookup lex p <> []) pattern_parts.
Proof.
  induction pattern_parts as [|p rest IH]; intros acc parts; cbn [pattern_parts_loop].
  - intro H. injection H as <-. rewrite app_nil_r. split; [reflexivity | constructor].
  - destruct (lookup lex p) as [|e l] eqn:E; [discriminate|].
    intro H. destruct (IH _ _ H) as (M & F).
    rewrite map_app in M. cbn [map sp_text] in M. rewrite <- app_assoc in M.
    split; [exact M|]. constructor; [rewrite E; discriminate | exact F].
Qed.


End SplitFacts.


(** ** The filter of token pairs *)

Lemma validate_token_pair_blocked (l r : str) (lp rp : Z) (is_last : bool) :
  fst (validate_token_pair l lp r rp is_last) = negb (blocked_pair l r is_last).
Proof.
  unfold validate_token_pair, blocked_pair, check_n_after_particle,
    check_da_suru_combination, check_bad_ending.
  destruct (str_in r [u "ん"; u "んだ"; u "んです"]);
    destruct (str_in l PARTICLES_BLOCKING_N);
    destruct (str_eqb l (u "だ"));
    destruct (str_in r [u "する"; u "して"; u "し"; u "した"; u "します"; u "しました"]);
    destruct is_last; destruct (str_in r BAD_ENDINGS); reflexivity.
Qed.

Lemma path_is_valid_blocked (tokens : list Segment) :
  path_is_valid tokens = negb (has_blocked_pair tokens).
Proof.
  induction tokens as [|a [|b rest] IH]; [reflexivity | reflexivity |].
  cbn [path_is_valid has_blocked_pair] in *.
  pose proof (validate_token_pair_blocked (seg_surface a) (seg_surface b)
                (pos_id (entry a)) (pos_id (entry b))
                (match rest with [] => true | _ => false end)) as V.
  destruct (validate_token_pair _ _ _ _ _) as [valid reason]. cbn [fst] in V.
  rewrite V, IH. now destruct (blocked_pair _ _ _).
Qed.

Lemma fold_left_filter {A : Type} (p : A -> bool) (l : list A) :
  forall acc,
    fold_left (fun (acc : list A) x => if p x then acc ++ [x] else acc) l acc
    = acc ++ filter p l.
Proof.
  induction l as [|x r IH]; intro acc; cbn [fold_left filter].
  - now rewrite app_nil_r.
  - rewrite IH. destruct (p x); [now rewrite <- app_assoc | reflexivity].
Qed.

Lemma filter_idempotent {A : Type} (p : A -> bool) (l : list A) :
  filter p (filter p l) = filter p l.
Proof.
  induction l as [|x r IH]; cbn [filter]; [reflexivity|].
  destruct (p x) eqn:E; [cbn [filter]; now rewrite E, IH | exact IH].
Qed.



(** ** Binary files *)

Lemma le_bytes_length (width : nat) : forall n, length (le_bytes width n) = width.
Proof.
  induction width as [|w IH]; intro n; cbn [le_bytes length]; [reflexivity | now rewrite IH].
Qed.

Lemma le_value_bytes (width : nat) :
  forall n, (n < 256 ^ N.of_nat width)%N -> le_value (le_bytes width n) = n.
Proof.
  induction width as [|w IH]; intros n L.
  - cbn in L. cbn [le_bytes le_value fold_right]. lia.
  - cbn [le_bytes]. change (le_value ((n mod 256)%N :: le_bytes w (n / 256)%N))
      with ((n mod 256) + 256 * le_value (le_bytes w (n / 256)%N))%N.
    rewrite IH.
    + pose proof (N.div_mod n 256). lia.
    + rewrite Nat2N.inj_succ, N.pow_succ_r' in L.
      apply N.Div0.div_lt_upper_bound. lia.
Qed.

Lemma unpack_pack (width : nat) (x : Z) (bs : list N) :
  pack_uint width x = Done bs ->
  length bs = width /\ unpack_uint width bs = Done (Z.to_N x) /\
  (0 <= x < 256 ^ Z.of_nat width)%Z.
Proof.
  unfold pack_uint.
  destruct ((0 <=? x)%Z && (x <? 256 ^ Z.of_nat width)%Z) eqn:R; [|discriminate].
  apply andb_true_iff in R as (R1 & R2). apply Z.leb_le in R1. apply Z.ltb_lt in R2.
  intro H. injection H as <-. split; [apply le_bytes_length|]. split; [|lia].
  unfold unpack_uint. rewrite le_bytes_length, Nat.eqb_refl. f_equal.
  apply le_value_bytes.
  assert (E : (256 ^ N.of_nat width)%N = Z.to_N (256 ^ Z.of_nat width)).
  { rewrite <- (N2Z.id (256 ^ N.of_nat width)). f_equal.
    rewrite N2Z.inj_pow, nat_N_Z. reflexivity. }
  rewrite E. apply Z2N.inj_lt; lia.
Qed.

Lemma pack_uint_in_range (width : nat) (x : Z) :
  (0 <= x < 256 ^ Z.of_nat width)%Z -> exists bs, pack_uint width x = Done bs.
Proof.
  intros (A & B). unfold pack_uint.
  assert (R : (0 <=? x)%Z && (x <? 256 ^ Z.of_nat width)%Z = true).
  { apply andb_true_iff. split; [now apply Z.leb_le | now apply Z.ltb_lt]. }
  rewrite R. eauto.
Qed.

Lemma utf8_decode_1 (b0 : N) (rest : list N) :
  (b0 <? 128)%N = true ->
  utf8_decode (b0 :: rest) = (r <- utf8_decode rest ;; Done (b0 :: r)).
Proof. intro H1. cbn [utf8_decode]. now rewrite H1. Qed.

Lemma utf8_decode_2 (b0 b1 : N) (rest : list N) :
  (b0 <? 128)%N = false -> ((194 <=? b0) && (b0 <=? 223))%N = true ->
  continuation b1 = true ->
  utf8_decode (b0 :: b1 :: rest)
  = (r <- utf8_decode rest ;; Done (((b0 - 192) * 64 + (b1 - 128))%N :: r)).
Proof. intros H1 H2 H3. cbn [utf8_decode]. now rewrite H1, H2, H3. Qed.

Lemma utf8_decode_3 (b0 b1 b2 : N) (rest : list N) :
  (b0 <? 128)%N = false -> ((194 <=? b0) && (b0 <=? 223))%N = false ->
  ((224 <=? b0) && (b0 <=? 239))%N = true ->
  second_of_three b0 b1 = true -> continuation b2 = true ->
  utf8_decode (b0 :: b1 :: b2 :: rest)
  = (r <- utf8_decode rest ;;
     Done ((((b0 - 224) * 64 + (b1 - 128)) * 64 + (b2 - 128))%N :: r)).
Proof. intros H1 H2 H3 H4 H5. cbn [utf8_decode]. now rewrite H1, H2, H3, H4, H5. Qed.

Lemma utf8_decode_4 (b0 b1 b2 b3 : N) (rest : list N) :
  (b0 <? 128)%N = false -> ((194 <=? b0) && (b0 <=? 223))%N = false ->
  ((224 <=? b0) && (b0 <=? 239))%N = false ->
  ((240 <=? b0) && (b0 <=? 244))%N = true ->
  second_of_four b0 b1 = true -> continuation b2 = true -> continuation b3 = true ->
  utf8_decode (b0 :: b1 :: b2 :: b3 :: rest)
  = (r <- utf8_decode rest ;;
     Done (((((b0 - 240) * 64 + (b1 - 128)) * 64 + (b2 - 128)) * 64 + (b3 - 128))%N :: r)).
Proof.
  intros H1 H2 H3 H4 H5 H6 H7. cbn [utf8_decode]. now rewrite H1, H2, H3, H4, H5, H6, H7.
Qed.

Lemma in_range (lo hi b : N) : (lo <= b <= hi)%N -> ((lo <=? b) && (b <=? hi))%N = true.
Proof. intros (A & B). apply andb_true_iff. split; now apply N.leb_le. Qed.

Lemma out_of_range (lo hi b : N) :
  (b < lo \/ hi < b)%N -> ((lo <=? b) && (b <=? hi))%N = false.
Proof.
  intro H. apply andb_false_iff.
  destruct H; [left; apply N.leb_gt | right; apply N.leb_gt]; assumption.
Qed.

Lemma continuation_low (x : N) : (x < 64)%N -> continuation (128 + x) = true.
Proof. intro H. unfold continuation. apply in_range. lia. Qed.

Lemma Done_inj (A : Type) (x y : A) : Done x = Done y -> x = y.
Proof. intro H. congruence. Qed.

Lemma utf8_decode_char (c : char) (bs rest : list N) :
  utf8_encode_char c = Done bs ->
  utf8_decode (bs ++ rest) = (r <- utf8_decode rest ;; Done (c :: r)).
Proof.
  unfold utf8_encode_char.
  assert (N64 : 64%N <> 0%N) by discriminate.
  assert (D1 := N.div_mod c 64 N64).
  assert (M1 := N.mod_lt c 64 N64).
  assert (D2 := N.div_mod (c / 64) 64 N64).
  assert (M2 := N.mod_lt (c / 64) 64 N64).
  assert (D3 := N.div_mod (c / 4096) 64 N64).
  assert (M3 := N.mod_lt (c / 4096) 64 N64).
  assert (E1 : (c / 4096 = c / 64 / 64)%N) by (rewrite N.Div0.div_div; reflexivity).
  assert (E2 : (c / 262144 = c / 4096 / 64)%N) by (rewrite N.Div0.div_div; reflexivity).
  pose proof (N.le_0_l (c / 64)) as P1. pose proof (N.le_0_l (c mod 64)) as P2.
  pose proof (N.le_0_l ((c / 64) mod 64)) as P3. pose proof (N.le_0_l (c / 4096)) as P4.
  pose proof (N.le_0_l ((c / 4096) mod 64)) as P5. pose proof (N.le_0_l (c / 262144)) as P6.
  pose proof (N.le_0_l (c / 64 / 64)) as P7. pose proof (N.le_0_l (c / 4096 / 64)) as P8.
  destruct (N.ltb_spec c 128) as [L1|L1].
  { intro H. apply Done_inj in H. subst bs. change ([c] ++ rest) with (c :: rest).
    apply utf8_decode_1. now apply N.ltb_lt. }
  destruct (N.ltb_spec c 2048) as [L2|L2].
  { intro H. apply Done_inj in H. subst bs.
    change ([(192 + c / 64)%N; (128 + c mod 64)%N] ++ rest)
      with ((192 + c / 64)%N :: (128 + c mod 64)%N :: rest).
    rewrite utf8_decode_2.
    - replace ((192 + c / 64 - 192) * 64 + (128 + c mod 64 - 128))%N with c by lia.
      reflexivity.
    - apply N.ltb_ge. lia.
    - apply in_range. lia.
    - apply continuation_low. lia. }
  destruct (N.ltb_spec c 65536) as [L3|L3].
  { destruct ((55296 <=? c) && (c <=? 57343))%N eqn:S; [discriminate|].
    assert (Sur : (c < 55296 \/ 57343 < c)%N).
    { apply andb_false_iff in S as [S|S]; apply N.leb_gt in S; auto. }
    intro H. apply Done_inj in H. subst bs.
    change ([(224 + c / 4096)%N; (128 + (c / 64) mod 64)%N; (128 + c mod 64)%N] ++ rest)
      with ((224 + c / 4096)%N :: (128 + (c / 64) mod 64)%N :: (128 + c mod 64)%N :: rest).
    rewrite utf8_decode_3.
    - replace (((224 + c / 4096 - 224) * 64 + (128 + (c / 64) mod 64 - 128)) * 64
               + (128 + c mod 64 - 128))%N with c by lia.
      reflexivity.
    - apply N.ltb_ge. lia.
    - apply out_of_range. lia.
    - apply in_range. lia.
    - unfold second_of_three.
      destruct (N.eqb_spec (224 + c / 4096) 224) as [Z|NZ]; [apply in_range; lia|].
      destruct (N.eqb_spec (224 + c / 4096) 237) as [Z|NZ']; [apply in_range; lia|].
      apply continuation_low. lia.
    - apply continuation_low. lia. }
  destruct (N.ltb_spec c 1114112) as [L4|L4]; [|discriminate].
  intro H. apply Done_inj in H. subst bs.
  change ([(240 + c / 262144)%N; (128 + (c / 4096) mod 64)%N; (128 + (c / 64) mod 64)%N;
           (128 + c mod 64)%N] ++ rest)
    with ((240 + c / 262144)%N :: (128 + (c / 4096) mod 64)%N
          :: (128 + (c / 64) mod 64)%N :: (128 + c mod 64)%N :: rest).
  rewrite utf8_decode_4.
  - replace ((((240 + c / 262144 - 240) * 64 + (128 + (c / 4096) mod 64 - 128)) * 64
              + (128 + (c / 64) mod 64 - 128)) * 64 + (128 + c mod 64 - 128))%N
      with c by lia.
    reflexivity.
  - apply N.ltb_ge. lia.
  - apply out_of_range. lia.
  - apply out_of_range. lia.
  - apply in_range. lia.
  - unfold second_of_four.
    destruct (N.eqb_spec (240 + c / 262144) 240) as [Z|NZ]; [apply in_range; lia|].
    destruct (N.eqb_spec (240 + c / 262144) 244) as [Z|NZ']; [apply in_range; lia|].
    apply continuation_low. lia.
  - apply continuation_low. lia.
  - apply continuation_low. lia.
Qed.

(** What [encode('utf-8')] produces, [decode('utf-8')] reads back as the
    same text. *)
Lemma utf8_round_trip (s : str) (bs : list N) :
  utf8_encode s = Done bs -> utf8_decode bs = Done s.
Proof.
  revert bs. induction s as [|c r IH]; intros bs; cbn [utf8_encode].
  - intro H. apply Done_inj in H. subst bs. reflexivity.
  - destruct (utf8_encode_char c) as [b|] eqn:C; cbn [io_bind]; [|discriminate].
    destruct (utf8_encode r) as [rest|]; cbn [io_bind]; [|discriminate].
    intro H. apply Done_inj in H. subst bs.
    rewrite (utf8_decode_char c b rest C), (IH rest eq_refl). reflexivity.
Qed.

(** *** The kana readings file *)

Lemma read_app (n : nat) (bs rest : list N) :
  length bs = n -> read n (bs ++ rest) = (bs, rest).
Proof.
  intros <-. unfold read.
  rewrite firstn_app, skipn_app, firstn_all, skipn_all, Nat.sub_diag.
  cbn [firstn skipn app]. now rewrite app_nil_r.
Qed.

Lemma insert_item_In (x y : Z * str) (l : readings) :
  In y (insert_item x l) <-> y = x \/ In y l.
Proof.
  induction l as [|z r IH]; cbn [insert_item].
  - cbn [In]. intuition.
  - destruct (item_ltb z x); cbn [In]; [rewrite IH|]; intuition.
Qed.

Lemma insert_item_length (x : Z * str) (l : readings) :
  length (insert_item x l) = S (length l).
Proof.
  induction l as [|z r IH]; cbn [insert_item]; [reflexivity|].
  destruct (item_ltb z x); cbn [length]; [now rewrite IH | reflexivity].
Qed.

Lemma insert_item_keys (x : Z * str) (l : readings) (k : Z) :
  In k (map fst (insert_item x l)) <-> k = fst x \/ In k (map fst l).
Proof.
  induction l as [|z r IH]; cbn [insert_item].
  - cbn [map In]. intuition.
  - destruct (item_ltb z x); cbn [map In]; [rewrite IH|]; intuition.
Qed.

Lemma insert_item_NoDup (x : Z * str) (l : readings) :
  NoDup (map fst (x :: l)) -> NoDup (map fst (insert_item x l)).
Proof.
  induction l as [|z r IH]; cbn [insert_item]; [trivial|].
  destruct (item_ltb z x); [|trivial].
  cbn [map]. intro H. inversion H as [|? ? X1 X2]; subst.
  inversion X2 as [|? ? Z1 Z2]; subst. constructor.
  - rewrite insert_item_keys. intros [E|I]; [|contradiction].
    apply X1. left. now symmetry.
  - apply IH. cbn [map]. constructor; [|assumption].
    intro I. apply X1. now right.
Qed.

Lemma sorted_items_In (d : readings) (y : Z * str) : In y (sorted_items d) <-> In y d.
Proof.
  induction d as [|x r IH]; cbn [sorted_items fold_right]; [reflexivity|].
  fold (sorted_items r). rewrite insert_item_In, IH. cbn [In]. intuition.
Qed.

Lemma sorted_items_keys (d : readings) (k : Z) :
  In k (map fst (sorted_items d)) <-> In k (map fst d).
Proof.
  induction d as [|x r IH]; cbn [sorted_items fold_right]; [reflexivity|].
  fold (sorted_items r). rewrite insert_item_keys, IH. cbn [map In]. intuition.
Qed.

Lemma sorted_items_length (d : readings) : length (sorted_items d) = length d.
Proof.
  induction d as [|x r IH]; cbn [sorted_items fold_right]; [reflexivity|].
  fold (sorted_items r). rewrite insert_item_length, IH. reflexivity.
Qed.

Lemma sorted_items_NoDup (d : readings) :
  NoDup (map fst d) -> NoDup (map fst (sorted_items d)).
Proof.
  induction d as [|x r IH]; cbn [sorted_items fold_right]; [trivial|].
  fold (sorted_items r). cbn [map]. intro H. inversion H as [|? ? X1 X2]; subst.
  apply insert_item_NoDup. cbn [map]. constructor; [|auto].
  now rewrite sorted_items_keys.
Qed.

Lemma item_ltb_keys (a b : Z * str) :
  fst a <> fst b -> (item_ltb a b = true <-> (fst a < fst b)%Z).
Proof.
  intro NE. unfold item_ltb.
  destruct (Z.ltb_spec (fst a) (fst b)) as [L|G]; cbn [orb].
  - split; auto.
  - destruct (Z.eqb_spec (fst a) (fst b)) as [E|_]; [contradiction|]. cbn [andb].
    split; [discriminate | lia].
Qed.

Lemma insert_item_sorted (x : Z * str) (l : readings) :
  ~ In (fst x) (map fst l) -> Sorted Z.lt (map fst l) ->
  Sorted Z.lt (map fst (insert_item x l)).
Proof.
  induction l as [|z r IH]; cbn [insert_item map].
  - intros _ _. repeat constructor.
  - intros NI S. inversion S as [|? ? S' Hd]; subst.
    assert (NE : fst z <> fst x) by (intro E; apply NI; now left).
    assert (NI' : ~ In (fst x) (map fst r)) by (intro I; apply NI; now right).
    destruct (item_ltb z x) eqn:E; cbn [map].
    + apply (item_ltb_keys z x NE) in E. constructor; [now apply IH|].
      destruct r as [|w r']; cbn [insert_item map]; [now constructor|].
      destruct (item_ltb w x); cbn [map]; constructor; [|assumption].
      cbn [map] in Hd. now inversion Hd.
    + constructor; [exact S|]. constructor.
      destruct (Z.lt_total (fst z) (fst x)) as [L|[Q|G]]; [|contradiction|exact G].
      apply (item_ltb_keys z x NE) in L. congruence.
Qed.

Lemma sorted_items_sorted (d : readings) :
  NoDup (map fst d) -> Sorted Z.lt (map fst (sorted_items d)).
Proof.
  induction d as [|x r IH]; cbn [sorted_items fold_right map]; [constructor|].
  fold (sorted_items r). intro H. inversion H as [|? ? X1 X2]; subst.
  apply insert_item_sorted; [now rewrite sorted_items_keys | auto].
Qed.

Lemma dict_get_In (d : readings) (k : Z) (v : str) :
  NoDup (map fst d) -> (dict_get d k = Some v <-> In (k, v) d).
Proof.
  induction d as [|[k' v'] r IH]; cbn [dict_get map In fst].
  - intros _. split; [discriminate | contradiction].
  - intro H. inversion H as [|? ? X1 X2]; subst.
    destruct (Z.eqb_spec k' k) as [->|NE].
    + split.
      * intro E. injection E as ->. now left.
      * intros [E|I]; [now injection E as -> |].
        exfalso. apply X1. apply (in_map fst) in I. exact I.
    + rewrite (IH X2). split; [now right|].
      intros [E|I]; [|assumption]. injection E as -> _. contradiction.
Qed.

Lemma dict_get_sorted_items (d : readings) (k : Z) :
  NoDup (map fst d) -> dict_get (sorted_items d) k = dict_get d k.
Proof.
  intro H. pose proof (sorted_items_NoDup d H) as HS.
  destruct (dict_get d k) as [v|] eqn:E.
  - apply (dict_get_In _ _ _ HS), sorted_items_In, (dict_get_In _ _ _ H). exact E.
  - destruct (dict_get (sorted_items d) k) as [v|] eqn:E'; [|reflexivity].
    apply (dict_get_In _ _ _ HS), sorted_items_In, (dict_get_In _ _ _ H) in E'.
    congruence.
Qed.

Lemma dict_set_absent (d : readings) (k : Z) (v : str) :
  ~ In k (map fst d) -> dict_set d k v = d ++ [(k, v)].
Proof.
  induction d as [|[k' v'] r IH]; cbn [dict_set map In fst app]; [reflexivity|].
  intro H. destruct (Z.eqb_spec k' k) as [E|NE]; [exfalso; auto|].
  rewrite IH; [reflexivity|]. intro I. apply H. now right.
Qed.

Lemma dict_set_all_fresh (items : readings) :
  forall d0, NoDup (map fst (d0 ++ items)) ->
  fold_left (fun d kv => dict_set d (fst kv) (snd kv)) items d0 = d0 ++ items.
Proof.
  induction items as [|[k v] r IH]; intros d0 H; cbn [fold_left fst snd].
  - now rewrite app_nil_r.
  - rewrite dict_set_absent.
    + rewrite IH; rewrite <- app_assoc; [reflexivity | exact H].
    + rewrite map_app in H. cbn [map fst] in H. apply NoDup_remove_2 in H.
      intro I. apply H. apply in_or_app. now left.
Qed.

(** The loader reads back the records the build script wrote, whatever
    follows them in the file. *)
Lemma load_records_written (items : readings) :
  forall (f rest : list N) (d0 : readings),
    BuildDictionary.write_records items = Done f ->
    load_records (length items) (f ++ rest) d0
    = Done (fold_left (fun d kv => dict_set d (fst kv) (snd kv)) items d0).
Proof.
  induction items as [|[sq text] r IH]; intros f rest d0;
    cbn [BuildDictionary.write_records length fold_left fst snd].
  - intros _. reflexivity.
  - destruct (utf8_encode text) as [text_bytes|] eqn:U; cbn [io_bind]; [|discriminate].
    destruct (pack_uint 4 sq) as [sq_bytes|] eqn:P4; cbn [io_bind]; [|discriminate].
    destruct (pack_uint 2 (Z.of_nat (length text_bytes))) as [len_bytes|] eqn:P2;
      cbn [io_bind]; [|discriminate].
    destruct (BuildDictionary.write_records r) as [more|] eqn:W; cbn [io_bind];
      [|discriminate].
    intro H. apply Done_inj in H. subst f.
    apply unpack_pack in P4 as (L4 & V4 & R4).
    apply unpack_pack in P2 as (L2 & V2 & R2).
    rewrite <- !app_assoc. cbn [load_records].
    rewrite (read_app 4 sq_bytes _ L4), V4. cbn [io_bind].
    rewrite (read_app 2 len_bytes _ L2), V2. cbn [io_bind].
    rewrite Z_N_nat, Nat2Z.id.
    rewrite (read_app (length text_bytes) text_bytes _ eq_refl).
    rewrite (utf8_round_trip text text_bytes U). cbn [io_bind].
    rewrite Z2N.id by lia. apply IH. reflexivity.
Qed.

Lemma load_saved (d : readings) (f : list N) :
  NoDup (map fst d) -> BuildDictionary.save_kana_readings d = Done f ->
  load_kana_readings f = Done (sorted_items d).
Proof.
  intro ND. unfold BuildDictionary.save_kana_readings.
  destruct (pack_uint 4 (Z.of_nat (length d))) as [header|] eqn:P; cbn [io_bind];
    [|discriminate].
  destruct (BuildDictionary.write_records (sorted_items d)) as [records|] eqn:W;
    cbn [io_bind]; [|discriminate].
  intro H. apply Done_inj in H. subst f.
  apply unpack_pack in P as (L & V & R).
  unfold load_kana_readings. rewrite (read_app 4 header _ L), V. cbn [io_bind].
  rewrite Z_N_nat, Nat2Z.id, <- (sorted_items_length d), <- (app_nil_r records).
  rewrite (load_records_written _ records [] [] W).
  rewrite dict_set_all_fresh; [reflexivity|]. cbn [app].
  now apply sorted_items_NoDup.
Qed.

Lemma write_records_total (items : readings) :
  Forall (fun kv => (0 <= fst kv < 2 ^ 32)%Z /\ fits_record (snd kv)) items ->
  exists f, BuildDictionary.write_records items = Done f.
Proof.
  induction 1 as [|[sq text] r ((A & B) & (bs & U & Lb)) _ (more & W)];
    cbn [BuildDictionary.write_records fst snd] in *.
  - eauto.
  - rewrite U. cbn [io_bind].
    destruct (pack_uint_in_range 4 sq) as (sq_bytes & P4); [split; assumption|].
    destruct (pack_uint_in_range 2 (Z.of_nat (length bs))) as (len_bytes & P2);
      [change (256 ^ Z.of_nat 2)%Z with 65536%Z; lia|].
    rewrite P4, P2, W. cbn [io_bind]. eauto.
Qed.



(** ** The build script: kana suffixes, conjugated forms and costs *)

Lemma is_kana_Forall (text : str) :
  BuildDictionary.is_kana text = true
  <-> Forall (fun c => BuildDictionary.is_kana_char c = true) text.
Proof.
  induction text as [|c r IH]; cbn [BuildDictionary.is_kana].
  - split; [constructor | reflexivity].
  - destruct (BuildDictionary.is_kana_char c) eqn:E; cbn [negb].
    + rewrite IH. split; [now constructor | now inversion 1].
    + split; [discriminate|]. inversion 1. congruence.
Qed.

Lemma kana_run_spec (w : str) :
  forall count,
  exists k,
    BuildDictionary.kana_run w count = count + k /\ k <= length w /\
    Forall (fun c => BuildDictionary.is_kana_char c = true) (firstn k w) /\
    (k < length w ->
     exists c, nth_error w k = Some c /\ BuildDictionary.is_kana_char c = false).
Proof.
  induction w as [|c r IH]; intro count; cbn [BuildDictionary.kana_run].
  - exists 0. cbn [length firstn]. repeat split; try lia. constructor.
  - destruct (BuildDictionary.is_kana_char c) eqn:E.
    + destruct (IH (count + 1)) as (k & A & B & C & D). exists (S k).
      cbn [length firstn nth_error]. split; [lia|]. split; [lia|].
      split; [now constructor|]. intro L. apply D. lia.
    + exists 0. cbn [length firstn nth_error]. split; [lia|]. split; [lia|].
      split; [constructor|]. intros _. eauto.
Qed.




(** ** The reading of a counter expression *)

Lemma geminate_shape (kana : str) :
  length (geminate kana) = length kana /\
  firstn (length kana - 1) (geminate kana) = firstn (length kana - 1) kana.
Proof.
  destruct kana as [|c k]; [split; reflexivity|].
  change (geminate (c :: k)) with (drop_last 1 (c :: k) ++ u "っ").
  assert (Lt : length (u "っ") = 1) by reflexivity.
  split.
  - rewrite length_app, length_drop_last, Lt. cbn [length]. lia.
  - unfold drop_last. rewrite firstn_app, length_firstn.
    replace (length (c :: k) - 1 - Nat.min (length (c :: k) - 1) (length (c :: k)))
      with 0 by lia.
    cbn [firstn]. rewrite app_nil_r, firstn_firstn.
    now replace (Nat.min (length (c :: k) - 1) (length (c :: k) - 1))
      with (length (c :: k) - 1) by lia.
Qed.

Lemma rendaku_shape (kana : str) (handakuten : bool) :
  length (rendaku kana handakuten) = length kana /\
  skipn 1 (rendaku kana handakuten) = skipn 1 kana.
Proof.
  destruct kana as [|c rest]; [split; reflexivity|]. cbn [rendaku].
  destruct handakuten.
  - destruct (char_map_get h_to_p c); split; reflexivity.
  - destruct (char_map_get voicing c); split; reflexivity.
Qed.

Lemma apply_opts_shape (opts : list string) :
  forall number_kana counter_kana : str,
    length (fst (apply_opts opts number_kana counter_kana)) = length number_kana /\
    firstn (length number_kana - 1) (fst (apply_opts opts number_kana counter_kana))
    = firstn (length number_kana - 1) number_kana /\
    length (snd (apply_opts opts number_kana counter_kana)) = length counter_kana /\
    skipn 1 (snd (apply_opts opts number_kana counter_kana)) = skipn 1 counter_kana.
Proof.
  unfold apply_opts.
  induction opts as [|o r IH]; intros nk ck; cbn [fold_left fst snd].
  - repeat split.
  - destruct (geminate_shape nk) as (G1 & G2).
    destruct (String.eqb o "g").
    { destruct (IH (geminate nk) ck) as (A & B & C & D).
      rewrite G1 in A, B. repeat split; congruence. }
    destruct (String.eqb o "r").
    { destruct (rendaku_shape ck false) as (R1 & R2).
      destruct (IH nk (rendaku ck false)) as (A & B & C & D).
      repeat split; congruence. }
    destruct (String.eqb o "h").
    { destruct (rendaku_shape ck true) as (R1 & R2).
      destruct (IH nk (rendaku ck true)) as (A & B & C & D).
      repeat split; congruence. }
    apply IH.
Qed.


(** ** The POS classes and the POS table *)

Lemma get_pos_name_inv (pid : Z) (name : string) :
  get_pos_name pid = name -> name <> "unk" -> pid = get_pos_id name.
Proof.
  intros E N. subst name. apply get_pos_name_in_In in N.
  apply pos_id_map_rows in N. symmetry. apply N.
Qed.

Lemma pos_class_names (pid : Z) (ids : list Z) (names : list string) :
  map get_pos_name ids = names -> map get_pos_id names = ids ->
  ~ In "unk" names ->
  (Z_in pid ids = true <-> In (get_pos_name pid) names).
Proof.
  intros E1 E2 U. rewrite Z_in_In. split.
  - intro I. rewrite <- E1. now apply in_map.
  - intro I. assert (N : get_pos_name pid <> "unk") by (intro X; now rewrite X in I).
    rewrite (get_pos_name_inv pid _ eq_refl N), <- E2. now apply in_map.
Qed.


(** ** Numbers *)

